(** * A shallow embedding of liwnn/skiplist and its verification

    The Go package stores items in a skip list whose nodes live on the
    garbage-collected heap and point at each other through per-node slices
    of forward pointers.  The embedding keeps that shape: a store of nodes
    indexed by location, pointers that may be nil, slices with a length and
    a capacity, and operations that either return or panic.

    The canonical variant is the one with a configurable [maxLevel], a free
    list, [searchNode], [NewRange] and [MoveTo]; the older fixed-level
    variant of skiplist.go differs in [freeNode] and [randomLevel], which
    are embedded in [Module Fixed]. *)

From Stdlib Require Import ZArith QArith.
From stdpp Require Import gmap list strings sorting.

Local Open Scope Z_scope.

(** ** Outcomes of a call *)

Inductive panic :=
| NilDereference        (* nil pointer dereference, or a method call on a nil interface *)
| IndexOutOfRange       (* s[i] with i outside 0..len(s)-1 *)
| SliceBoundsOutOfRange (* s[:n] with n outside 0..cap(s) *)
| MakeOutOfRange        (* make with a negative length or capacity *)
| TypeAssertion         (* b.(Int) on a value that is not an Int *)
| Explicit (msg : string).

(** [Dangling] is a read of a location the store does not hold; Go cannot
    produce it, and the theorems show that it is never returned on the
    states the package builds.  [Diverge] is a pointer-chasing loop that
    does not end. *)
Inductive result (A : Type) :=
| Ok (a : A)
| Panic (p : panic)
| Dangling
| Diverge.
Arguments Ok {A} a.
Arguments Panic {A} p.
Arguments Dangling {A}.
Arguments Diverge {A}.

#[global] Instance result_ret : MRet result := λ A a, Ok a.
#[global] Instance result_bind : MBind result := λ A B f m,
  match m with
  | Ok a => f a
  | Panic p => Panic p
  | Dangling => Dangling
  | Diverge => Diverge
  end.

(** ** Machine integers *)

(** [int] and [int32] values are integers with the wrap-around of their
    width written out where the code adds or subtracts; [int] is taken to
    be 64 bits wide.  Loop counters that run between 0 and a level are
    natural numbers. *)
Definition wrap_int (z : Z) : Z := (z + 2 ^ 63) mod 2 ^ 64 - 2 ^ 63.
Definition wrap_int32 (z : Z) : Z := (z + 2 ^ 31) mod 2 ^ 32 - 2 ^ 31.

(** ** Pointers and slices *)

(** Locations of the store, and [*node] pointers: [None] is nil. *)
Abbreviation loc := nat.
Abbreviation ptr := (option nat).

(** A [[]*node]: the [elems] are the visible part (its length is [len]),
    the [spare] slots are the rest of the backing array up to [cap]. *)
Record slice := { elems : list ptr; spare : list ptr }.

Definition len (s : slice) : nat := length (elems s).
Definition cap (s : slice) : nat := (length (elems s) + length (spare s))%nat.

(** [make([]*node, n)] *)
Definition make (n : Z) : result slice :=
  if n <? 0 then Panic MakeOutOfRange
  else Ok {| elems := replicate (Z.to_nat n) None; spare := [] |}.

(** [s[i]] as a value. *)
Definition index (s : slice) (i : nat) : result ptr :=
  match elems s !! i with
  | Some p => Ok p
  | None => Panic IndexOutOfRange
  end.

(** [s[i] = p] *)
Definition assign (s : slice) (i : nat) (p : ptr) : result slice :=
  if decide (i < len s)%nat
  then Ok {| elems := <[i := p]> (elems s); spare := spare s |}
  else Panic IndexOutOfRange.

(** [s[:n]]: the same backing array with a new length. *)
Definition reslice (s : slice) (n : Z) : result slice :=
  if (0 <=? n) && (n <=? Z.of_nat (cap s))
  then Ok {| elems := take (Z.to_nat n) (elems s ++ spare s);
             spare := drop (Z.to_nat n) (elems s ++ spare s) |}
  else Panic SliceBoundsOutOfRange.

(** [copy(dst, src)] where [dst] is the window of [es] that starts at
    [off]: returns the array after the copy and the number of elements
    copied. *)
Definition copy_at (es : list ptr) (off : nat) (src : list ptr) : list ptr * nat :=
  let k := ((length es - off) `min` length src)%nat in
  (take off es ++ take k src ++ drop (off + k)%nat es, k).

Definition nilNodes : list ptr := replicate 16 None.

(** [for len(toClear) > 0 { toClear = toClear[copy(toClear, nilNodes):] }]:
    [toClear] is the window of [es] from [off] on.  Every round moves
    [off] forward, so [length es] rounds are enough. *)
Fixpoint clear_loop (rounds : nat) (es : list ptr) (off : nat) : list ptr :=
  match rounds with
  | O => es
  | S r =>
      if decide (off < length es)%nat
      then let '(es', k) := copy_at es off nilNodes in clear_loop r es' (off + k)%nat
      else es
  end.

Definition clear (s : slice) : slice :=
  {| elems := clear_loop (length (elems s)) (elems s) 0; spare := spare s |}.

(** ** Constants *)

Definition DefaultMaxLevel : Z := 32.
Definition DefaultP : Q := 1 # 4.
Definition DefaultFreeListSize : Z := 32.

(** ** The random source *)

(** [*rand.Rand] seeded from the clock: the sequence of the values its
    [Uint32] will return. *)
Definition Rand := nat → Z.

Definition Uint32 (r : Rand) : Z * Rand := (r O, λ n, r (S n)).

(** [float32(u & 0xFFFF) < DefaultP*0xFFFF].  The left side is an integer
    below 2^16 and the constant is 16383.75; both are exact in float32, so
    the comparison is the one of the rationals. *)
Definition draw_succeeds (u : Z) : bool :=
  negb (Qle_bool (DefaultP * inject_Z 65535) (inject_Z (Z.land u 65535))).

(** [randomLevel]: [lvl < maxLevel] is tested before a value is drawn.
    [lvl] goes up by one per round, so [maxLevel - 1] rounds are enough;
    [lvl + 1] stays below [maxLevel] and cannot wrap. *)
Fixpoint randomLevel_loop (rounds : nat) (maxLevel lvl : Z) (r : Rand) : Z * Rand :=
  match rounds with
  | O => (lvl, r)
  | S n =>
      if lvl <? maxLevel then
        let '(u, r') := Uint32 r in
        if draw_succeeds u then randomLevel_loop n maxLevel (wrap_int32 (lvl + 1)) r'
        else (lvl, r')
      else (lvl, r)
  end.

(** ** The Item interface *)

(** [Less a b] is [a.Less(b)] on two items, and [Less_nil a] is what
    [a.Less(nil)] does (the package's own [Int] panics there). *)
Class Item (T : Type) := {
  Less : T → T → bool;
  Less_nil : T → result bool
}.

Section SkipList.

Context {T : Type} `{!Item T}.

(** [a.Less(b)] on two interface values. *)
Definition call_Less (a b : option T) : result bool :=
  match a, b with
  | None, _ => Panic NilDereference
  | Some a, Some b => Ok (Less a b)
  | Some a, None => Less_nil a
  end.

(** ** Nodes and the store *)

Record node := { item : option T; forward : slice }.

Definition load (h : gmap loc node) (p : ptr) : result node :=
  match p with
  | None => Panic NilDereference
  | Some a => match h !! a with Some n => Ok n | None => Dangling end
  end.

Definition store (h : gmap loc node) (p : ptr) (n : node) : result (gmap loc node) :=
  match p with
  | None => Panic NilDereference
  | Some a => Ok (<[a := n]> h)
  end.

(** [&node{...}] *)
Definition alloc (h : gmap loc node) (n : node) : loc * gmap loc node :=
  let a := fresh (dom h) in (a, <[a := n]> h).

(** ** The free list *)

(** The visible part of [freelist []*node] and its capacity. *)
Record FreeList := { freelist : list ptr; fl_cap : nat }.

Definition NewFreeList (size : Z) : result FreeList :=
  if size <? 0 then Panic MakeOutOfRange
  else Ok {| freelist := []; fl_cap := Z.to_nat size |}.

Definition newNode (h : gmap loc node) (f : FreeList) (lvl : Z)
  : result (ptr * gmap loc node * FreeList) :=
  let index := Z.of_nat (length (freelist f)) - 1 in
  if index <? 0 then
    fw ← make lvl;
    let '(a, h') := alloc h {| item := None; forward := fw |} in
    Ok (Some a, h', f)
  else
    match freelist f !! Z.to_nat index with
    | None => Panic IndexOutOfRange
    | Some n =>
        let f' := {| freelist := take (Z.to_nat index) (freelist f); fl_cap := fl_cap f |} in
        nn ← load h n;
        fw ← (if Z.of_nat (cap (forward nn)) <? lvl then make lvl
              else reslice (forward nn) lvl);
        h' ← store h n {| item := item nn; forward := fw |};
        Ok (n, h', f')
    end.

Definition freeNode (h : gmap loc node) (f : FreeList) (n : ptr)
  : result (bool * gmap loc node * FreeList) :=
  if decide (length (freelist f) < fl_cap f)%nat then
    nn ← load h n;
    h' ← store h n {| item := None; forward := clear (forward nn) |};
    Ok (true, h', {| freelist := freelist f ++ [n]; fl_cap := fl_cap f |})
  else Ok (false, h, f).

(** ** The skip list *)

(** The struct behind [*SkipList].  Its fields [freelist] and [length]
    are [sl_freelist] and [sl_length] here, so that they do not hide the
    field of [FreeList] and the length of lists; the pool, which the list
    alone points at, is held by value. *)
Record SkipList := {
  header : ptr;
  maxLevel : Z;
  level : Z;
  sl_freelist : FreeList;
  sl_length : Z;
  random : Rand
}.

Definition NewWithLevel (maxLevel : Z) (seed : Rand)
  : result (gmap loc node * SkipList) :=
  if (maxLevel <? 1) || (DefaultMaxLevel <? maxLevel)
  then Panic (Explicit "maxLevel must be between 1 and DefaultMaxLevel")
  else
    fl ← NewFreeList DefaultFreeListSize;
    fw ← make maxLevel;
    let '(hd, h) := alloc ∅ {| item := None; forward := fw |} in
    Ok (h, {| header := Some hd; maxLevel := maxLevel; level := 1;
              sl_freelist := fl; sl_length := 0; random := seed |}).

Definition New (seed : Rand) : result (gmap loc node * SkipList) :=
  NewWithLevel DefaultMaxLevel seed.

(** [for y := x.forward[i]; y != nil && y.item.Less(key); y = x.forward[i] { x = y }]
    Every round reads one more node of the store, so a run of more than
    [size h] rounds visits a node twice and then never ends. *)
Fixpoint scan (rounds : nat) (h : gmap loc node) (x : ptr) (i : nat)
    (key : option T) : result ptr :=
  match rounds with
  | O => Diverge
  | S r =>
      xn ← load h x;
      y ← index (forward xn) i;
      match y with
      | None => Ok x
      | Some _ =>
          yn ← load h y;
          b ← call_Less (item yn) key;
          if b : bool then scan r h y i key else Ok x
      end
  end.

(** [for i := sl.level - 1; i >= 0; i-- { scan }]: [k] is [i + 1]. *)
Fixpoint search_loop (h : gmap loc node) (x : ptr) (k : nat)
    (key : option T) : result ptr :=
  match k with
  | O => Ok x
  | S i => x' ← scan (S (size h)) h x i key; search_loop h x' i key
  end.

(** [prev[i] = x] *)
Definition set_prev (prev : list ptr) (i : nat) (x : ptr) : result (list ptr) :=
  if decide (i < length prev)%nat then Ok (<[i := x]> prev)
  else Panic IndexOutOfRange.

Definition get_prev (prev : list ptr) (i : nat) : result ptr :=
  match prev !! i with
  | Some p => Ok p
  | None => Panic IndexOutOfRange
  end.

(** [staticAlloc[:sl.maxLevel]] *)
Definition new_prev (maxLevel : Z) : result (list ptr) :=
  if (0 <=? maxLevel) && (maxLevel <=? DefaultMaxLevel)
  then Ok (replicate (Z.to_nat maxLevel) None)
  else Panic SliceBoundsOutOfRange.

(** [for i := sl.level - 1; i >= 0; i-- { scan; prev[i] = x }] *)
Fixpoint prev_loop (h : gmap loc node) (x : ptr) (k : nat)
    (key : option T) (prev : list ptr) : result (ptr * list ptr) :=
  match k with
  | O => Ok (x, prev)
  | S i =>
      x' ← scan (S (size h)) h x i key;
      prev' ← set_prev prev i x';
      prev_loop h x' i key prev'
  end.

Definition Search (h : gmap loc node) (sl : SkipList) (key : option T)
  : result (option T) :=
  x ← search_loop h (header sl) (Z.to_nat (level sl)) key;
  xn ← load h x;
  x ← index (forward xn) 0;
  match x with
  | None => Ok None
  | Some _ =>
      xn ← load h x;
      b ← call_Less key (item xn);
      if negb b then Ok (item xn) else Ok None
  end.

Definition searchNode (h : gmap loc node) (sl : SkipList) (key : option T)
  : result ptr :=
  x ← search_loop h (header sl) (Z.to_nat (level sl)) key;
  xn ← load h x;
  index (forward xn) 0.

Definition randomLevel (sl : SkipList) : Z * Rand :=
  randomLevel_loop (Z.to_nat (maxLevel sl - 1)) (maxLevel sl) 1 (random sl).

(** [for i := sl.level; i < lvl; i++ { prev[i] = sl.header }]: [n] rounds
    from lane [i]. *)
Fixpoint raise_loop (prev : list ptr) (hd : ptr) (i n : nat) : result (list ptr) :=
  match n with
  | O => Ok prev
  | S n' => prev' ← set_prev prev i hd; raise_loop prev' hd (S i) n'
  end.

(** [for i := 0; i < lvl; i++ { x.forward[i], prev[i].forward[i] = prev[i].forward[i], x }]:
    the operands are evaluated first, then the two assignments run left to
    right. *)
Fixpoint splice_loop (h : gmap loc node) (x : ptr) (prev : list ptr)
    (i n : nat) : result (gmap loc node) :=
  match n with
  | O => Ok h
  | S n' =>
      xn ← load h x;
      p ← get_prev prev i;
      pn ← load h p;
      v ← index (forward pn) i;
      fx ← assign (forward xn) i v;
      h1 ← store h x {| item := item xn; forward := fx |};
      pn' ← load h1 p;
      fp ← assign (forward pn') i x;
      h2 ← store h1 p {| item := item pn'; forward := fp |};
      splice_loop h2 x prev (S i) n'
  end.

Definition Insert (h : gmap loc node) (sl : SkipList) (it : option T)
  : result (gmap loc node * SkipList) :=
  match it with
  | None => Panic (Explicit "nil item being added to SkipList")
  | Some _ =>
      prev ← new_prev (maxLevel sl);
      '(x, prev) ← prev_loop h (header sl) (Z.to_nat (level sl)) it prev;
      xn ← load h x;
      x ← index (forward xn) 0;
      upd ← match x with
            | None => Ok false
            | Some _ =>
                xn ← load h x;
                b ← call_Less it (item xn);
                Ok (negb b)
            end;
      if upd : bool then
        xn ← load h x;
        h' ← store h x {| item := it; forward := forward xn |};
        Ok (h', sl)
      else
        let '(lvl, rnd) := randomLevel sl in
        '(prev, level') ←
          (if level sl <? lvl then
             prev' ← raise_loop prev (header sl) (Z.to_nat (level sl))
                       (Z.to_nat (lvl - level sl));
             Ok (prev', lvl)
           else Ok (prev, level sl));
        '(x, h1, fl) ← newNode h (sl_freelist sl) lvl;
        xn ← load h1 x;
        h2 ← store h1 x {| item := it; forward := forward xn |};
        h3 ← splice_loop h2 x prev 0 (Z.to_nat lvl);
        Ok (h3, {| header := header sl; maxLevel := maxLevel sl; level := level';
                   sl_freelist := fl; sl_length := wrap_int (sl_length sl + 1);
                   random := rnd |})
  end.

(** [for i := 0; i < sl.level; i++ { if prev[i].forward[i] != x { break }; prev[i].forward[i] = x.forward[i] }] *)
Fixpoint unsplice_loop (h : gmap loc node) (x : ptr) (prev : list ptr)
    (i n : nat) : result (gmap loc node) :=
  match n with
  | O => Ok h
  | S n' =>
      p ← get_prev prev i;
      pn ← load h p;
      v ← index (forward pn) i;
      if decide (v = x) then
        xn ← load h x;
        w ← index (forward xn) i;
        fp ← assign (forward pn) i w;
        h' ← store h p {| item := item pn; forward := fp |};
        unsplice_loop h' x prev (S i) n'
      else Ok h
  end.

(** [for sl.level > 1 && sl.header.forward[sl.level-1] == nil { sl.level-- }]:
    at most [level - 1] rounds. *)
Fixpoint shrink_loop (rounds : nat) (h : gmap loc node) (hd : ptr) (lvl : Z)
  : result Z :=
  match rounds with
  | O => Ok lvl
  | S r =>
      if 1 <? lvl then
        hn ← load h hd;
        v ← index (forward hn) (Z.to_nat (lvl - 1));
        match v with
        | None => shrink_loop r h hd (wrap_int32 (lvl - 1))
        | Some _ => Ok lvl
        end
      else Ok lvl
  end.

Definition Delete (h : gmap loc node) (sl : SkipList) (it : option T)
  : result (bool * gmap loc node * SkipList) :=
  prev ← new_prev (maxLevel sl);
  '(x, prev) ← prev_loop h (header sl) (Z.to_nat (level sl)) it prev;
  xn ← load h x;
  x ← index (forward xn) 0;
  found ← match x with
          | None => Ok false
          | Some _ =>
              xn ← load h x;
              b ← call_Less it (item xn);
              Ok (negb b)
          end;
  if found : bool then
    h1 ← unsplice_loop h x prev 0 (Z.to_nat (level sl));
    level' ← shrink_loop (Z.to_nat (level sl - 1)) h1 (header sl) (level sl);
    '(_, h2, fl) ← freeNode h1 (sl_freelist sl) x;
    Ok (true, h2, {| header := header sl; maxLevel := maxLevel sl; level := level';
                     sl_freelist := fl; sl_length := wrap_int (sl_length sl - 1);
                     random := random sl |})
  else Ok (false, h, sl).

Definition Len (sl : SkipList) : Z := sl_length sl.

(** ** Iterators and ranges *)

(** The [sl] field of an iterator points at the one skip list of the
    state; the methods that use it take that list as an argument.  [it_x]
    is the field [x]. *)
Record Iterator := { it_x : ptr }.

Definition NewIterator (h : gmap loc node) (sl : SkipList) : result Iterator :=
  hn ← load h (header sl);
  x ← index (forward hn) 0;
  Ok {| it_x := x |}.

Definition Valid (it : Iterator) : bool :=
  match it_x it with Some _ => true | None => false end.

Definition Next (h : gmap loc node) (it : Iterator) : result Iterator :=
  xn ← load h (it_x it);
  x ← index (forward xn) 0;
  Ok {| it_x := x |}.

Definition Value (h : gmap loc node) (it : Iterator) : result (option T) :=
  xn ← load h (it_x it);
  Ok (item xn).

Definition MoveTo (h : gmap loc node) (sl : SkipList) (it : Iterator)
    (key : option T) : result Iterator :=
  x ← searchNode h sl key;
  Ok {| it_x := x |}.

(** [for ; it.Valid(); it.Next() { visit it.Value() }], the traversal of
    the package's examples and tests. *)
Fixpoint iterate_loop (rounds : nat) (h : gmap loc node) (it : Iterator)
  : result (list (option T)) :=
  match rounds with
  | O => Diverge
  | S r =>
      if Valid it then
        v ← Value h it;
        it' ← Next h it;
        vs ← iterate_loop r h it';
        Ok (v :: vs)
      else Ok []
  end.

Definition iterate (h : gmap loc node) (sl : SkipList) : result (list (option T)) :=
  it ← NewIterator h sl;
  iterate_loop (S (size h)) h it.

(** [k] calls of [it.Next()]. *)
Fixpoint Next_times (k : nat) (h : gmap loc node) (it : Iterator) : result Iterator :=
  match k with
  | O => Ok it
  | S k' => it' ← Next h it; Next_times k' h it'
  end.

(** The fields [begin] and [end] of a range; its [sl] is not read. *)
Record Range := { r_begin : ptr; r_end : ptr }.

Definition NewRange (h : gmap loc node) (sl : SkipList) (begin end_ : option T)
  : result Range :=
  hn ← load h (header sl);
  minNode ← index (forward hn) 0;
  empty ← match minNode with
          | None => Ok true
          | Some _ => call_Less end_ begin
          end;
  if empty : bool then Ok {| r_begin := None; r_end := None |}
  else
    beginNode ← searchNode h sl begin;
    beginNode ← match beginNode with
                | None =>
                    mn ← load h minNode;
                    b ← call_Less begin (item mn);
                    Ok (if b : bool then minNode else beginNode)
                | Some _ => Ok beginNode
                end;
    nend ← searchNode h sl end_;
    nend ← match nend with
           | None =>
               mn ← load h minNode;
               b ← call_Less end_ (item mn);
               Ok (if b : bool then minNode else nend)
           | Some _ =>
               nn ← load h nend;
               b ← call_Less end_ (item nn);
               if negb b then index (forward nn) 0 else Ok nend
           end;
    Ok {| r_begin := beginNode; r_end := nend |}.

(** [for x := r.begin; x != r.end; x = x.forward[0] { f(x.item) }]: the
    items handed to [f], in order. *)
Fixpoint ForEach_loop (rounds : nat) (h : gmap loc node) (x stop : ptr)
  : result (list (option T)) :=
  match rounds with
  | O => Diverge
  | S r =>
      if decide (x = stop) then Ok []
      else
        xn ← load h x;
        y ← index (forward xn) 0;
        vs ← ForEach_loop r h y stop;
        Ok (item xn :: vs)
  end.

Definition ForEach (h : gmap loc node) (r : Range) : result (list (option T)) :=
  ForEach_loop (S (size h)) h (r_begin r) (r_end r).

(** ** The abstract view of a state *)

(** A real node as the proofs see it: where it lives, the item it holds
    and the number of lanes it takes part in. *)
Record cell := Cell { c_loc : loc; c_item : T; c_lvl : nat }.

(** The forward pointer of the node at [a] in lane [i], if there is such a
    node and such a slot. *)
Definition fwd (h : gmap loc node) (a : loc) (i : nat) : option ptr :=
  h !! a ≫= λ n, elems (forward n) !! i.

(** The item of the node at [a] and the length of its forward slice. *)
Definition info (h : gmap loc node) (a : loc) : option (option T * nat) :=
  (λ n, (item n, len (forward n))) <$> h !! a.

Definition held (h : gmap loc node) (c : cell) : Prop :=
  info h (c_loc c) = Some (Some (c_item c), c_lvl c).

(** The cells that take part in lane [i]. *)
Definition lane (i : nat) (cs : list cell) : list cell :=
  filter (λ c, (i < c_lvl c)%nat) cs.

(** Lane [i] leads from the node at [a] through the cells [cs], in this
    order, and ends in nil. *)
Fixpoint chain (h : gmap loc node) (i : nat) (a : loc) (cs : list cell) : Prop :=
  match cs with
  | [] => fwd h a i = Some None
  | c :: cs' => fwd h a i = Some (Some (c_loc c)) ∧ chain h i (c_loc c) cs'
  end.

(** The location of the last of [cs], or [a] when there is none. *)
Definition lastloc (a : loc) (cs : list cell) : loc :=
  match last cs with Some c => c_loc c | None => a end.

(** The state [(h, sl)] is a skip list with header [hd] whose real nodes
    are [ns], from first to last, and whose pool holds the nodes at [fl]. *)
Record Shape (h : gmap loc node) (sl : SkipList) (hd : loc)
    (ns : list cell) (fl : list loc) : Prop := {
  sh_header : header sl = Some hd;
  sh_hd : info h hd = Some (None, Z.to_nat (maxLevel sl));
  sh_level : 1 ≤ level sl ≤ maxLevel sl;
  sh_max : maxLevel sl ≤ DefaultMaxLevel;
  sh_nodup : NoDup (hd :: (c_loc <$> ns) ++ fl);
  sh_held : Forall (held h) ns;
  sh_lvls : Forall (λ c, (1 ≤ c_lvl c ≤ Z.to_nat (level sl))%nat) ns;
  sh_chain : ∀ i, (i < Z.to_nat (maxLevel sl))%nat → chain h i hd (lane i ns);
  sh_top : 1 < level sl → Exists (λ c, c_lvl c = Z.to_nat (level sl)) ns;
  sh_length : sl_length sl = wrap_int (Z.of_nat (length ns));
  sh_free : freelist (sl_freelist sl) = Some <$> fl;
  sh_free_cap : fl_cap (sl_freelist sl) = Z.to_nat DefaultFreeListSize
                ∧ (length fl ≤ Z.to_nat DefaultFreeListSize)%nat;
  sh_free_dom : Forall (λ a, is_Some (h !! a)) fl
}.

(** Two items are equal under the ordering when neither is less than the
    other. *)
Definition eqv (a b : T) : Prop := Less a b = false ∧ Less b a = false.

(** Strictly ascending: every item is less than every later one. *)
Definition ascending (l : list T) : Prop :=
  StronglySorted (λ a b, Less a b = true) l.

(** The comparison contract of the items. *)
Class StrictWeak : Prop := {
  less_irrefl : ∀ a, Less a a = false;
  less_trans : ∀ a b c, Less a b = true → Less b c = true → Less a c = true;
  eqv_trans : ∀ a b c, eqv a b → eqv b c → eqv a c
}.

(** The states a program can build: a fresh list, then calls of [Insert]
    and [Delete] that return. *)
Inductive reachable : gmap loc node → SkipList → Prop :=
| reach_new m seed h sl :
    NewWithLevel m seed = Ok (h, sl) → reachable h sl
| reach_insert h sl it h' sl' :
    reachable h sl → Insert h sl it = Ok (h', sl') → reachable h' sl'
| reach_delete h sl it b h' sl' :
    reachable h sl → Delete h sl it = Ok (b, h', sl') → reachable h' sl'.

(** The items of lane [i], read off the store from the header on. *)
Fixpoint lane_loop (rounds : nat) (h : gmap loc node) (x : ptr) (i : nat)
  : result (list (option T)) :=
  match rounds with
  | O => Diverge
  | S r =>
      xn ← load h x;
      y ← index (forward xn) i;
      match y with
      | None => Ok []
      | Some _ =>
          yn ← load h y;
          vs ← lane_loop r h y i;
          Ok (item yn :: vs)
      end
  end.

Definition lane_items (h : gmap loc node) (sl : SkipList) (i : nat)
  : result (list (option T)) :=
  lane_loop (S (size h)) h (header sl) i.

(** [sl.header.forward[i]] *)
Definition header_forward (h : gmap loc node) (sl : SkipList) (i : nat)
  : result ptr :=
  hn ← load h (header sl);
  index (forward hn) i.

(** The items of a range: not below [lo] and not above [hi]. *)
Definition between (lo hi : T) (v : T) : Prop :=
  Less v lo = false ∧ Less hi v = false.

#[global] Instance between_dec lo hi v : Decision (between lo hi v).
Proof. unfold between. apply _. Defined.

(** ** Notions of the proofs *)

(** The run of a lane stops in front of [cs]: there is no next node, or
    its item is not less than the key. *)
Definition stops (key : T) (cs : list cell) : Prop :=
  match cs with
  | [] => True
  | c :: _ => Less (c_item c) key = false
  end.

(** The node [n] after [n.forward[i] = v]. *)
Definition with_slot (n : node) (i : nat) (v : ptr) : node :=
  {| item := item n;
     forward := {| elems := <[i := v]> (elems (forward n)); spare := spare (forward n) |} |}.

(** The branch of [Insert] that links a new node, from the draw of its
    level on. *)
Definition insert_new (h : gmap loc node) (sl : SkipList) (it : option T)
    (prev : list ptr) : result (gmap loc node * SkipList) :=
  let '(lvl, rnd) := randomLevel sl in
  '(prev, level') ←
    (if level sl <? lvl then
       prev' ← raise_loop prev (header sl) (Z.to_nat (level sl))
                 (Z.to_nat (lvl - level sl));
       Ok (prev', lvl)
     else Ok (prev, level sl));
  '(x, h1, fl) ← newNode h (sl_freelist sl) lvl;
  xn ← load h1 x;
  h2 ← store h1 x {| item := it; forward := forward xn |};
  h3 ← splice_loop h2 x prev 0 (Z.to_nat lvl);
  Ok (h3, {| header := header sl; maxLevel := maxLevel sl; level := level';
             sl_freelist := fl; sl_length := wrap_int (sl_length sl + 1);
             random := rnd |}).

(** The branch of [Delete] that unlinks the node it found. *)
Definition delete_found (h : gmap loc node) (sl : SkipList) (x : ptr)
    (prev : list ptr) : result (bool * gmap loc node * SkipList) :=
  h1 ← unsplice_loop h x prev 0 (Z.to_nat (level sl));
  level' ← shrink_loop (Z.to_nat (level sl - 1)) h1 (header sl) (level sl);
  '(_, h2, fl) ← freeNode h1 (sl_freelist sl) x;
  Ok (true, h2, {| header := header sl; maxLevel := maxLevel sl; level := level';
                   sl_freelist := fl; sl_length := wrap_int (sl_length sl - 1);
                   random := random sl |}).

Definition cells_sorted (ns : list cell) : Prop :=
  StronglySorted (λ c1 c2, Less (c_item c1) (c_item c2) = true) ns.

(** The items of a run of cells, as the traversals report them. *)
Definition items_of (cs : list cell) : list T := c_item <$> cs.

(** The node at [a] holds no item and every slot of its forward slice is
    nil, as [freeNode] leaves the nodes it puts into the pool. *)
Definition cleared (h : gmap loc node) (a : loc) : Prop :=
  ∃ n, h !! a = Some n ∧ item n = None ∧ Forall (λ p, p = None) (elems (forward n)).

#[global] Instance eqv_dec (a b : T) : Decision (eqv a b).
Proof. unfold eqv. apply _. Defined.

(** A list made of items below the key, then items equal to it, then
    items above it. *)
Record parts (key : T) (A E B : list T) : Prop := {
  pt_below : Forall (λ v, Less v key = true) A;
  pt_equal : Forall (λ v, eqv v key) E;
  pt_above : Forall (λ v, Less key v = true) B
}.

(** The cell that [Search], [Insert] and [Delete] look at after the
    descent, when its item is equal to the key, and the cells behind it. *)
Definition hit (key : T) (lb : list cell) : list cell :=
  match lb with
  | c :: _ => if Less key (c_item c) then [] else [c]
  | [] => []
  end.

Definition after_hit (key : T) (lb : list cell) : list cell :=
  match lb with
  | c :: lb0 => if Less key (c_item c) then lb else lb0
  | [] => []
  end.

(** ** The list of items as the calls change it *)

(** The three calls on a strictly ascending list of items: the answer of
    a search, the list after an insertion, and the answer of a deletion
    with the list after it. *)
Definition list_Search (key : T) (l : list T) : option T :=
  head (filter (λ v, eqv v key) l).

Definition list_Insert (it : T) (l : list T) : list T :=
  filter (λ v, Less v it = true) l ++ it :: filter (λ v, Less it v = true) l.

Definition list_Delete (key : T) (l : list T) : bool * list T :=
  (bool_decide (is_Some (list_Search key l)), filter (λ v, ¬ eqv v key) l).

(** A call of a program, and what the caller sees of it. *)
Inductive call :=
| CallInsert (it : T)
| CallDelete (key : T)
| CallSearch (key : T).

Inductive seen :=
| SeenInsert
| SeenDelete (found : bool)
| SeenSearch (v : option T).

Definition perform (h : gmap loc node) (sl : SkipList) (c : call)
  : result (seen * gmap loc node * SkipList) :=
  match c with
  | CallInsert it => '(h', sl') ← Insert h sl (Some it); Ok (SeenInsert, h', sl')
  | CallDelete key => '(r, h', sl') ← Delete h sl (Some key); Ok (SeenDelete r, h', sl')
  | CallSearch key => v ← Search h sl (Some key); Ok (SeenSearch v, h, sl)
  end.

Fixpoint perform_all (h : gmap loc node) (sl : SkipList) (cs : list call)
  : result (list seen * gmap loc node * SkipList) :=
  match cs with
  | [] => Ok ([], h, sl)
  | c :: cs' =>
      '(o, h1, sl1) ← perform h sl c;
      '(os, h2, sl2) ← perform_all h1 sl1 cs';
      Ok (o :: os, h2, sl2)
  end.

Definition list_perform (c : call) (l : list T) : seen * list T :=
  match c with
  | CallInsert it => (SeenInsert, list_Insert it l)
  | CallDelete key => (SeenDelete (list_Delete key l).1, (list_Delete key l).2)
  | CallSearch key => (SeenSearch (list_Search key l), l)
  end.

Fixpoint list_perform_all (cs : list call) (l : list T) : list seen * list T :=
  match cs with
  | [] => ([], l)
  | c :: cs' =>
      let '(o, l1) := list_perform c l in
      let '(os, l2) := list_perform_all cs' l1 in
      (o :: os, l2)
  end.

End SkipList.

Arguments node T : clear implicits.
Arguments cell T : clear implicits.
Arguments call T : clear implicits.
Arguments seen T : clear implicits.
Arguments StrictWeak T {_}.

(** The number of draws that succeed one after the other at the start of
    the first [n] draws of [r]. *)
Fixpoint leading (n : nat) (r : Rand) : nat :=
  match n with
  | O => O
  | S n' => if draw_succeeds (r O) then S (leading n' (λ k, r (S k))) else O
  end.

(** ** The fixed-level variant (skiplist.go) *)

Module Fixed.

Definition kMaxLevel : Z := 12.
Definition kP : Q := 1 # 4.

(** The values [rand.Float64] will return, each in [0, 1). *)
Definition Float64 (r : nat → Q) : Q * (nat → Q) := (r O, λ n, r (S n)).

(** [rand.Float64() < kP] *)
Definition draw_succeeds (u : Q) : bool := negb (Qle_bool kP u).

Fixpoint randomLevel_loop (rounds : nat) (lvl : Z) (r : nat → Q) : Z * (nat → Q) :=
  match rounds with
  | O => (lvl, r)
  | S n =>
      if lvl <? kMaxLevel then
        let '(u, r') := Float64 r in
        if draw_succeeds u then randomLevel_loop n (wrap_int (lvl + 1)) r'
        else (lvl, r')
      else (lvl, r)
  end.

Definition randomLevel (r : nat → Q) : Z * (nat → Q) :=
  randomLevel_loop (Z.to_nat (kMaxLevel - 1)) 1 r.

Fixpoint leading (n : nat) (r : nat → Q) : nat :=
  match n with
  | O => O
  | S n' => if draw_succeeds (r O) then S (leading n' (λ k, r (S k))) else O
  end.

(** [freeNode] clears the node before it looks at the pool. *)
Definition freeNode {T : Type} (h : gmap loc (node T)) (f : FreeList) (n : ptr)
  : result (bool * gmap loc (node T) * FreeList) :=
  nn ← load h n;
  h' ← store h n {| item := None; forward := clear (forward nn) |};
  if decide (length (freelist f) < fl_cap f)%nat then
    Ok (true, h', {| freelist := freelist f ++ [n]; fl_cap := fl_cap f |})
  else Ok (false, h', f).

(** The struct behind [*SkipList]: the maximum level is the constant
    [kMaxLevel] and the levels are drawn from the global source of
    [math/rand].  [newNode], [NewFreeList] and the methods of [Iterator]
    read as in the other variant and are taken from there. *)
Record SkipList := {
  header : ptr;
  level : Z;
  sl_freelist : FreeList;
  sl_length : Z
}.

Section List.

Context {T : Type} `{!Item T}.

Definition New : result (gmap loc (node T) * SkipList) :=
  fl ← NewFreeList DefaultFreeListSize;
  fw ← make kMaxLevel;
  let '(hd, h) := alloc ∅ {| item := None; forward := fw |} in
  Ok (h, {| header := Some hd; level := 1; sl_freelist := fl; sl_length := 0 |}).

(** [for x.forward[i] != nil && x.forward[i].item.Less(key) { x = x.forward[i] }]:
    the slot is read for the test, for the comparison and for the step. *)
Fixpoint scan (rounds : nat) (h : gmap loc (node T)) (x : ptr) (i : nat)
    (key : option T) : result ptr :=
  match rounds with
  | O => Diverge
  | S r =>
      xn ← load h x;
      y ← index (forward xn) i;
      match y with
      | None => Ok x
      | Some _ =>
          xn ← load h x;
          y ← index (forward xn) i;
          yn ← load h y;
          b ← call_Less (item yn) key;
          if b : bool then
            xn ← load h x;
            y ← index (forward xn) i;
            scan r h y i key
          else Ok x
      end
  end.

(** [for i := sl.level - 1; i >= 0; i-- { scan }]: [k] is [i + 1]. *)
Fixpoint search_loop (h : gmap loc (node T)) (x : ptr) (k : nat)
    (key : option T) : result ptr :=
  match k with
  | O => Ok x
  | S i => x' ← scan (S (size h)) h x i key; search_loop h x' i key
  end.

(** [for i := sl.level - 1; i >= 0; i-- { scan; prev[i] = x }] *)
Fixpoint prev_loop (h : gmap loc (node T)) (x : ptr) (k : nat)
    (key : option T) (prev : list ptr) : result (ptr * list ptr) :=
  match k with
  | O => Ok (x, prev)
  | S i =>
      x' ← scan (S (size h)) h x i key;
      prev' ← set_prev prev i x';
      prev_loop h x' i key prev'
  end.

Definition Search (h : gmap loc (node T)) (sl : SkipList) (key : option T)
  : result (option T) :=
  x ← search_loop h (header sl) (Z.to_nat (level sl)) key;
  xn ← load h x;
  x ← index (forward xn) 0;
  match x with
  | None => Ok None
  | Some _ =>
      xn ← load h x;
      b ← call_Less key (item xn);
      if negb b then Ok (item xn) else Ok None
  end.

(** [for i := 0; i < lvl; i++ { x.forward[i] = prev[i].forward[i]; prev[i].forward[i] = x }] *)
Fixpoint splice_loop (h : gmap loc (node T)) (x : ptr) (prev : list ptr)
    (i n : nat) : result (gmap loc (node T)) :=
  match n with
  | O => Ok h
  | S n' =>
      xn ← load h x;
      p ← get_prev prev i;
      pn ← load h p;
      v ← index (forward pn) i;
      fx ← assign (forward xn) i v;
      h1 ← store h x {| item := item xn; forward := fx |};
      p ← get_prev prev i;
      pn ← load h1 p;
      fp ← assign (forward pn) i x;
      h2 ← store h1 p {| item := item pn; forward := fp |};
      splice_loop h2 x prev (S i) n'
  end.

(** [Insert] with the values [r] that [rand.Float64] is going to return;
    the values left over are returned with the new state. *)
Definition Insert (h : gmap loc (node T)) (sl : SkipList) (r : nat → Q)
    (it : option T) : result (gmap loc (node T) * SkipList * (nat → Q)) :=
  match it with
  | None => Panic (Explicit "nil item being added to SkipList")
  | Some _ =>
      let prev := replicate (Z.to_nat kMaxLevel) None in
      '(x, prev) ← prev_loop h (header sl) (Z.to_nat (level sl)) it prev;
      xn ← load h x;
      x ← index (forward xn) 0;
      upd ← match x with
            | None => Ok false
            | Some _ =>
                xn ← load h x;
                b ← call_Less it (item xn);
                Ok (negb b)
            end;
      if upd : bool then
        xn ← load h x;
        h' ← store h x {| item := it; forward := forward xn |};
        Ok (h', sl, r)
      else
        let '(lvl, r') := randomLevel r in
        '(prev, level') ←
          (if level sl <? lvl then
             prev' ← raise_loop prev (header sl) (Z.to_nat (level sl))
                       (Z.to_nat (lvl - level sl));
             Ok (prev', lvl)
           else Ok (prev, level sl));
        '(x, h1, fl) ← newNode h (sl_freelist sl) lvl;
        xn ← load h1 x;
        h2 ← store h1 x {| item := it; forward := forward xn |};
        h3 ← splice_loop h2 x prev 0 (Z.to_nat lvl);
        Ok (h3, {| header := header sl; level := level'; sl_freelist := fl;
                   sl_length := wrap_int (sl_length sl + 1) |}, r')
  end.

(** [for sl.level > 1 && sl.header.forward[sl.level-1] == nil { sl.level-- }]
    on an [int] level. *)
Fixpoint shrink_loop (rounds : nat) (h : gmap loc (node T)) (hd : ptr) (lvl : Z)
  : result Z :=
  match rounds with
  | O => Ok lvl
  | S r =>
      if 1 <? lvl then
        hn ← load h hd;
        v ← index (forward hn) (Z.to_nat (lvl - 1));
        match v with
        | None => shrink_loop r h hd (wrap_int (lvl - 1))
        | Some _ => Ok lvl
        end
      else Ok lvl
  end.

Definition Delete (h : gmap loc (node T)) (sl : SkipList) (it : option T)
  : result (bool * gmap loc (node T) * SkipList) :=
  let prev := replicate (Z.to_nat kMaxLevel) None in
  '(x, prev) ← prev_loop h (header sl) (Z.to_nat (level sl)) it prev;
  xn ← load h x;
  x ← index (forward xn) 0;
  found ← match x with
          | None => Ok false
          | Some _ =>
              xn ← load h x;
              b ← call_Less it (item xn);
              Ok (negb b)
          end;
  if found : bool then
    h1 ← unsplice_loop h x prev 0 (Z.to_nat (level sl));
    level' ← shrink_loop (Z.to_nat (level sl - 1)) h1 (header sl) (level sl);
    '(_, h2, fl) ← freeNode h1 (sl_freelist sl) x;
    Ok (true, h2, {| header := header sl; level := level'; sl_freelist := fl;
                     sl_length := wrap_int (sl_length sl - 1) |})
  else Ok (false, h, sl).

Definition Len (sl : SkipList) : Z := sl_length sl.

Definition NewIterator (h : gmap loc (node T)) (sl : SkipList) : result Iterator :=
  hn ← load h (header sl);
  x ← index (forward hn) 0;
  Ok {| it_x := x |}.

(** [for it := sl.NewIterator(); it.Valid(); it.Next() { visit it.Value() }] *)
Definition iterate (h : gmap loc (node T)) (sl : SkipList) : result (list (option T)) :=
  it ← NewIterator h sl;
  iterate_loop (S (size h)) h it.

(** The states a program can build with this variant.  The source of
    [math/rand] is shared with the rest of the program, so every [Insert]
    may find it in another state. *)
Inductive reachable : gmap loc (node T) → SkipList → Prop :=
| reach_new h sl :
    New = Ok (h, sl) → reachable h sl
| reach_insert h sl r it h' sl' r' :
    reachable h sl → Insert h sl r it = Ok (h', sl', r') → reachable h' sl'
| reach_delete h sl it b h' sl' :
    reachable h sl → Delete h sl it = Ok (b, h', sl') → reachable h' sl'.

End List.

End Fixed.

(** The list of the fixed-level variant as a list of the other variant:
    with the maximum level [kMaxLevel] and a source of its own.  *)
Definition Fixed_canonical (sl : Fixed.SkipList) (seed : Rand) : SkipList :=
  {| header := Fixed.header sl; maxLevel := Fixed.kMaxLevel; level := Fixed.level sl;
     sl_freelist := Fixed.sl_freelist sl; sl_length := Fixed.sl_length sl;
     random := seed |}.

Definition Fixed_forget (sl : SkipList) : Fixed.SkipList :=
  {| Fixed.header := header sl; Fixed.level := level sl;
     Fixed.sl_freelist := sl_freelist sl; Fixed.sl_length := sl_length sl |}.

(** A source of [Uint32] values whose draws succeed where those of the
    [Float64] values [r] do. *)
Definition Fixed_draws (r : nat → Q) : Rand :=
  λ n, if Fixed.draw_succeeds (r n) then 0 else 65535.

(** ** The package's own item type *)

(** [type Int int] with [a.Less(b) = a < b.(Int)]; the type assertion
    panics on nil. *)
#[global] Instance Int : Item Z := {|
  Less := Z.ltb;
  Less_nil := λ _, Panic TypeAssertion
|}.

(** ** Lists of [Int] to run the operations on *)

Definition state : Type := gmap loc (node Z) * SkipList.

Definition nowhere : state :=
  (∅, {| header := None; maxLevel := 0; level := 0;
         sl_freelist := {| freelist := []; fl_cap := 0 |};
         sl_length := 0; random := λ _, 0 |}).

Definition get (r : result state) : state :=
  match r with Ok s => s | _ => nowhere end.

(** A source whose first draw fails, whose next succeeds once, and so on. *)
Definition seed : Rand :=
  λ n, default 40000 ([40000; 0; 40000; 0; 0; 40000] !! n).

(** The fresh list, then 2, 1 and 3 inserted, then 2 deleted. *)
Definition s0 : state := get (New seed).
Definition s1 : state := get (Insert s0.1 s0.2 (Some 2)).
Definition s2 : state := get (Insert s1.1 s1.2 (Some 1)).
Definition s3 : state := get (Insert s2.1 s2.2 (Some 3)).
Definition s4 : state :=
  get ('(_, h, sl) ← Delete s3.1 s3.2 (Some 2); Ok (h, sl)).

(** The scenario of the package's example test: 0..9 inserted, 4 and 100
    deleted, 5 and 100 inserted. *)
Fixpoint insert_all (l : list Z) (s : state) : state :=
  match l with
  | [] => s
  | v :: l' => insert_all l' (get (Insert s.1 s.2 (Some v)))
  end.

Definition e0 : state := insert_all [0; 1; 2; 3; 4; 5; 6; 7; 8; 9] (get (New seed)).
Definition e1 : state := get ('(_, h, sl) ← Delete e0.1 e0.2 (Some 4); Ok (h, sl)).
Definition e2 : state := get ('(_, h, sl) ← Delete e1.1 e1.2 (Some 100); Ok (h, sl)).
Definition e3 : state := insert_all [5; 100] e2.

(** 5 inserted after 2 was deleted. *)
Definition s5 : state := get (Insert s4.1 s4.2 (Some 5)).

(** The items of [s3] once more, in a list of four lanes, from another
    source and in another order. *)
Definition seed4 : Rand :=
  λ n, default 0 ([0; 0; 40000; 40000; 0; 40000] !! n).

Definition t0 : state := get (NewWithLevel 4 seed4).
Definition t1 : state := get (Insert t0.1 t0.2 (Some 3)).
Definition t2 : state := get (Insert t1.1 t1.2 (Some 1)).
Definition t3 : state := get (Insert t2.1 t2.2 (Some 2)).

(** The same items in a list of the fixed-level variant, with the values
    that [rand.Float64] returns while they are inserted. *)
Definition fstate : Type := gmap loc (node Z) * Fixed.SkipList * (nat → Q).

Definition floats : nat → Q :=
  λ n, default (1 # 2) ([1 # 2; 1 # 8; 3 # 4; 1 # 8; 1 # 8; 9 # 10] !! n).

Definition fnowhere : fstate :=
  (∅, {| Fixed.header := None; Fixed.level := 0;
         Fixed.sl_freelist := {| freelist := []; fl_cap := 0 |};
         Fixed.sl_length := 0 |}, λ _, 0%Q).

Definition fget (r : result fstate) : fstate :=
  match r with Ok s => s | _ => fnowhere end.

Definition f0 : fstate := fget ('(h, sl) ← Fixed.New; Ok (h, sl, floats)).
Definition f1 : fstate := fget (Fixed.Insert f0.1.1 f0.1.2 f0.2 (Some 2)).
Definition f2 : fstate := fget (Fixed.Insert f1.1.1 f1.1.2 f1.2 (Some 1)).
Definition f3 : fstate := fget (Fixed.Insert f2.1.1 f2.1.2 f2.2 (Some 3)).

(** * Proofs *)

(** ** Outcomes *)

Lemma bind_Ok {A B} (a : A) (f : A → result B) : (Ok a ≫= f) = f a.
Proof. reflexivity. Qed.

Lemma bind_Ok_inv {A B} (m : result A) (f : A → result B) (b : B) :
  m ≫= f = Ok b → ∃ a, m = Ok a ∧ f a = Ok b.
Proof. destruct m; simpl; try discriminate. eauto. Qed.

(** ** Machine integers *)

Lemma wrap_int_small z : - 2 ^ 63 ≤ z < 2 ^ 63 → wrap_int z = z.
Proof. intros Hz. unfold wrap_int. rewrite Z.mod_small; lia. Qed.

Lemma wrap_int32_small z : - 2 ^ 31 ≤ z < 2 ^ 31 → wrap_int32 z = z.
Proof. intros Hz. unfold wrap_int32. rewrite Z.mod_small; lia. Qed.

Lemma wrap_int_add z k : wrap_int (wrap_int z + k) = wrap_int (z + k).
Proof.
  unfold wrap_int.
  replace ((z + 2 ^ 63) mod 2 ^ 64 - 2 ^ 63 + k + 2 ^ 63)
    with ((z + 2 ^ 63) mod 2 ^ 64 + k) by lia.
  rewrite Zplus_mod_idemp_l. f_equal. f_equal. lia.
Qed.

(** ** Slices *)

Lemma make_Ok n : 0 ≤ n → make n = Ok {| elems := replicate (Z.to_nat n) None; spare := [] |}.
Proof. intros Hn. unfold make. destruct (Z.ltb_spec n 0); [lia | done]. Qed.

Lemma index_Ok s i p : elems s !! i = Some p → index s i = Ok p.
Proof. intros E. unfold index. by rewrite E. Qed.

Lemma index_Ok_inv s i p : index s i = Ok p → elems s !! i = Some p.
Proof. unfold index. destruct (elems s !! i); [congruence | discriminate]. Qed.

Lemma assign_Ok s i p :
  (i < len s)%nat →
  assign s i p = Ok {| elems := <[i := p]> (elems s); spare := spare s |}.
Proof. intros Hi. unfold assign. by rewrite decide_True. Qed.

Lemma copy_at_nil es off :
  (off < length es)%nat →
  copy_at es off nilNodes
  = (take off es ++ replicate ((length es - off) `min` 16) None
       ++ drop (off + (length es - off) `min` 16) es,
     ((length es - off) `min` 16)%nat).
Proof.
  intros Hoff. unfold copy_at, nilNodes. rewrite length_replicate.
  f_equal. f_equal. f_equal. rewrite take_replicate. f_equal. lia.
Qed.

Lemma clear_loop_spec rounds es off :
  (off ≤ length es)%nat → (length es ≤ off + rounds)%nat →
  take off es = replicate off None →
  clear_loop rounds es off = replicate (length es) None.
Proof.
  revert es off. induction rounds as [|r IH]; intros es off Hle Hr Hpre; cbn [clear_loop].
  - assert (off = length es) as -> by lia. by rewrite firstn_all in Hpre.
  - case_decide as Hlt.
    + rewrite copy_at_nil by done.
      set (k := ((length es - off) `min` 16)%nat).
      assert (1 ≤ k ∧ off + k ≤ length es)%nat as [Hk1 Hk2] by (subst k; lia).
      set (es' := take off es ++ replicate k None ++ drop (off + k) es).
      assert (length es' = length es) as Hlen.
      { subst es'. rewrite !length_app, length_take, length_replicate, length_drop. lia. }
      rewrite <- Hlen. apply IH; [lia | lia |].
      subst es'. rewrite Hpre, app_assoc, <- replicate_add.
      rewrite take_app_length'; [done | by rewrite length_replicate].
    + assert (off = length es) as -> by lia. by rewrite firstn_all in Hpre.
Qed.

Lemma clear_elems s : elems (clear s) = replicate (len s) None.
Proof.
  unfold clear, len; simpl. apply clear_loop_spec; [lia | lia | done].
Qed.

Lemma clear_len s : len (clear s) = len s.
Proof. unfold len at 1. by rewrite clear_elems, length_replicate. Qed.

Section Chains.

Context {T : Type} `{!Item T}.
Implicit Types (h : gmap loc (node T)) (c : cell T) (cs ns : list (cell T)).
Implicit Types (a x : loc) (i : nat).

(** ** Reading the store *)

Lemma load_Ok h a n : h !! a = Some n → load h (Some a) = Ok n.
Proof. intros E. unfold load. by rewrite E. Qed.

Lemma fwd_Some h a i v :
  fwd h a i = Some v ↔ ∃ n, h !! a = Some n ∧ elems (forward n) !! i = Some v.
Proof.
  unfold fwd. destruct (h !! a) as [n|]; simpl.
  - split; [eauto | by intros (? & [= <-] & ?)].
  - split; [done | by intros (? & ? & ?)].
Qed.

Lemma fwd_insert_ne h a b i n : a ≠ b → fwd (<[a := n]> h) b i = fwd h b i.
Proof. intros Hne. unfold fwd. by rewrite lookup_insert_ne. Qed.

Lemma fwd_insert_eq h a i n : fwd (<[a := n]> h) a i = elems (forward n) !! i.
Proof. unfold fwd. by rewrite lookup_insert_eq. Qed.

Lemma info_Some h a it l :
  info h a = Some (it, l) ↔ ∃ n, h !! a = Some n ∧ item n = it ∧ len (forward n) = l.
Proof.
  unfold info. destruct (h !! a) as [n|]; simpl.
  - split; [intros [= <- <-]; eauto | by intros (? & [= <-] & <- & <-)].
  - split; [done | by intros (? & ? & ?)].
Qed.

Lemma info_is_Some h a : is_Some (info h a) ↔ is_Some (h !! a).
Proof. unfold info. by rewrite fmap_is_Some. Qed.

Lemma info_insert_ne h a b n : a ≠ b → info (<[a := n]> h) b = info h b.
Proof. intros Hne. unfold info. by rewrite lookup_insert_ne. Qed.

Lemma info_insert_eq h a n : info (<[a := n]> h) a = Some (item n, len (forward n)).
Proof. unfold info. by rewrite lookup_insert_eq. Qed.

Lemma held_ext h h' c : info h' (c_loc c) = info h (c_loc c) → held h c → held h' c.
Proof. unfold held. by intros ->. Qed.

(** ** The last location of a run of cells *)

Lemma lastloc_nil a : lastloc a ([] : list (cell T)) = a.
Proof. done. Qed.

Lemma lastloc_cons a c cs : lastloc a (c :: cs) = lastloc (c_loc c) cs.
Proof.
  unfold lastloc. destruct cs as [|c' cs]; [done |].
  rewrite last_cons_cons. destruct (last (c' :: cs)) eqn:E; [done |].
  by apply last_None in E.
Qed.

Lemma lastloc_app a cs1 cs2 : lastloc a (cs1 ++ cs2) = lastloc (lastloc a cs1) cs2.
Proof.
  revert a. induction cs1 as [|c cs1 IH]; intros a; [done |].
  rewrite <- app_comm_cons, !lastloc_cons. apply IH.
Qed.

Lemma lastloc_snoc a cs c : lastloc a (cs ++ [c]) = c_loc c.
Proof. by rewrite lastloc_app. Qed.

Lemma lastloc_last a cs c : last cs = Some c → lastloc a cs = c_loc c.
Proof. intros E. unfold lastloc. by rewrite E. Qed.

Lemma lastloc_elem a cs : lastloc a cs = a ∨ lastloc a cs ∈ c_loc <$> cs.
Proof.
  unfold lastloc. destruct (last cs) as [c|] eqn:E; [right | by left].
  apply list_elem_of_fmap. exists c. split; [done |].
  apply last_Some in E as [l' ->]. apply elem_of_app. right. by left.
Qed.

(** ** Lanes *)

Lemma lane_app i cs1 cs2 : lane i (cs1 ++ cs2) = lane i cs1 ++ lane i cs2.
Proof. apply filter_app. Qed.

Lemma lane_cons_in i c cs : (i < c_lvl c)%nat → lane i (c :: cs) = c :: lane i cs.
Proof. intros Hi. unfold lane. by rewrite filter_cons_True. Qed.

Lemma lane_cons_out i c cs : ¬ (i < c_lvl c)%nat → lane i (c :: cs) = lane i cs.
Proof. intros Hi. unfold lane. by rewrite filter_cons_False. Qed.

Lemma lane_elem i c cs : c ∈ lane i cs ↔ c ∈ cs ∧ (i < c_lvl c)%nat.
Proof. unfold lane. rewrite list_elem_of_filter. tauto. Qed.

Lemma lane_all i cs : Forall (λ c, (i < c_lvl c)%nat) cs → lane i cs = cs.
Proof.
  induction 1 as [|c cs Hc _ IH]; [done |].
  by rewrite lane_cons_in, IH.
Qed.

Lemma lane_none i cs : Forall (λ c, ¬ (i < c_lvl c)%nat) cs → lane i cs = [].
Proof.
  induction 1 as [|c cs Hc _ IH]; [done |].
  by rewrite lane_cons_out.
Qed.

Lemma lane_nil_inv i cs : lane i cs = [] → Forall (λ c, (c_lvl c ≤ i)%nat) cs.
Proof.
  induction cs as [|c cs IH]; intros E; [constructor |].
  destruct (decide (i < c_lvl c)%nat) as [Hi|Hi].
  - by rewrite lane_cons_in in E.
  - rewrite lane_cons_out in E by done. constructor; [lia | auto].
Qed.

Lemma lane_sublist i cs : lane i cs `sublist_of` cs.
Proof. apply sublist_filter. Qed.

Lemma lane_length i cs : (length (lane i cs) ≤ length cs)%nat.
Proof. apply length_filter. Qed.

(** A cell of a higher lane is in every lower one. *)
Lemma lane_lane i j cs : (j ≤ i)%nat → lane i (lane j cs) = lane i cs.
Proof.
  intros Hji. induction cs as [|c cs IH]; [done |].
  destruct (decide (j < c_lvl c)%nat) as [Hj|Hj].
  - rewrite (lane_cons_in j) by done.
    destruct (decide (i < c_lvl c)%nat) as [Hi|Hi].
    + by rewrite !lane_cons_in, IH.
    + by rewrite !(lane_cons_out i).
  - rewrite (lane_cons_out j), (lane_cons_out i) by lia. done.
Qed.

Lemma last_lane i cs c :
  last cs = Some c → (i < c_lvl c)%nat → last (lane i cs) = Some c.
Proof.
  intros E Hi. apply last_Some in E as [l' ->].
  rewrite lane_app, lane_cons_in by done. apply last_snoc.
Qed.

Lemma lastloc_lane a i cs :
  (∀ c, last cs = Some c → (i < c_lvl c)%nat) →
  lastloc a (lane i cs) = lastloc a cs.
Proof.
  intros Hl. unfold lastloc at 2. destruct (last cs) as [c|] eqn:E.
  - apply lastloc_last, last_lane; auto.
  - apply last_None in E as ->. done.
Qed.

(** A split of a lane comes from a split of the cells, and the left part
    can be taken to end in a cell of the lane. *)
Lemma lane_split i cs m' r' :
  lane i cs = m' ++ r' →
  ∃ m r, cs = m ++ r ∧ lane i m = m' ∧ lane i r = r'
         ∧ (∀ c, last m = Some c → (i < c_lvl c)%nat).
Proof.
  revert m'. induction cs as [|c cs IH]; intros m' E.
  - symmetry in E. apply app_eq_nil in E as [-> ->]. by exists [], [].
  - destruct (decide (i < c_lvl c)%nat) as [Hi|Hi].
    + rewrite lane_cons_in in E by done.
      destruct m' as [|c' m'].
      * exists [], (c :: cs). simpl in E. subst r'.
        split_and!; [done | done | by rewrite lane_cons_in | done].
      * injection E as <- E. destruct (IH _ E) as (m & r & -> & Hm & Hr & Hl).
        exists (c :: m), r. split_and!; [done | by rewrite lane_cons_in, Hm | done |].
        intros c'. destruct m as [|c0 m]; [by intros [= <-] |].
        rewrite last_cons_cons. apply Hl.
    + rewrite lane_cons_out in E by done.
      destruct (IH _ E) as (m & r & -> & Hm & Hr & Hl).
      destruct m as [|c0 m].
      * exists [], (c :: r). simpl in *. subst m'.
        split_and!; [done | done | by rewrite lane_cons_out | done].
      * exists (c :: c0 :: m), r.
        split_and!; [done | by rewrite lane_cons_out | done |].
        intros c'. rewrite last_cons_cons. apply Hl.
Qed.

(** ** Chains *)

Lemma chain_fwd h i a cs : chain h i a cs → fwd h a i = Some (c_loc <$> head cs).
Proof. destruct cs; simpl; [done | by intros [? _]]. Qed.

Lemma chain_ext h h' i a cs :
  (∀ b, b ∈ a :: (c_loc <$> cs) → fwd h' b i = fwd h b i) →
  chain h i a cs → chain h' i a cs.
Proof.
  revert a. induction cs as [|c cs IH]; intros a Hagree; simpl.
  - intros E. rewrite Hagree; [done | by left].
  - intros [E Hc]. split.
    + rewrite Hagree; [done | by left].
    + apply IH; [| done]. intros b Hb. apply Hagree. by right.
Qed.

Lemma chain_app h i a cs1 cs2 :
  chain h i a (cs1 ++ cs2) → chain h i (lastloc a cs1) cs2.
Proof.
  revert a. induction cs1 as [|c cs1 IH]; intros a; [done |].
  simpl. intros [_ Hc]. rewrite lastloc_cons. by apply IH.
Qed.

(** Linking a new node behind the last node of [cs1]. *)
Lemma chain_insert h h' i a cs1 cs2 c :
  chain h i a (cs1 ++ cs2) →
  NoDup (a :: (c_loc <$> cs1 ++ cs2)) →
  c_loc c ∉ a :: (c_loc <$> cs1 ++ cs2) →
  fwd h' (lastloc a cs1) i = Some (Some (c_loc c)) →
  fwd h' (c_loc c) i = fwd h (lastloc a cs1) i →
  (∀ b, b ≠ c_loc c → b ≠ lastloc a cs1 → fwd h' b i = fwd h b i) →
  chain h' i a (cs1 ++ c :: cs2).
Proof.
  revert a. induction cs1 as [|c1 cs1 IH]; intros a Hch Hnd Hx Hp Hn Hframe.
  - change (lastloc a []) with a in *. simpl in *. split; [done |].
    apply chain_fwd in Hch as Hhd. rewrite <- Hn in Hhd.
    destruct cs2 as [|c2 cs2]; [done |].
    simpl in *. split; [done |]. destruct Hch as [_ Hch].
    apply NoDup_cons in Hnd as [Ha Hnd].
    eapply chain_ext; [| done]. intros b Hb. apply Hframe.
    + intros Heq. apply Hx. right. by rewrite <- Heq.
    + intros Heq. apply Ha. by rewrite <- Heq.
  - rewrite lastloc_cons in *. simpl in Hch. destruct Hch as [E Hch].
    apply NoDup_cons in Hnd as [Ha Hnd]. simpl in Ha, Hnd.
    simpl. split.
    + rewrite Hframe; [done | |].
      * intros Heq. apply Hx. rewrite <- Heq. by left.
      * intros Heq. apply Ha. rewrite Heq.
        destruct (lastloc_elem (c_loc c1) cs1) as [Hl | Hin]; [rewrite Hl; by left |].
        right. rewrite fmap_app. apply elem_of_app. by left.
    + apply IH; try done. intros Hin. apply Hx. by right.
Qed.

(** Unlinking the node behind the last node of [cs1]. *)
Lemma chain_delete h h' i a cs1 cs2 c :
  chain h i a (cs1 ++ c :: cs2) →
  NoDup (a :: (c_loc <$> cs1 ++ c :: cs2)) →
  fwd h' (lastloc a cs1) i = fwd h (c_loc c) i →
  (∀ b, b ≠ lastloc a cs1 → fwd h' b i = fwd h b i) →
  chain h' i a (cs1 ++ cs2).
Proof.
  revert a. induction cs1 as [|c1 cs1 IH]; intros a Hch Hnd Hp Hframe.
  - change (lastloc a []) with a in *. simpl in *. destruct Hch as [_ Hch].
    apply chain_fwd in Hch as Hhd. rewrite <- Hp in Hhd.
    apply NoDup_cons in Hnd as [Ha Hnd]. apply NoDup_cons in Hnd as [Hc Hnd].
    destruct cs2 as [|c2 cs2]; [done |].
    simpl in *. split; [done |]. destruct Hch as [_ Hch].
    eapply chain_ext; [| done]. intros b Hb. apply Hframe.
    intros Heq. apply Ha. right. by rewrite <- Heq.
  - rewrite lastloc_cons in *. simpl in Hch. destruct Hch as [E Hch].
    apply NoDup_cons in Hnd as [Ha Hnd]. simpl in Ha, Hnd.
    simpl. split.
    + rewrite Hframe; [done |].
      intros Heq. apply Ha. rewrite Heq.
      destruct (lastloc_elem (c_loc c1) cs1) as [Hl | Hin]; [rewrite Hl; by left |].
      right. rewrite fmap_app. apply elem_of_app. by left.
    + apply IH; done.
Qed.

End Chains.

Section Descent.

Context {T : Type} `{!Item T}.
Implicit Types (h : gmap loc (node T)) (c : cell T) (cs ns : list (cell T)).
Implicit Types (a x : loc) (i : nat) (key : T).

Lemma Forall_lane (P : cell T → Prop) i cs : Forall P cs → Forall P (lane i cs).
Proof.
  rewrite !Forall_forall. intros HP c Hc. apply lane_elem in Hc as [Hc _]. auto.
Qed.

(** ** The scan of one lane *)

Lemma scan_spec h i key cs : ∀ x rounds,
  chain h i x cs → Forall (held h) cs → (length cs < rounds)%nat →
  ∃ m r, cs = m ++ r
         ∧ Forall (λ c, Less (c_item c) key = true) m
         ∧ stops key r
         ∧ scan rounds h (Some x) i (Some key) = Ok (Some (lastloc x m)).
Proof.
  induction cs as [|c cs IH]; intros x rounds Hch Hheld Hlen.
  - exists [], []. split_and!; [done | constructor | done |].
    simpl in Hch. apply fwd_Some in Hch as (n & Hn & Hi).
    destruct rounds as [|r]; [simpl in Hlen; lia |].
    cbn [scan]. rewrite (load_Ok _ _ _ Hn), bind_Ok, (index_Ok _ _ _ Hi). done.
  - simpl in Hch. destruct Hch as [Hx Hch].
    apply fwd_Some in Hx as (n & Hn & Hi).
    apply Forall_cons in Hheld as [Hc Hheld].
    apply info_Some in Hc as (nc & Hnc & Hitem & _).
    destruct rounds as [|r]; [simpl in Hlen; lia |].
    cbn [scan]. rewrite (load_Ok _ _ _ Hn), bind_Ok, (index_Ok _ _ _ Hi), bind_Ok.
    rewrite (load_Ok _ _ _ Hnc), bind_Ok, Hitem. cbn [call_Less]. rewrite bind_Ok.
    destruct (Less (c_item c) key) eqn:Hlt.
    + destruct (IH (c_loc c) r Hch Hheld) as (m & r' & -> & Hm & Hr & Hscan).
      { simpl in Hlen. lia. }
      exists (c :: m), r'. split_and!; [done | by constructor | done |].
      by rewrite lastloc_cons.
    + exists [], (c :: cs). split_and!; [done | constructor | done | done].
Qed.

(** ** What a state of the right shape provides *)

Lemma Shape_locs_dom h sl hd ns fl :
  Shape h sl hd ns fl → ∀ a, a ∈ hd :: (c_loc <$> ns) → a ∈ dom h.
Proof.
  intros Hs a Ha. apply elem_of_dom, info_is_Some.
  apply elem_of_cons in Ha as [-> | Ha].
  - by rewrite (sh_hd _ _ _ _ _ Hs).
  - apply list_elem_of_fmap in Ha as (c & -> & Hc).
    pose proof (sh_held _ _ _ _ _ Hs) as Hheld.
    rewrite Forall_forall in Hheld. by rewrite (Hheld c Hc).
Qed.

Lemma Shape_size h sl hd ns fl :
  Shape h sl hd ns fl → (length ns < size h)%nat.
Proof.
  intros Hs.
  assert (NoDup (hd :: (c_loc <$> ns))) as Hnd.
  { pose proof (sh_nodup _ _ _ _ _ Hs) as Hnd.
    rewrite app_comm_cons in Hnd. by apply NoDup_app in Hnd as [? _]. }
  assert (size (list_to_set (C := gset loc) (hd :: (c_loc <$> ns))) ≤ size (dom h))%nat as Hle.
  { apply subseteq_size. intros a Ha. apply elem_of_list_to_set in Ha.
    by eapply Shape_locs_dom. }
  rewrite size_list_to_set, size_dom in Hle by done.
  simpl in Hle. rewrite length_fmap in Hle. lia.
Qed.

Lemma Shape_lane_top h sl hd ns fl i :
  Shape h sl hd ns fl → (Z.to_nat (level sl) ≤ i)%nat → lane i ns = [].
Proof.
  intros Hs Hi. apply lane_none.
  eapply Forall_impl; [apply (sh_lvls _ _ _ _ _ Hs) |]. simpl. intros c Hc. lia.
Qed.

Lemma Shape_lane_0 h sl hd ns fl : Shape h sl hd ns fl → lane 0 ns = ns.
Proof.
  intros Hs. apply lane_all.
  eapply Forall_impl; [apply (sh_lvls _ _ _ _ _ Hs) |]. simpl. intros c Hc. lia.
Qed.

(** ** The descent through the lanes *)

Lemma set_prev_Ok (prev : list ptr) i p :
  (i < length prev)%nat → set_prev prev i p = Ok (<[i := p]> prev).
Proof. intros Hi. unfold set_prev. by rewrite decide_True. Qed.

Lemma new_prev_Ok m :
  0 ≤ m ≤ DefaultMaxLevel → new_prev m = Ok (replicate (Z.to_nat m) None).
Proof.
  intros Hm. unfold new_prev.
  destruct (Z.leb_spec 0 m); [| lia]. destruct (Z.leb_spec m DefaultMaxLevel); [done | lia].
Qed.

Lemma prev_loop_spec h sl hd ns fl key :
  Shape h sl hd ns fl →
  ∀ k la lb (prev : list ptr),
    ns = la ++ lb →
    (k ≤ Z.to_nat (level sl))%nat →
    (∀ c, last la = Some c → (k ≤ c_lvl c)%nat ∧ Less (c_item c) key = true) →
    (∀ i, (k ≤ i)%nat → stops key (lane i lb)) →
    length prev = Z.to_nat (maxLevel sl) →
    ∃ la' lb' prev',
      ns = la' ++ lb'
      ∧ prev_loop h (Some (lastloc hd la)) k (Some key) prev
        = Ok (Some (lastloc hd la'), prev')
      ∧ length prev' = Z.to_nat (maxLevel sl)
      ∧ (∀ i, (i < k)%nat → prev' !! i = Some (Some (lastloc hd (lane i la'))))
      ∧ (∀ i, (k ≤ i)%nat → prev' !! i = prev !! i)
      ∧ (∀ i, (k ≤ i)%nat → lane i la' = lane i la)
      ∧ (∀ c, last la' = Some c → Less (c_item c) key = true)
      ∧ (∀ i, stops key (lane i lb')).
Proof.
  intros Hs. induction k as [|j IH]; intros la lb prev Hns Hk Hlast Hstop Hlen.
  - exists la, lb, prev. split_and!; try done.
    + intros i Hi. lia.
    + intros c Hc. by apply Hlast.
    + intros i. apply Hstop. lia.
  - pose proof (sh_level _ _ _ _ _ Hs) as Hlevel.
    assert (j < Z.to_nat (maxLevel sl))%nat as Hj by lia.
    pose proof (sh_chain _ _ _ _ _ Hs j Hj) as Hch.
    rewrite Hns, lane_app in Hch. apply chain_app in Hch.
    rewrite lastloc_lane in Hch by (intros c Hc; apply Hlast in Hc; lia).
    assert (Forall (held h) (lane j lb)) as Hheld.
    { pose proof (sh_held _ _ _ _ _ Hs) as Hh. rewrite Hns in Hh.
      apply Forall_app in Hh as [_ Hh].
      by apply Forall_lane. }
    destruct (scan_spec h j key _ _ (S (size h)) Hch Hheld) as (m' & r' & Hsplit & Hm' & Hr' & Hscan).
    { pose proof (Shape_size _ _ _ _ _ Hs) as Hsz. pose proof (lane_length j lb) as Hll.
      rewrite Hns, length_app in Hsz. lia. }
    destruct (lane_split _ _ _ _ Hsplit) as (m & r & -> & Hlm & Hlr & Hml).
    assert (lastloc (lastloc hd la) m' = lastloc hd (la ++ m)) as Hx1.
    { rewrite lastloc_app, <- Hlm. by apply lastloc_lane. }
    assert (∀ c, last (la ++ m) = Some c →
                 (j < c_lvl c)%nat ∧ Less (c_item c) key = true) as Hlast1.
    { intros c Hc. destruct m as [|c0 m] using rev_ind.
      - rewrite app_nil_r in Hc. apply Hlast in Hc. split; [lia | tauto].
      - rewrite app_assoc, last_snoc in Hc. injection Hc as ->.
        assert (j < c_lvl c)%nat as Hjc by (apply Hml; by rewrite last_snoc).
        split; [done |]. rewrite Forall_forall in Hm'. apply Hm'.
        rewrite <- Hlm. apply lane_elem. split; [| done].
        apply elem_of_app. right. by left. }
    assert (∀ i, (S j ≤ i)%nat → lane i m = []) as Hhigh.
    { intros i Hi. destruct (lane i m) as [|c l] eqn:E; [done |]. exfalso.
      pose proof (Hstop i Hi) as Hst. rewrite lane_app, E in Hst. simpl in Hst.
      assert (c ∈ lane i m) as Hc by (rewrite E; by left).
      apply lane_elem in Hc as [Hc Hlv].
      assert (c ∈ m') as Hc' by (rewrite <- Hlm; apply lane_elem; split; [done | lia]).
      rewrite Forall_forall in Hm'. apply Hm' in Hc'. congruence. }
    destruct (IH (la ++ m) r (<[j := Some (lastloc hd (la ++ m))]> prev))
      as (la' & lb' & prev' & Hns' & Hloop & Hlen' & Hlow & Hkeep & Hlanes & Hlast' & Hstop').
    { by rewrite <- app_assoc. }
    { lia. }
    { intros c Hc. apply Hlast1 in Hc. split; [lia | tauto]. }
    { intros i Hi. destruct (decide (i = j)) as [-> | Hne]; [by rewrite Hlr |].
      specialize (Hstop i ltac:(lia)). rewrite lane_app, Hhigh in Hstop by lia. done. }
    { by rewrite length_insert. }
    exists la', lb', prev'. split_and!; try done.
    + cbn [prev_loop]. rewrite Hscan, bind_Ok, Hx1.
      rewrite set_prev_Ok by lia. rewrite bind_Ok. done.
    + intros i Hi. destruct (decide (i = j)) as [-> | Hne]; [| apply Hlow; lia].
      rewrite Hkeep by lia. rewrite list_lookup_insert_eq by lia.
      rewrite Hlanes by lia. do 2 f_equal. symmetry. apply lastloc_lane.
      intros c Hc. by apply Hlast1.
    + intros i Hi. rewrite Hkeep by lia. apply list_lookup_insert_ne. lia.
    + intros i Hi. rewrite Hlanes by lia. rewrite lane_app, Hhigh by lia.
      by rewrite app_nil_r.
Qed.

(** The descent of [Insert] and [Delete] from the header: it splits the
    cells into those it passed and the rest, and records in every lane the
    last node it passed. *)
Lemma descent_spec h sl hd ns fl key :
  Shape h sl hd ns fl →
  ∃ la lb prev,
    ns = la ++ lb
    ∧ prev_loop h (header sl) (Z.to_nat (level sl)) (Some key)
        (replicate (Z.to_nat (maxLevel sl)) None)
      = Ok (Some (lastloc hd la), prev)
    ∧ length prev = Z.to_nat (maxLevel sl)
    ∧ (∀ i, (i < Z.to_nat (level sl))%nat →
            prev !! i = Some (Some (lastloc hd (lane i la))))
    ∧ (∀ i, (Z.to_nat (level sl) ≤ i < Z.to_nat (maxLevel sl))%nat →
            prev !! i = Some None)
    ∧ (∀ c, last la = Some c → Less (c_item c) key = true)
    ∧ stops key lb
    ∧ fwd h (lastloc hd la) 0 = Some (c_loc <$> head lb).
Proof.
  intros Hs.
  destruct (prev_loop_spec h sl hd ns fl key Hs (Z.to_nat (level sl)) [] ns
              (replicate (Z.to_nat (maxLevel sl)) None))
    as (la & lb & prev & Hns & Hloop & Hlen & Hlow & Hkeep & _ & Hlast & Hstop);
    try done.
  { intros i Hi. by rewrite (Shape_lane_top _ _ _ _ _ i Hs). }
  { by rewrite length_replicate. }
  exists la, lb, prev. rewrite (sh_header _ _ _ _ _ Hs). split_and!; try done.
  - intros i Hi. rewrite Hkeep by lia. apply lookup_replicate_2. lia.
  - specialize (Hstop 0%nat).
    assert (lane 0 lb = lb) as Hl0.
    { pose proof (Shape_lane_0 _ _ _ _ _ Hs) as H0. rewrite Hns, lane_app in H0.
      pose proof (lane_length 0 la). pose proof (lane_length 0 lb).
      apply (f_equal length) in H0 as Hl. rewrite !length_app in Hl.
      apply app_inj_2 in H0 as [_ ?]; [done | lia]. }
    by rewrite Hl0 in Hstop.
  - pose proof (sh_level _ _ _ _ _ Hs) as Hlevel.
    pose proof (sh_chain _ _ _ _ _ Hs 0%nat ltac:(lia)) as Hch.
    rewrite (Shape_lane_0 _ _ _ _ _ Hs), Hns in Hch.
    apply chain_app in Hch. by apply chain_fwd.
Qed.

Lemma search_loop_prev_loop h (x x' : ptr) k (key : option T) (prev prev' : list ptr) :
  prev_loop h x k key prev = Ok (x', prev') → search_loop h x k key = Ok x'.
Proof.
  revert x prev. induction k as [|i IH]; intros x prev; simpl.
  - by intros [= -> _].
  - intros E. apply bind_Ok_inv in E as (x1 & -> & E).
    apply bind_Ok_inv in E as (prev1 & _ & E). rewrite bind_Ok. eauto.
Qed.

End Descent.

Section Loops.

Context {T : Type} `{!Item T}.
Implicit Types (h : gmap loc (node T)) (c : cell T) (cs ns : list (cell T)).
Implicit Types (a b x : loc) (i j : nat) (key : T).

(** ** One assignment to a forward slot *)

Lemma fwd_with_slot h a n i v b j :
  h !! a = Some n → (i < len (forward n))%nat →
  fwd (<[a := with_slot n i v]> h) b j
  = if decide (b = a ∧ j = i) then Some v else fwd h b j.
Proof.
  intros Hn Hi. unfold fwd. destruct (decide (a = b)) as [<- | Hne].
  - rewrite lookup_insert_eq, Hn. simpl.
    destruct (decide (j = i)) as [-> | Hji].
    + rewrite decide_True by done. by apply list_lookup_insert_eq.
    + rewrite decide_False by tauto. by apply list_lookup_insert_ne.
  - rewrite lookup_insert_ne by done. rewrite decide_False; [done |]. intros [-> _]. done.
Qed.

Lemma info_with_slot h a n i v b :
  h !! a = Some n → info (<[a := with_slot n i v]> h) b = info h b.
Proof.
  intros Hn. unfold info. destruct (decide (a = b)) as [<- | Hne].
  - rewrite lookup_insert_eq, Hn. simpl. unfold len. simpl. by rewrite length_insert.
  - by rewrite lookup_insert_ne.
Qed.

Lemma fwd_is_Some_len h a n i : h !! a = Some n → is_Some (fwd h a i) → (i < len (forward n))%nat.
Proof.
  intros Hn [v Hv]. apply fwd_Some in Hv as (n' & Hn' & Hi).
  rewrite Hn in Hn'. injection Hn' as <-. by apply lookup_lt_Some in Hi.
Qed.

(** ** The splice loop of Insert *)

Lemma get_prev_Ok (prev : list ptr) i p : prev !! i = Some p → get_prev prev i = Ok p.
Proof. intros E. unfold get_prev. by rewrite E. Qed.

Lemma splice_loop_spec x (prev : list ptr) (p : nat → loc) : ∀ n i h,
  (∀ j, (i ≤ j < i + n)%nat →
        prev !! j = Some (Some (p j)) ∧ p j ≠ x
        ∧ is_Some (fwd h (p j) j) ∧ is_Some (fwd h x j)) →
  ∃ h', splice_loop h (Some x) prev i n = Ok h'
        ∧ (∀ b j, fwd h' b j =
                  if decide (i ≤ j < i + n)%nat then
                    if decide (b = x) then fwd h (p j) j
                    else if decide (b = p j) then Some (Some x) else fwd h b j
                  else fwd h b j)
        ∧ (∀ b, info h' b = info h b).
Proof.
  induction n as [|n IH]; intros i h Hpre.
  - exists h. split_and!; [done | | done].
    intros b j. rewrite decide_False; [done | lia].
  - destruct (Hpre i ltac:(lia)) as (Hprev & Hpx & [v Hv] & Hxi).
    apply fwd_Some in Hv as (pn & Hpn & Hpi).
    destruct Hxi as [w Hw]. apply fwd_Some in Hw as (xn & Hxn & Hxi).
    apply lookup_lt_Some in Hxi. pose proof (lookup_lt_Some _ _ _ Hpi) as Hpl.
    change (i < len (forward xn))%nat in Hxi. change (i < len (forward pn))%nat in Hpl.
    set (h1 := <[x := with_slot xn i v]> h).
    set (h2 := <[p i := with_slot pn i (Some x)]> h1).
    assert (h1 !! p i = Some pn) as Hpn1 by (subst h1; by rewrite lookup_insert_ne).
    assert (∀ b j, fwd h2 b j =
              if decide (b = p i ∧ j = i) then Some (Some x)
              else if decide (b = x ∧ j = i) then Some v else fwd h b j) as Hfwd2.
    { intros b j. subst h2. rewrite fwd_with_slot by done.
      case_decide; [done |]. subst h1. by rewrite fwd_with_slot. }
    assert (∀ b, info h2 b = info h b) as Hinfo2.
    { intros b. subst h2 h1. by rewrite !info_with_slot. }
    destruct (IH (S i) h2) as (h' & Hloop & Hfwd & Hinfo).
    { intros j Hj. destruct (Hpre j ltac:(lia)) as (? & ? & ? & ?).
      split_and!; [done | done | |].
      - rewrite Hfwd2. rewrite !decide_False by lia. done.
      - rewrite Hfwd2. rewrite !decide_False by lia. done. }
    exists h'. split_and!.
    + cbn [splice_loop]. rewrite (load_Ok _ _ _ Hxn), bind_Ok.
      rewrite (get_prev_Ok _ _ _ Hprev), bind_Ok.
      rewrite (load_Ok _ _ _ Hpn), bind_Ok, (index_Ok _ _ _ Hpi), bind_Ok.
      rewrite assign_Ok, bind_Ok by done. cbn [store]. rewrite bind_Ok.
      change (<[x := _]> h) with h1.
      rewrite (load_Ok _ _ _ Hpn1), bind_Ok.
      rewrite assign_Ok, bind_Ok by done. cbn [store]. rewrite bind_Ok.
      exact Hloop.
    + intros b j. rewrite Hfwd, !Hfwd2.
      destruct (decide (j = i)) as [-> | Hji].
      * rewrite (decide_False (P := (S i ≤ i < _)%nat)) by lia.
        rewrite (decide_True (P := (i ≤ i < _)%nat)) by lia.
        destruct (decide (b = x)) as [-> | Hbx].
        -- rewrite decide_False by (intros [? _]; congruence).
           rewrite decide_True by done. symmetry. apply fwd_Some. eauto.
        -- destruct (decide (b = p i)) as [-> | Hbp].
           ++ by rewrite decide_True.
           ++ rewrite !decide_False by tauto. done.
      * rewrite !(decide_False (P := (_ ∧ j = i))) by tauto.
        destruct (decide (S i ≤ j < S i + n)%nat).
        -- rewrite (decide_True (P := (i ≤ j < _)%nat)) by lia. done.
        -- rewrite (decide_False (P := (i ≤ j < _)%nat)) by lia. done.
    + intros b. by rewrite Hinfo.
Qed.

(** ** The unsplice loop of Delete *)

Lemma unsplice_loop_spec x (prev : list ptr) (p : nat → loc) (top : nat) : ∀ n i h,
  (∀ j, (i ≤ j < i + n)%nat →
        prev !! j = Some (Some (p j)) ∧ p j ≠ x
        ∧ ((j < top)%nat → fwd h (p j) j = Some (Some x) ∧ is_Some (fwd h x j))
        ∧ ((top ≤ j)%nat → ∃ v, fwd h (p j) j = Some v ∧ v ≠ Some x)) →
  ∃ h', unsplice_loop h (Some x) prev i n = Ok h'
        ∧ (∀ b j, fwd h' b j =
                  if decide ((i ≤ j < i + n)%nat ∧ (j < top)%nat ∧ b = p j)
                  then fwd h x j else fwd h b j)
        ∧ (∀ b, info h' b = info h b).
Proof.
  induction n as [|n IH]; intros i h Hpre.
  - exists h. split_and!; [done | | done].
    intros b j. rewrite decide_False; [done | lia].
  - destruct (Hpre i ltac:(lia)) as (Hprev & Hpx & Hin & Hout).
    destruct (decide (i < top)%nat) as [Hit | Hit].
    + destruct (Hin Hit) as [Hv [w Hw]].
      apply fwd_Some in Hv as (pn & Hpn & Hpi).
      apply fwd_Some in Hw as (xn & Hxn & Hxi).
      pose proof (lookup_lt_Some _ _ _ Hpi) as Hpl.
      change (i < len (forward pn))%nat in Hpl.
      set (h1 := <[p i := with_slot pn i w]> h).
      assert (∀ b j, fwd h1 b j =
                if decide (b = p i ∧ j = i) then Some w else fwd h b j) as Hfwd1.
      { intros b j. subst h1. by rewrite fwd_with_slot. }
      assert (∀ b, info h1 b = info h b) as Hinfo1.
      { intros b. subst h1. by rewrite info_with_slot. }
      destruct (IH (S i) h1) as (h' & Hloop & Hfwd & Hinfo).
      { intros j Hj. destruct (Hpre j ltac:(lia)) as (? & ? & Hin' & Hout').
        split_and!; [done | done | |].
        - intros Hjt. rewrite !Hfwd1, !decide_False by lia. auto.
        - intros Hjt. rewrite !Hfwd1, !decide_False by lia. auto. }
      exists h'. split_and!.
      * cbn [unsplice_loop]. rewrite (get_prev_Ok _ _ _ Hprev), bind_Ok.
        rewrite (load_Ok _ _ _ Hpn), bind_Ok, (index_Ok _ _ _ Hpi), bind_Ok.
        rewrite decide_True by done.
        rewrite (load_Ok _ _ _ Hxn), bind_Ok, (index_Ok _ _ _ Hxi), bind_Ok.
        rewrite assign_Ok, bind_Ok by done. cbn [store]. rewrite bind_Ok.
        exact Hloop.
      * intros b j. rewrite Hfwd, !Hfwd1.
        destruct (decide (j = i)) as [-> | Hji].
        -- rewrite (decide_False (P := ((S i ≤ i < _)%nat ∧ _))) by lia.
           destruct (decide (b = p i)) as [-> | Hbp].
           ++ rewrite !decide_True by (split_and!; try done; lia).
              symmetry. apply fwd_Some. eauto.
           ++ rewrite !decide_False by tauto. done.
        -- rewrite !(decide_False (P := (_ ∧ j = i))) by tauto.
           destruct (decide ((S i ≤ j < S i + n)%nat ∧ (j < top)%nat ∧ b = p j)).
           ++ rewrite decide_True by (split_and!; try tauto; lia). done.
           ++ rewrite decide_False; [done |]. intros (? & ? & ?).
              apply n0. split_and!; try done; lia.
      * intros b. by rewrite Hinfo.
    + destruct (Hout ltac:(lia)) as (v & Hv & Hvx).
      apply fwd_Some in Hv as (pn & Hpn & Hpi).
      exists h. split_and!; [| | done].
      * cbn [unsplice_loop]. rewrite (get_prev_Ok _ _ _ Hprev), bind_Ok.
        rewrite (load_Ok _ _ _ Hpn), bind_Ok, (index_Ok _ _ _ Hpi), bind_Ok.
        by rewrite decide_False.
      * intros b j. rewrite decide_False; [done | lia].
Qed.

(** ** The loop that lowers the level *)

Lemma shrink_loop_spec h hd (hn : node T) : h !! hd = Some hn →
  ∀ rounds lvl,
    1 ≤ lvl ≤ Z.of_nat (len (forward hn)) → lvl < 2 ^ 31 →
    (Z.to_nat (lvl - 1) ≤ rounds)%nat →
    ∃ lvl', shrink_loop rounds h (Some hd) lvl = Ok lvl'
            ∧ 1 ≤ lvl' ≤ lvl
            ∧ (∀ j, (Z.to_nat lvl' ≤ j < Z.to_nat lvl)%nat →
                    elems (forward hn) !! j = Some None)
            ∧ (1 < lvl' → ∃ a, elems (forward hn) !! Z.to_nat (lvl' - 1) = Some (Some a)).
Proof.
  intros Hhn. induction rounds as [|r IH]; intros lvl Hlvl Hmax Hr.
  - exists lvl. split; [done |]. split; [lia |]. split; [intros j Hj; lia | lia].
  - cbn [shrink_loop]. destruct (Z.ltb_spec 1 lvl) as [Hgt | Hle].
    + rewrite (load_Ok _ _ _ Hhn), bind_Ok.
      destruct (lookup_lt_is_Some_2 (elems (forward hn)) (Z.to_nat (lvl - 1)))
        as [v Hv]; [unfold len in Hlvl; lia |].
      rewrite (index_Ok _ _ _ Hv), bind_Ok. destruct v as [a|].
      * exists lvl. split; [done |]. split; [lia |]. split; [intros j Hj; lia | eauto].
      * rewrite wrap_int32_small by lia.
        destruct (IH (lvl - 1)) as (lvl' & Hloop & Hrange & Hnil & Htop); [lia | lia | lia |].
        exists lvl'. split; [done |]. split; [lia |]. split; [| done].
        intros j Hj. destruct (decide (j = Z.to_nat (lvl - 1))) as [-> | Hne]; [done |].
        apply Hnil. lia.
    + exists lvl. split; [done |]. split; [lia |]. split; [intros j Hj; lia | lia].
Qed.

(** ** The loop that raises the level *)

Lemma raise_loop_spec (hd : ptr) : ∀ n i (prev : list ptr),
  (i + n ≤ length prev)%nat →
  ∃ prev', raise_loop prev hd i n = Ok prev'
           ∧ length prev' = length prev
           ∧ (∀ j, prev' !! j = if decide (i ≤ j < i + n)%nat then Some hd else prev !! j).
Proof.
  induction n as [|n IH]; intros i prev Hlen.
  - exists prev. split_and!; [done | done |].
    intros j. rewrite decide_False; [done | lia].
  - destruct (IH (S i) (<[i := hd]> prev)) as (prev' & Hloop & Hlen' & Hget).
    { rewrite length_insert. lia. }
    exists prev'. split_and!.
    + cbn [raise_loop]. rewrite set_prev_Ok by lia. by rewrite bind_Ok.
    + by rewrite Hlen', length_insert.
    + intros j. rewrite Hget. destruct (decide (j = i)) as [-> | Hne].
      * rewrite decide_False by lia. rewrite decide_True by lia.
        apply list_lookup_insert_eq. lia.
      * rewrite list_lookup_insert_ne by done.
        destruct (decide (S i ≤ j < S i + n)%nat).
        -- rewrite decide_True by lia. done.
        -- rewrite decide_False by lia. done.
Qed.

(** ** The level drawn for a new node *)

Lemma randomLevel_loop_range maxLevel : ∀ rounds lvl r,
  1 ≤ lvl ≤ maxLevel → maxLevel < 2 ^ 31 →
  1 ≤ (randomLevel_loop rounds maxLevel lvl r).1 ≤ maxLevel.
Proof.
  induction rounds as [|n IH]; intros lvl r Hlvl Hmax; cbn [randomLevel_loop].
  - done.
  - destruct (Z.ltb_spec lvl maxLevel) as [Hlt | Hge]; [| done].
    unfold Uint32. destruct (draw_succeeds (r O)); [| done].
    rewrite wrap_int32_small by lia. apply IH; lia.
Qed.

End Loops.

Section Pool.

Context {T : Type} `{!Item T}.
Implicit Types (h : gmap loc (node T)) (c : cell T) (cs ns : list (cell T)).
Implicit Types (a b x : loc) (i j : nat) (key : T) (fl : list loc).

(** ** The free list *)

Lemma reslice_Ok s n :
  0 ≤ n ≤ Z.of_nat (cap s) →
  ∃ s', reslice s n = Ok s' ∧ len s' = Z.to_nat n
        ∧ elems s' ++ spare s' = elems s ++ spare s.
Proof.
  intros Hn. unfold reslice.
  destruct (Z.leb_spec 0 n); [| lia]. destruct (Z.leb_spec n (Z.of_nat (cap s))); [| lia].
  eexists. split; [done |]. simpl. split.
  - unfold len. simpl. rewrite length_take, length_app. unfold cap in Hn. lia.
  - apply take_drop.
Qed.

(** A node taken from an empty pool is new in the store; a node taken
    from a pool that holds some is the one released last. *)
Lemma newNode_spec h (f : FreeList) fl lvl :
  freelist f = Some <$> fl → Forall (λ a, is_Some (h !! a)) fl → 0 ≤ lvl →
  ∃ x n fl0,
    newNode h f lvl
    = Ok (Some x, <[x := n]> h, {| freelist := Some <$> fl0; fl_cap := fl_cap f |})
    ∧ len (forward n) = Z.to_nat lvl
    ∧ ((fl = [] ∧ fl0 = [] ∧ h !! x = None
        ∧ n = {| item := None;
                 forward := {| elems := replicate (Z.to_nat lvl) None; spare := [] |} |})
       ∨ (fl = fl0 ++ [x]
          ∧ ∃ nn, h !! x = Some nn ∧ item n = item nn
                  ∧ ((Z.of_nat (cap (forward nn)) < lvl
                      ∧ forward n = {| elems := replicate (Z.to_nat lvl) None;
                                       spare := [] |})
                     ∨ (lvl ≤ Z.of_nat (cap (forward nn))
                        ∧ elems (forward n) ++ spare (forward n)
                          = elems (forward nn) ++ spare (forward nn))))).
Proof.
  intros Hf Hdom Hlvl. unfold newNode. rewrite Hf, length_fmap.
  destruct fl as [|a0 fl0'] using rev_ind.
  - simpl. rewrite make_Ok by done. rewrite bind_Ok. unfold alloc.
    eexists (fresh (dom h)), _, []. split; [| split].
    + simpl. destruct f; simpl in *. by rewrite Hf.
    + unfold len. simpl. by rewrite length_replicate.
    + left. split_and!; try done.
      apply not_elem_of_dom. apply is_fresh.
  - clear IHfl0'. rewrite length_app. simpl length.
    destruct (Z.ltb_spec (Z.of_nat (length fl0' + 1) - 1) 0) as [Hneg | _]; [lia |].
    replace (Z.to_nat (Z.of_nat (length fl0' + 1) - 1)) with (length fl0') by lia.
    rewrite fmap_app. simpl.
    rewrite lookup_app_r by (by rewrite length_fmap).
    rewrite length_fmap, Nat.sub_diag. simpl.
    apply Forall_app in Hdom as [Hdom0 Ha0]. apply Forall_singleton in Ha0 as [nn Hnn].
    rewrite Hnn. rewrite bind_Ok.
    rewrite take_app_length' by (by rewrite length_fmap).
    destruct (Z.ltb_spec (Z.of_nat (cap (forward nn))) lvl) as [Hsmall | Hbig].
    + rewrite make_Ok by done. rewrite bind_Ok.
      eexists a0, _, fl0'. split; [done |]. split.
      * unfold len. simpl. by rewrite length_replicate.
      * right. split; [done |]. exists nn. split_and!; [done | done | by left].
    + destruct (reslice_Ok (forward nn) lvl) as (s' & Hs' & Hlen & Hsame); [lia |].
      rewrite Hs', bind_Ok.
      eexists a0, _, fl0'. split; [done |]. split; [done |].
      right. split; [done |]. exists nn. split_and!; [done | done | by right].
Qed.

Lemma freeNode_spec h (f : FreeList) fl x (xn : node T) :
  freelist f = Some <$> fl → h !! x = Some xn →
  (length fl < fl_cap f)%nat
  ∧ freeNode h f (Some x)
    = Ok (true, <[x := {| item := None; forward := clear (forward xn) |}]> h,
          {| freelist := Some <$> (fl ++ [x]); fl_cap := fl_cap f |})
  ∨ (fl_cap f ≤ length fl)%nat ∧ freeNode h f (Some x) = Ok (false, h, f).
Proof.
  intros Hf Hx. unfold freeNode. rewrite Hf, length_fmap.
  case_decide as Hroom.
  - left. split; [done |]. rewrite (load_Ok _ _ _ Hx), bind_Ok. simpl.
    by rewrite fmap_app.
  - right. split; [lia | done].
Qed.

End Pool.

Section InsertProofs.

Context {T : Type} `{!Item T}.
Implicit Types (h : gmap loc (node T)) (c : cell T) (cs ns la lb : list (cell T)).
Implicit Types (a b x : loc) (i j : nat) (key : T) (fl : list loc).

(** ** Locations of lanes *)

Lemma lane_locs_sublist i cs : (c_loc <$> lane i cs) `sublist_of` (c_loc <$> cs).
Proof. apply fmap_sublist, lane_sublist. Qed.

Lemma lane_locs_elem i cs a : a ∈ c_loc <$> lane i cs → a ∈ c_loc <$> cs.
Proof. intros Ha. eapply elem_of_sublist; [done | apply lane_locs_sublist]. Qed.

Lemma NoDup_lane a i cs :
  NoDup (a :: (c_loc <$> cs)) → NoDup (a :: (c_loc <$> lane i cs)).
Proof.
  intros Hnd. eapply sublist_NoDup; [done |].
  apply sublist_skip, lane_locs_sublist.
Qed.

Lemma lastloc_lane_elem hd i la lb :
  lastloc hd (lane i la) ∈ hd :: (c_loc <$> la ++ lb).
Proof.
  destruct (lastloc_elem hd (lane i la)) as [-> | Hin]; [by left |].
  right. apply lane_locs_elem in Hin. rewrite fmap_app. apply elem_of_app. by left.
Qed.

Lemma Shape_nodup_cells h sl hd ns fl :
  Shape h sl hd ns fl → NoDup (hd :: (c_loc <$> ns)).
Proof.
  intros Hs. pose proof (sh_nodup _ _ _ _ _ Hs) as Hnd.
  rewrite app_comm_cons in Hnd. by apply NoDup_app in Hnd as [? _].
Qed.

(** In lane [i] the node recorded by the descent is followed by the first
    cell of the lane that the descent did not pass. *)
Lemma Shape_chain_split h sl hd la lb fl i :
  Shape h sl hd (la ++ lb) fl → (i < Z.to_nat (maxLevel sl))%nat →
  chain h i hd (lane i la ++ lane i lb)
  ∧ fwd h (lastloc hd (lane i la)) i = Some (c_loc <$> head (lane i lb)).
Proof.
  intros Hs Hi. pose proof (sh_chain _ _ _ _ _ Hs i Hi) as Hch.
  rewrite lane_app in Hch. split; [done |].
  apply chain_app in Hch. by apply chain_fwd.
Qed.

(** ** Insert: the branch that links a new node *)

Lemma randomLevel_range (sl : SkipList) :
  1 ≤ maxLevel sl ≤ DefaultMaxLevel → 1 ≤ (randomLevel sl).1 ≤ maxLevel sl.
Proof.
  intros Hm. unfold randomLevel. apply randomLevel_loop_range; [lia |].
  unfold DefaultMaxLevel in Hm. lia.
Qed.

(** The new node is linked in; nodes other than the new one keep their
    item and their number of slots, and nodes outside the list keep their
    slots as well. *)
Lemma insert_new_frame h sl hd la lb fl it (prev : list ptr) :
  Shape h sl hd (la ++ lb) fl →
  length prev = Z.to_nat (maxLevel sl) →
  (∀ i, (i < Z.to_nat (level sl))%nat →
        prev !! i = Some (Some (lastloc hd (lane i la)))) →
  ∃ h' sl' x lvl fl',
    insert_new h sl (Some it) prev = Ok (h', sl')
    ∧ Shape h' sl' hd (la ++ Cell x it lvl :: lb) fl'
    ∧ maxLevel sl' = maxLevel sl
    ∧ ((fl = [] ∧ fl' = [] ∧ h !! x = None) ∨ fl = fl' ++ [x])
    ∧ (∀ b, b ≠ x → info h' b = info h b)
    ∧ (∀ b j, b ∉ hd :: (c_loc <$> la ++ lb) → b ≠ x → fwd h' b j = fwd h b j).
Proof.
  intros Hs Hplen Hplow.
  pose proof (sh_level _ _ _ _ _ Hs) as Hlevel.
  pose proof (sh_max _ _ _ _ _ Hs) as Hmax.
  unfold insert_new.
  pose proof (randomLevel_range sl ltac:(lia)) as Hlvl.
  destruct (randomLevel sl) as [lvl rnd]. simpl in Hlvl.
  set (p := λ j, lastloc hd (lane j la)).
  assert (∃ prev2 level',
    (if level sl <? lvl then
       prev' ← raise_loop prev (header sl) (Z.to_nat (level sl))
                 (Z.to_nat (lvl - level sl));
       Ok (prev', lvl)
     else Ok (prev, level sl)) = Ok (prev2, level')
    ∧ level' = Z.max (level sl) lvl
    ∧ ∀ j, (j < Z.to_nat lvl)%nat → prev2 !! j = Some (Some (p j)))
    as (prev2 & level' & Hraise & Hlevel' & Hprev2).
  { destruct (Z.ltb_spec (level sl) lvl) as [Hup | Hstay].
    - destruct (raise_loop_spec (header sl) (Z.to_nat (lvl - level sl))
                  (Z.to_nat (level sl)) prev) as (prev2 & Hr & Hl & Hget); [lia |].
      exists prev2, lvl. rewrite Hr, bind_Ok. split; [done |]. split; [lia |].
      intros j Hj. rewrite Hget. case_decide as Hin.
      + rewrite (sh_header _ _ _ _ _ Hs). subst p. simpl.
        pose proof (Shape_lane_top _ _ _ _ _ j Hs ltac:(lia)) as Htop.
        rewrite lane_app in Htop. apply app_eq_nil in Htop as [-> _]. done.
      + apply Hplow. lia.
    - exists prev, (level sl). split; [done |]. split; [lia |].
      intros j Hj. apply Hplow. lia. }
  rewrite Hraise, bind_Ok.
  destruct (newNode_spec h (sl_freelist sl) fl lvl
              (sh_free _ _ _ _ _ Hs) (sh_free_dom _ _ _ _ _ Hs))
    as (x & n & fl0 & Hnew & Hnlen & Hcases); [lia |].
  rewrite Hnew, bind_Ok. cbn beta iota.
  rewrite (load_Ok _ x n) by apply lookup_insert_eq.
  rewrite bind_Ok. cbn [store]. rewrite bind_Ok, insert_insert_eq.
  set (n2 := {| item := Some it; forward := forward n |}).
  set (h2 := <[x := n2]> h).
  assert ((x ∉ hd :: ((c_loc <$> la ++ lb) ++ fl0))
          ∧ NoDup (hd :: ((c_loc <$> la ++ lb) ++ fl0))
          ∧ (length fl0 ≤ length fl)%nat
          ∧ (∀ a, a ∈ fl0 → a ∈ fl)) as (Hxnew & Hnd0 & Hfl0 & Hsub).
  { pose proof (sh_nodup _ _ _ _ _ Hs) as Hnd.
    destruct Hcases as [(-> & -> & Hfresh & _) | (-> & _)].
    - split_and!; [| done | done | done]. rewrite app_nil_r. intros Hin.
      apply (Shape_locs_dom _ _ _ _ _ Hs) in Hin. apply elem_of_dom in Hin as [? ?].
      congruence.
    - rewrite app_assoc, app_comm_cons in Hnd.
      apply NoDup_app in Hnd as (Hnd1 & Hdisj & _).
      split_and!; [| done | rewrite length_app; lia |].
      + intros Hin. eapply Hdisj; [exact Hin | by left].
      + intros a Ha. apply elem_of_app. by left. }
  assert (∀ b j, b ≠ x → fwd h2 b j = fwd h b j) as Hf2.
  { intros b j Hb. subst h2. by apply fwd_insert_ne. }
  assert (∀ b, b ≠ x → info h2 b = info h b) as Hi2.
  { intros b Hb. subst h2. by apply info_insert_ne. }
  assert (info h2 x = Some (Some it, Z.to_nat lvl)) as Hix.
  { subst h2. rewrite info_insert_eq. simpl. by rewrite Hnlen. }
  assert (∀ b, b ∈ hd :: (c_loc <$> la ++ lb) → b ≠ x) as Hold.
  { intros b Hb ->. apply Hxnew. rewrite app_comm_cons. apply elem_of_app. by left. }
  assert (∀ j, p j ≠ x) as Hpx.
  { intros j. apply Hold. subst p. apply lastloc_lane_elem. }
  assert (∀ j, (j < Z.to_nat (maxLevel sl))%nat →
               chain h2 j hd (lane j la ++ lane j lb)) as Hch2.
  { intros j Hj. destruct (Shape_chain_split _ _ _ _ _ _ j Hs Hj) as [Hch _].
    eapply chain_ext; [| done]. intros b Hb. apply Hf2, Hold.
    rewrite <- lane_app in Hb. apply elem_of_cons in Hb as [-> | Hb]; [by left |].
    right. by eapply lane_locs_elem. }
  destruct (splice_loop_spec x prev2 p (Z.to_nat lvl) 0 h2) as (h3 & Hsplice & Hfwd3 & Hinfo3).
  { intros j Hj. split_and!; [apply Hprev2; lia | done | |].
    - pose proof (Hch2 j ltac:(lia)) as Hch. apply chain_app, chain_fwd in Hch.
      subst p. simpl. by rewrite Hch.
    - subst h2. rewrite fwd_insert_eq. apply lookup_lt_is_Some_2.
      subst n2. simpl. unfold len in Hnlen. lia. }
  rewrite Hsplice, bind_Ok.
  eexists _, _, x, (Z.to_nat lvl), fl0. split; [done |].
  split; [| split; [done |]; split].
  - constructor; simpl.
    + apply (sh_header _ _ _ _ _ Hs).
    + rewrite Hinfo3, Hi2; [apply (sh_hd _ _ _ _ _ Hs) | apply Hold; by left].
    + lia.
    + done.
    + rewrite fmap_app. simpl. rewrite <- Permutation_middle. simpl.
      rewrite perm_swap. apply NoDup_cons. split; [| by rewrite <- fmap_app].
      by rewrite <- fmap_app.
    + assert (∀ c, c ∈ la ++ lb → held h c → held h3 c) as Hkeep.
      { intros c Hc. apply held_ext. rewrite Hinfo3. apply Hi2, Hold.
        right. by apply list_elem_of_fmap_2. }
      pose proof (sh_held _ _ _ _ _ Hs) as Hheld. rewrite Forall_forall in Hheld.
      apply Forall_forall. intros c Hc.
      apply elem_of_app in Hc as [Hc | Hc].
      * apply Hkeep; [| apply Hheld]; apply elem_of_app; by left.
      * apply elem_of_cons in Hc as [-> | Hc].
        -- unfold held. simpl. by rewrite Hinfo3.
        -- apply Hkeep; [| apply Hheld]; apply elem_of_app; by right.
    + pose proof (sh_lvls _ _ _ _ _ Hs) as Hl. rewrite Forall_forall in Hl.
      apply Forall_forall. intros c Hc.
      assert (c ∈ la ++ lb ∨ c = Cell x it (Z.to_nat lvl)) as [Hc' | ->].
      { rewrite !elem_of_app, elem_of_cons in *. tauto. }
      * specialize (Hl c Hc'). lia.
      * simpl. lia.
    + intros i Hi. destruct (decide (i < Z.to_nat lvl)%nat) as [Hin | Hout].
      * rewrite lane_app, lane_cons_in by done.
        eapply (chain_insert h2 h3); [by apply Hch2 | | | | |].
        -- rewrite <- lane_app. apply NoDup_lane.
           by apply (Shape_nodup_cells _ _ _ _ _ Hs).
        -- simpl. intros Hx. eapply Hold; [| done].
           rewrite <- lane_app in Hx. apply elem_of_cons in Hx as [-> | Hx]; [by left |].
           right. by eapply lane_locs_elem.
        -- simpl. rewrite Hfwd3. rewrite decide_True by lia.
           rewrite decide_False by apply Hpx. by rewrite decide_True.
        -- simpl. rewrite Hfwd3. rewrite decide_True by lia. by rewrite decide_True.
        -- simpl. intros b Hbx Hbp. rewrite Hfwd3. rewrite decide_True by lia.
           by rewrite !decide_False.
      * rewrite lane_app, lane_cons_out by done.
        eapply chain_ext; [| by apply Hch2]. intros b Hb.
        rewrite Hfwd3. rewrite decide_False by lia. done.
    + intros Htop. apply Exists_app.
      destruct (Z.ltb_spec (level sl) lvl) as [Hup | Hstay].
      * right. apply Exists_cons_hd. simpl. lia.
      * replace level' with (level sl) by lia.
        pose proof (sh_top _ _ _ _ _ Hs ltac:(lia)) as Hex.
        apply Exists_app in Hex as [Hex | Hex]; [by left |].
        right. by apply Exists_cons_tl.
    + rewrite (sh_length _ _ _ _ _ Hs), wrap_int_add. f_equal.
      rewrite !length_app. simpl. lia.
    + done.
    + pose proof (sh_free_cap _ _ _ _ _ Hs) as [Hcap Hlen]. split; [done | lia].
    + pose proof (sh_free_dom _ _ _ _ _ Hs) as Hdom. rewrite Forall_forall in Hdom.
      apply Forall_forall. intros a Ha. apply info_is_Some.
      rewrite Hinfo3, Hi2; [apply info_is_Some, Hdom, Hsub, Ha |].
      intros ->. apply Hxnew. rewrite app_comm_cons. apply elem_of_app. by right.
  - destruct Hcases as [(-> & -> & Hfresh & _) | (-> & _)]; [left | right]; done.
  - split.
    + intros b Hb. rewrite Hinfo3. by apply Hi2.
    + intros b j Hout Hb. rewrite Hfwd3, <- (Hf2 b j Hb).
      case_decide; [| done]. rewrite decide_False by done.
      rewrite decide_False; [done |]. intros ->. apply Hout. subst p. apply lastloc_lane_elem.
Qed.

Lemma insert_new_spec h sl hd la lb fl it (prev : list ptr) :
  Shape h sl hd (la ++ lb) fl →
  length prev = Z.to_nat (maxLevel sl) →
  (∀ i, (i < Z.to_nat (level sl))%nat →
        prev !! i = Some (Some (lastloc hd (lane i la)))) →
  ∃ h' sl' x lvl fl',
    insert_new h sl (Some it) prev = Ok (h', sl')
    ∧ Shape h' sl' hd (la ++ Cell x it lvl :: lb) fl'
    ∧ maxLevel sl' = maxLevel sl
    ∧ ((fl = [] ∧ fl' = [] ∧ h !! x = None) ∨ fl = fl' ++ [x])
    ∧ (∀ b, b ≠ x → info h' b = info h b).
Proof.
  intros Hs Hplen Hplow.
  destruct (insert_new_frame h sl hd la lb fl it prev Hs Hplen Hplow)
    as (h' & sl' & x & lvl & fl' & Hins & Hs' & Hm & Hfl & Hinfo & _).
  by exists h', sl', x, lvl, fl'.
Qed.

End InsertProofs.

Section InsertSpec.

Context {T : Type} `{!Item T}.
Implicit Types (h : gmap loc (node T)) (c : cell T) (cs ns la lb : list (cell T)).
Implicit Types (a b x : loc) (i j : nat) (key : T) (fl : list loc).

Lemma chain_locs h i a cs cs' :
  c_loc <$> cs = c_loc <$> cs' → chain h i a cs → chain h i a cs'.
Proof.
  revert a cs'. induction cs as [|c cs IH]; intros a cs' E; destruct cs' as [|c' cs']; try done.
  rewrite !fmap_cons in E. injection E as Hc E. simpl. rewrite Hc. intros [? ?]. split; [done |].
  by apply IH.
Qed.

(** ** Insert: the branch that overwrites the item of a node *)

Lemma insert_update_Shape h sl hd la c lb fl (n : node T) it :
  Shape h sl hd (la ++ c :: lb) fl → h !! c_loc c = Some n →
  Shape (<[c_loc c := {| item := Some it; forward := forward n |}]> h) sl hd
        (la ++ Cell (c_loc c) it (c_lvl c) :: lb) fl.
Proof.
  intros Hs Hn. set (h' := <[c_loc c := _]> h).
  assert (∀ b j, fwd h' b j = fwd h b j) as Hfwd.
  { intros b j. subst h'. destruct (decide (c_loc c = b)) as [<- | Hne].
    - rewrite fwd_insert_eq. simpl. unfold fwd. by rewrite Hn.
    - by apply fwd_insert_ne. }
  assert (∀ b, b ≠ c_loc c → info h' b = info h b) as Hinfo.
  { intros b Hb. subst h'. by apply info_insert_ne. }
  assert (held h c) as Hc.
  { pose proof (sh_held _ _ _ _ _ Hs) as Hheld.
    apply Forall_app in Hheld as [_ Hheld]. by apply Forall_cons in Hheld as [? _]. }
  apply info_Some in Hc as (n' & Hn' & _ & Hlen). rewrite Hn in Hn'. injection Hn' as <-.
  assert (info h' (c_loc c) = Some (Some it, c_lvl c)) as Hic.
  { subst h'. rewrite info_insert_eq. simpl. by rewrite Hlen. }
  pose proof (Shape_nodup_cells _ _ _ _ _ Hs) as Hnd.
  assert (∀ b, b ∈ hd :: (c_loc <$> la ++ lb) → b ≠ c_loc c) as Hother.
  { intros b Hb ->. rewrite fmap_app in Hnd. simpl in Hnd.
    rewrite <- Permutation_middle, perm_swap in Hnd. apply NoDup_cons in Hnd as [Hnd _].
    by rewrite <- fmap_app in Hnd. }
  constructor.
  - apply (sh_header _ _ _ _ _ Hs).
  - rewrite Hinfo; [apply (sh_hd _ _ _ _ _ Hs) | apply Hother; by left].
  - apply (sh_level _ _ _ _ _ Hs).
  - apply (sh_max _ _ _ _ _ Hs).
  - pose proof (sh_nodup _ _ _ _ _ Hs) as Hnd'. by rewrite !fmap_app in *.
  - pose proof (sh_held _ _ _ _ _ Hs) as Hheld.
    apply Forall_app in Hheld as [Hla Hlb]. apply Forall_cons in Hlb as [_ Hlb].
    assert (∀ l, Forall (held h) l → (∀ c', c' ∈ l → c_loc c' ∈ c_loc <$> la ++ lb) →
                 Forall (held h') l) as Hkeep.
    { intros l Hl Hsub. rewrite Forall_forall in *. intros c' Hc'.
      eapply held_ext; [| by apply Hl]. apply Hinfo, Hother. right. by apply Hsub. }
    apply Forall_app. split; [| apply Forall_cons; split].
    + apply Hkeep; [done |]. intros c' Hc'. apply list_elem_of_fmap_2.
      apply elem_of_app. by left.
    + done.
    + apply Hkeep; [done |]. intros c' Hc'. apply list_elem_of_fmap_2.
      apply elem_of_app. by right.
  - pose proof (sh_lvls _ _ _ _ _ Hs) as Hl.
    apply Forall_app in Hl as [Hla Hlb]. apply Forall_cons in Hlb as [Hc Hlb].
    apply Forall_app. split; [done |]. by apply Forall_cons.
  - intros i Hi. pose proof (sh_chain _ _ _ _ _ Hs i Hi) as Hch.
    eapply chain_ext; [intros b _; apply Hfwd |].
    eapply chain_locs; [| done]. rewrite !lane_app.
    destruct (decide (i < c_lvl c)%nat) as [Hin | Hout].
    + rewrite !lane_cons_in by done. by rewrite !fmap_app.
    + rewrite !lane_cons_out by done. done.
  - intros Htop. pose proof (sh_top _ _ _ _ _ Hs Htop) as Hex.
    apply Exists_app in Hex as [Hex | Hex]; apply Exists_app; [by left | right].
    apply Exists_cons in Hex as [Hex | Hex]; [by apply Exists_cons_hd | by apply Exists_cons_tl].
  - rewrite (sh_length _ _ _ _ _ Hs). by rewrite !length_app.
  - apply (sh_free _ _ _ _ _ Hs).
  - apply (sh_free_cap _ _ _ _ _ Hs).
  - pose proof (sh_free_dom _ _ _ _ _ Hs) as Hdom.
    eapply Forall_impl; [done |]. simpl. intros a Ha. subst h'.
    destruct (decide (c_loc c = a)) as [<- | Hne].
    + by rewrite lookup_insert_eq.
    + by rewrite lookup_insert_ne.
Qed.

(** ** Insert *)

(** [Insert] on a state of the right shape returns, and the new state has
    the right shape again: either the first node the descent did not pass
    holds an item that is not greater, and its item is overwritten, or a
    new cell stands between the two parts.  No other node changes its
    item or its number of slots, and no node outside the list changes a
    slot. *)
Lemma Insert_frame h sl hd ns fl it :
  Shape h sl hd ns fl →
  ∃ la lb,
    ns = la ++ lb
    ∧ (∀ c, last la = Some c → Less (c_item c) it = true)
    ∧ stops it lb
    ∧ ((∃ c lb0 cn,
          lb = c :: lb0 ∧ Less it (c_item c) = false
          ∧ h !! c_loc c = Some cn
          ∧ Insert h sl (Some it)
            = Ok (<[c_loc c := {| item := Some it; forward := forward cn |}]> h, sl)
          ∧ Shape (<[c_loc c := {| item := Some it; forward := forward cn |}]> h) sl hd
                  (la ++ Cell (c_loc c) it (c_lvl c) :: lb0) fl)
       ∨ ((∀ c, head lb = Some c → Less it (c_item c) = true)
          ∧ ∃ h' sl' x lvl fl',
              Insert h sl (Some it) = Ok (h', sl')
              ∧ Shape h' sl' hd (la ++ Cell x it lvl :: lb) fl'
              ∧ maxLevel sl' = maxLevel sl
              ∧ ((fl = [] ∧ fl' = [] ∧ h !! x = None) ∨ fl = fl' ++ [x])
              ∧ (∀ b, b ≠ x → info h' b = info h b)
              ∧ (∀ b j, b ∉ hd :: (c_loc <$> ns) → b ≠ x → fwd h' b j = fwd h b j))).
Proof.
  intros Hs.
  destruct (descent_spec h sl hd ns fl it Hs)
    as (la & lb & prev & Hns & Hloop & Hplen & Hplow & Hphigh & Hlast & Hstop & Hnext).
  pose proof (sh_level _ _ _ _ _ Hs) as Hlevel.
  pose proof (sh_max _ _ _ _ _ Hs) as Hmax.
  exists la, lb. split_and!; try done.
  assert (∀ upd : bool, upd = false →
    Insert h sl (Some it) =
    (upd' ← Ok upd; if upd' : bool then Panic NilDereference
                    else insert_new h sl (Some it) prev) →
    ∃ h' sl' x lvl fl',
      Insert h sl (Some it) = Ok (h', sl')
      ∧ Shape h' sl' hd (la ++ Cell x it lvl :: lb) fl'
      ∧ maxLevel sl' = maxLevel sl
      ∧ ((fl = [] ∧ fl' = [] ∧ h !! x = None) ∨ fl = fl' ++ [x])
      ∧ (∀ b, b ≠ x → info h' b = info h b)
      ∧ (∀ b j, b ∉ hd :: (c_loc <$> ns) → b ≠ x → fwd h' b j = fwd h b j)) as Hnewcase.
  { intros upd -> ->. rewrite bind_Ok. subst ns.
    destruct (insert_new_frame h sl hd la lb fl it prev Hs Hplen Hplow)
      as (h' & sl' & x & lvl & fl' & Hins & Hs' & Hm & Hfl & Hinfo & Hfwd).
    exists h', sl', x, lvl, fl'. done. }
  apply fwd_Some in Hnext as (xn & Hxn & Hx0).
  assert (Insert h sl (Some it) =
    (x ← Ok (c_loc <$> head lb);
     upd ← match x with
           | None => Ok false
           | Some _ => xn ← load h x; b ← call_Less (Some it) (item xn); Ok (negb b)
           end;
     if upd : bool then
       xn ← load h x;
       h' ← store h x {| item := Some it; forward := forward xn |};
       Ok (h', sl)
     else insert_new h sl (Some it) prev)) as Hunfold.
  { unfold Insert. rewrite new_prev_Ok by lia. rewrite bind_Ok, Hloop, bind_Ok.
    cbn beta iota. rewrite (load_Ok _ _ _ Hxn), bind_Ok, (index_Ok _ _ _ Hx0). done. }
  rewrite bind_Ok in Hunfold.
  set (res := Insert h sl (Some it)) in *.
  destruct lb as [|c lb0].
  - right. split; [done |]. apply (Hnewcase false); [done |]. by rewrite Hunfold.
  - change (c_loc <$> head (c :: lb0)) with (Some (c_loc c)) in Hunfold.
    cbv beta iota in Hunfold. simpl in Hstop.
    assert (held h c) as Hc.
    { pose proof (sh_held _ _ _ _ _ Hs) as Hheld. rewrite Hns in Hheld.
      apply Forall_app in Hheld as [_ Hheld]. by apply Forall_cons in Hheld as [? _]. }
    apply info_Some in Hc as (cn & Hcn & Hitem & Hclen).
    rewrite (load_Ok _ _ _ Hcn), !bind_Ok, Hitem in Hunfold. cbn [call_Less] in Hunfold.
    rewrite !bind_Ok in Hunfold.
    destruct (Less it (c_item c)) eqn:Hlt; simpl in Hunfold.
    + right. split; [by intros ? [= <-] |].
      apply (Hnewcase false); [done |]. by rewrite Hunfold.
    + left. exists c, lb0, cn. split_and!; [done | done | done | exact Hunfold |].
      subst ns. by apply insert_update_Shape.
Qed.

Lemma Insert_spec h sl hd ns fl it :
  Shape h sl hd ns fl →
  ∃ la lb,
    ns = la ++ lb
    ∧ (∀ c, last la = Some c → Less (c_item c) it = true)
    ∧ stops it lb
    ∧ ((∃ c lb0 h',
          lb = c :: lb0 ∧ Less it (c_item c) = false
          ∧ Insert h sl (Some it) = Ok (h', sl)
          ∧ Shape h' sl hd (la ++ Cell (c_loc c) it (c_lvl c) :: lb0) fl
          ∧ dom h' = dom h)
       ∨ ((∀ c, head lb = Some c → Less it (c_item c) = true)
          ∧ ∃ h' sl' x lvl fl',
              Insert h sl (Some it) = Ok (h', sl')
              ∧ Shape h' sl' hd (la ++ Cell x it lvl :: lb) fl'
              ∧ maxLevel sl' = maxLevel sl
              ∧ ((fl = [] ∧ fl' = [] ∧ h !! x = None) ∨ fl = fl' ++ [x]))).
Proof.
  intros Hs.
  destruct (Insert_frame h sl hd ns fl it Hs) as (la & lb & Hns & Hlast & Hstop & Hcase).
  exists la, lb. split_and!; try done.
  destruct Hcase as [(c & lb0 & cn & Hlb & Hlt & Hcn & Hins & Hs')
                    | (Hhead & h' & sl' & x & lvl & fl' & Hins & Hs' & Hm & Hfl & _)].
  - left. exists c, lb0. eexists. split_and!; [done | done | exact Hins | done |].
    apply dom_insert_lookup_L. by exists cn.
  - right. split; [done |]. by exists h', sl', x, lvl, fl'.
Qed.

End InsertSpec.

Section DeleteSpec.

Context {T : Type} `{!Item T}.
Implicit Types (h : gmap loc (node T)) (c : cell T) (cs ns la lb : list (cell T)).
Implicit Types (a b x : loc) (i j : nat) (key : T) (fl : list loc).

Lemma chain_nil_inv h i a cs : chain h i a cs → fwd h a i = Some None → cs = [].
Proof. destruct cs; [done |]. simpl. intros [E _] E'. congruence. Qed.

Lemma chain_cons_inv h i a cs b :
  chain h i a cs → fwd h a i = Some (Some b) → ∃ c cs', cs = c :: cs' ∧ c_loc c = b.
Proof.
  destruct cs as [|c cs']; simpl.
  - intros E E'. congruence.
  - intros [E _] E'. exists c, cs'. split; [done | congruence].
Qed.

Lemma NoDup_remove_mid (hd x : loc) (l1 l2 fl : list loc) :
  NoDup (hd :: (l1 ++ x :: l2) ++ fl) →
  NoDup (hd :: (l1 ++ l2) ++ fl) ∧ x ∉ hd :: (l1 ++ l2) ++ fl.
Proof.
  intros Hnd.
  assert (hd :: (l1 ++ x :: l2) ++ fl ≡ₚ x :: hd :: (l1 ++ l2) ++ fl) as HP.
  { rewrite <- !app_assoc. simpl. rewrite <- Permutation_middle. apply perm_swap. }
  rewrite HP in Hnd. apply NoDup_cons in Hnd. tauto.
Qed.

(** Putting a node that is not part of the list into the pool. *)
Lemma Shape_release h sl hd ns fl x (n' : node T) :
  Shape h sl hd ns fl →
  x ∉ hd :: ((c_loc <$> ns) ++ fl) →
  (length fl < fl_cap (sl_freelist sl))%nat →
  Shape (<[x := n']> h)
        {| header := header sl; maxLevel := maxLevel sl; level := level sl;
           sl_freelist := {| freelist := Some <$> (fl ++ [x]);
                             fl_cap := fl_cap (sl_freelist sl) |};
           sl_length := sl_length sl; random := random sl |}
        hd ns (fl ++ [x]).
Proof.
  intros Hs Hx Hroom.
  assert (∀ b, b ∈ hd :: (c_loc <$> ns) → b ≠ x) as Hold.
  { intros b Hb ->. apply Hx. rewrite app_comm_cons. apply elem_of_app. by left. }
  constructor; simpl.
  - apply (sh_header _ _ _ _ _ Hs).
  - rewrite info_insert_ne; [apply (sh_hd _ _ _ _ _ Hs) |].
    intros ->. eapply Hold; [| done]. by left.
  - apply (sh_level _ _ _ _ _ Hs).
  - apply (sh_max _ _ _ _ _ Hs).
  - rewrite app_assoc, app_comm_cons. apply NoDup_app. split_and!.
    + apply (sh_nodup _ _ _ _ _ Hs).
    + intros b Hb Hbx. apply list_elem_of_singleton in Hbx as ->. done.
    + apply NoDup_singleton.
  - pose proof (sh_held _ _ _ _ _ Hs) as Hheld. rewrite Forall_forall in *.
    intros c Hc. eapply held_ext; [| by apply Hheld].
    apply info_insert_ne. intros ->. eapply Hold; [| done].
    right. by apply list_elem_of_fmap_2.
  - apply (sh_lvls _ _ _ _ _ Hs).
  - intros i Hi. eapply chain_ext; [| by apply (sh_chain _ _ _ _ _ Hs)].
    intros b Hb. apply fwd_insert_ne. intros ->. eapply Hold; [| done].
    apply elem_of_cons in Hb as [-> | Hb]; [by left |].
    right. by eapply lane_locs_elem.
  - apply (sh_top _ _ _ _ _ Hs).
  - apply (sh_length _ _ _ _ _ Hs).
  - done.
  - pose proof (sh_free_cap _ _ _ _ _ Hs) as [Hcap Hlen]. split; [done |].
    rewrite length_app. simpl. lia.
  - apply Forall_app. split.
    + pose proof (sh_free_dom _ _ _ _ _ Hs) as Hdom.
      eapply Forall_impl; [done |]. simpl. intros a Ha.
      destruct (decide (x = a)) as [<- | Hne].
      * by rewrite lookup_insert_eq.
      * by rewrite lookup_insert_ne.
    + apply Forall_singleton. by rewrite lookup_insert_eq.
Qed.

(** ** Delete: the branch that unlinks a node *)

(** The node is unlinked; the other nodes keep their item and their
    number of slots, nodes outside the list keep their slots as well, and
    the node that went into the pool is cleared. *)
Lemma delete_found_frame h sl hd la c lb fl (prev : list ptr) :
  Shape h sl hd (la ++ c :: lb) fl →
  (∀ i, (i < Z.to_nat (level sl))%nat →
        prev !! i = Some (Some (lastloc hd (lane i la)))) →
  ∃ h' sl' fl',
    delete_found h sl (Some (c_loc c)) prev = Ok (true, h', sl')
    ∧ Shape h' sl' hd (la ++ lb) fl'
    ∧ maxLevel sl' = maxLevel sl
    ∧ (fl' = fl ++ [c_loc c] ∧ cleared h' (c_loc c)
         ∧ info h' (c_loc c) = Some (None, c_lvl c)
       ∨ fl' = fl ∧ length fl = Z.to_nat DefaultFreeListSize
         ∧ info h' (c_loc c) = info h (c_loc c)
         ∧ (∀ j, fwd h' (c_loc c) j = fwd h (c_loc c) j))
    ∧ (∀ b, b ≠ c_loc c → info h' b = info h b)
    ∧ (∀ b j, b ∉ hd :: (c_loc <$> la ++ c :: lb) → fwd h' b j = fwd h b j)
    ∧ dom h' = dom h.
Proof.
  intros Hs Hplow.
  pose proof (sh_level _ _ _ _ _ Hs) as Hlevel.
  pose proof (sh_max _ _ _ _ _ Hs) as Hmax.
  pose proof (Shape_nodup_cells _ _ _ _ _ Hs) as Hnd.
  set (x := c_loc c). set (p := λ j, lastloc hd (lane j la)).
  assert (1 ≤ c_lvl c ≤ Z.to_nat (level sl))%nat as Hclvl.
  { pose proof (sh_lvls _ _ _ _ _ Hs) as Hl. apply Forall_app in Hl as [_ Hl].
    by apply Forall_cons in Hl as [? _]. }
  assert (NoDup (x :: hd :: (c_loc <$> la ++ lb))) as Hndx.
  { rewrite fmap_app in Hnd. simpl in Hnd.
    rewrite <- Permutation_middle, perm_swap in Hnd. by rewrite fmap_app. }
  assert (∀ b, b ∈ hd :: (c_loc <$> la ++ lb) → b ≠ x) as Hother.
  { intros b Hb ->. by apply NoDup_cons in Hndx as [? _]. }
  assert (∀ j, p j ≠ x) as Hpx.
  { intros j. apply Hother. subst p. apply lastloc_lane_elem. }
  destruct (unsplice_loop_spec x prev p (c_lvl c) (Z.to_nat (level sl)) 0 h)
    as (h1 & Hunsplice & Hfwd1 & Hinfo1).
  { intros j Hj.
    destruct (Shape_chain_split _ _ _ _ _ _ j Hs ltac:(lia)) as [Hch Hnext].
    split_and!; [apply Hplow; lia | done | |].
    - intros Hjt. rewrite lane_cons_in in Hch, Hnext by done. split; [done |].
      apply chain_app in Hch. simpl in Hch. destruct Hch as [_ Hch].
      apply chain_fwd in Hch. unfold x. by rewrite Hch.
    - intros Hjt. rewrite lane_cons_out in Hnext by lia.
      eexists. split; [exact Hnext |].
      destruct (head (lane j lb)) as [c'|] eqn:Hhd; [| done]. simpl.
      intros [= Heq]. apply (Hother (c_loc c')); [| done].
      right. apply list_elem_of_fmap_2. apply elem_of_app. right.
      apply head_Some_elem_of in Hhd. by apply lane_elem in Hhd as [? _]. }
  assert (∀ j, (j < Z.to_nat (maxLevel sl))%nat →
               chain h1 j hd (lane j (la ++ lb))) as Hch1.
  { intros j Hj. destruct (Shape_chain_split _ _ _ _ _ _ j Hs Hj) as [Hch _].
    rewrite lane_app. destruct (decide (j < c_lvl c)%nat) as [Hin | Hout].
    - rewrite lane_cons_in in Hch by done.
      eapply (chain_delete h h1); [done | | |].
      + rewrite <- (lane_cons_in j c lb) by done.
        rewrite <- lane_app. by apply NoDup_lane.
      + rewrite Hfwd1. rewrite decide_True; [done |]. repeat split; try done; lia.
      + intros b Hb. rewrite Hfwd1. rewrite decide_False; [done |]. by intros (_ & _ & ?).
    - rewrite lane_cons_out in Hch by done.
      eapply chain_ext; [| done]. intros b Hb. rewrite Hfwd1.
      rewrite decide_False; [done |]. intros (_ & ? & _). lia. }
  assert (∀ j, p j ∈ hd :: (c_loc <$> la ++ c :: lb)) as Hframe.
  { intros j. subst p. apply lastloc_lane_elem. }
  assert (dom h1 = dom h) as Hdom1.
  { apply set_eq. intros b. rewrite !elem_of_dom, <- !info_is_Some. by rewrite Hinfo1. }
  pose proof (sh_hd _ _ _ _ _ Hs) as Hhd. rewrite <- Hinfo1 in Hhd.
  apply info_Some in Hhd as (hn & Hhn & Hhitem & Hhlen).
  destruct (shrink_loop_spec h1 hd hn Hhn (Z.to_nat (level sl - 1)) (level sl))
    as (level' & Hshrink & Hlevel' & Hnil & Htop); [lia | unfold DefaultMaxLevel in *; lia | lia |].
  assert (held h c) as Hc.
  { pose proof (sh_held _ _ _ _ _ Hs) as Hheld.
    apply Forall_app in Hheld as [_ Hheld]. by apply Forall_cons in Hheld as [? _]. }
  unfold held in Hc. rewrite <- Hinfo1 in Hc.
  apply info_Some in Hc as (xn & Hxn & _ & Hxlen).
  set (sl1 := {| header := header sl; maxLevel := maxLevel sl; level := level';
                 sl_freelist := sl_freelist sl;
                 sl_length := wrap_int (sl_length sl - 1); random := random sl |}).
  assert (Shape h1 sl1 hd (la ++ lb) fl) as Hs1.
  { constructor; simpl.
    - apply (sh_header _ _ _ _ _ Hs).
    - rewrite Hinfo1. apply (sh_hd _ _ _ _ _ Hs).
    - lia.
    - done.
    - pose proof (sh_nodup _ _ _ _ _ Hs) as Hnd'.
      rewrite fmap_app, fmap_cons in Hnd'.
      apply NoDup_remove_mid in Hnd' as [Hnd' _]. by rewrite fmap_app.
    - pose proof (sh_held _ _ _ _ _ Hs) as Hheld.
      apply Forall_app in Hheld as [Hla Hlb]. apply Forall_cons in Hlb as [_ Hlb].
      apply Forall_app. split; (eapply Forall_impl; [done |]); simpl;
        intros c' Hc'; (apply (held_ext h h1); [apply Hinfo1 | done]).
    - assert (∀ c', c' ∈ la ++ lb → (c_lvl c' ≤ Z.to_nat level')%nat) as Hbound.
      { intros c' Hc'. destruct (decide (level' = level sl)) as [-> | Hne].
        - pose proof (sh_lvls _ _ _ _ _ Hs) as Hl. rewrite Forall_forall in Hl.
          apply Hl. rewrite !elem_of_app, elem_of_cons in *. tauto.
        - pose proof (Hnil (Z.to_nat level') ltac:(lia)) as Hz.
          pose proof (Hch1 (Z.to_nat level') ltac:(lia)) as Hch.
          apply chain_nil_inv in Hch; [| apply fwd_Some; eauto].
          apply lane_nil_inv in Hch. rewrite Forall_forall in Hch. by apply Hch. }
      pose proof (sh_lvls _ _ _ _ _ Hs) as Hl. rewrite Forall_forall in Hl.
      apply Forall_forall. intros c' Hc'. split; [| by apply Hbound].
      apply Hl. rewrite !elem_of_app, elem_of_cons in *. tauto.
    - done.
    - intros Hgt. destruct (Htop Hgt) as [a Ha].
      pose proof (Hch1 (Z.to_nat (level' - 1)) ltac:(lia)) as Hch.
      eapply chain_cons_inv in Hch as (c' & cs' & Hlane & _); [| apply fwd_Some; eauto].
      assert (c' ∈ lane (Z.to_nat (level' - 1)) (la ++ lb)) as Hc' by (rewrite Hlane; by left).
      apply lane_elem in Hc' as [Hc' Hlv]. apply Exists_exists. exists c'. split; [done |].
      assert (c_lvl c' ≤ Z.to_nat level')%nat; [| lia].
      destruct (decide (level' = level sl)) as [-> | Hne].
      + pose proof (sh_lvls _ _ _ _ _ Hs) as Hl. rewrite Forall_forall in Hl.
        apply Hl. rewrite !elem_of_app, elem_of_cons in *. tauto.
      + pose proof (Hnil (Z.to_nat level') ltac:(lia)) as Hz.
        pose proof (Hch1 (Z.to_nat level') ltac:(lia)) as Hch'.
        apply chain_nil_inv in Hch'; [| apply fwd_Some; eauto].
        apply lane_nil_inv in Hch'. rewrite Forall_forall in Hch'. by apply Hch'.
    - rewrite (sh_length _ _ _ _ _ Hs), <- Z.add_opp_r, wrap_int_add. f_equal.
      rewrite !length_app. simpl. lia.
    - apply (sh_free _ _ _ _ _ Hs).
    - apply (sh_free_cap _ _ _ _ _ Hs).
    - pose proof (sh_free_dom _ _ _ _ _ Hs) as Hdom.
      eapply Forall_impl; [done |]. simpl. intros a Ha.
      apply info_is_Some. rewrite Hinfo1. by apply info_is_Some. }
  rewrite <- (sh_header _ _ _ _ _ Hs) in Hshrink.
  unfold delete_found. rewrite Hunsplice, bind_Ok, Hshrink, bind_Ok.
  pose proof (sh_free_cap _ _ _ _ _ Hs) as [Hcap Hfllen].
  destruct (freeNode_spec h1 (sl_freelist sl) fl x xn (sh_free _ _ _ _ _ Hs) Hxn)
    as [[Hroom Hfree] | [Hfull Hfree]]; rewrite Hfree, bind_Ok; cbn beta iota.
  - eexists _, _, (fl ++ [x]). split; [done |]. split; [| split; [done |]].
    { apply (Shape_release h1 sl1 hd (la ++ lb) fl x); [done | | done].
      pose proof (sh_nodup _ _ _ _ _ Hs) as Hnd'.
      rewrite fmap_app, fmap_cons in Hnd'.
      apply NoDup_remove_mid in Hnd' as [_ Hnx]. by rewrite fmap_app. }
    split_and!.
    + left. split; [done |]. split.
      * eexists. split; [apply lookup_insert_eq |].
        split; [done |]. cbn [forward]. rewrite clear_elems.
        apply Forall_forall. by intros ? [-> _]%elem_of_replicate.
      * rewrite info_insert_eq. cbn [item forward]. by rewrite clear_len, Hxlen.
    + intros b Hb. rewrite info_insert_ne by done. apply Hinfo1.
    + intros b j Hb. rewrite fwd_insert_ne, Hfwd1.
      * rewrite decide_False; [done |]. intros (_ & _ & Heq). apply Hb. subst b. apply Hframe.
      * intros Heq. apply Hb. subst b. right. unfold x. apply list_elem_of_fmap_2.
        apply elem_of_app. right. by left.
    + rewrite dom_insert_lookup_L by (by exists xn). apply Hdom1.
  - eexists _, _, fl. split; [done |]. split; [exact Hs1 |]. split; [done |].
    split_and!.
    + right. split; [done |]. split; [lia |]. split; [apply Hinfo1 |].
      intros j. rewrite Hfwd1. rewrite decide_False; [done |].
      intros (_ & _ & Heq). by apply (Hpx j).
    + intros b Hb. apply Hinfo1.
    + intros b j Hb. rewrite Hfwd1.
      rewrite decide_False; [done |]. intros (_ & _ & Heq). apply Hb. subst b. apply Hframe.
    + apply Hdom1.
Qed.

Lemma delete_found_spec h sl hd la c lb fl (prev : list ptr) :
  Shape h sl hd (la ++ c :: lb) fl →
  (∀ i, (i < Z.to_nat (level sl))%nat →
        prev !! i = Some (Some (lastloc hd (lane i la)))) →
  ∃ h' sl' fl',
    delete_found h sl (Some (c_loc c)) prev = Ok (true, h', sl')
    ∧ Shape h' sl' hd (la ++ lb) fl'
    ∧ maxLevel sl' = maxLevel sl
    ∧ (fl' = fl ++ [c_loc c] ∨ fl' = fl ∧ length fl = Z.to_nat DefaultFreeListSize).
Proof.
  intros Hs Hplow.
  destruct (delete_found_frame h sl hd la c lb fl prev Hs Hplow)
    as (h' & sl' & fl' & Hdel & Hs' & Hm & Hfl & _).
  exists h', sl', fl'. split_and!; try done.
  destruct Hfl as [[? _] | (? & ? & _)]; [by left | by right].
Qed.

(** ** Delete *)

Lemma Delete_frame h sl hd ns fl key :
  Shape h sl hd ns fl →
  ∃ la lb,
    ns = la ++ lb
    ∧ (∀ c, last la = Some c → Less (c_item c) key = true)
    ∧ stops key lb
    ∧ ((∃ c lb0 h' sl' fl',
          lb = c :: lb0 ∧ Less key (c_item c) = false
          ∧ Delete h sl (Some key) = Ok (true, h', sl')
          ∧ Shape h' sl' hd (la ++ lb0) fl'
          ∧ maxLevel sl' = maxLevel sl
          ∧ (fl' = fl ++ [c_loc c] ∧ cleared h' (c_loc c)
               ∧ info h' (c_loc c) = Some (None, c_lvl c)
             ∨ fl' = fl ∧ length fl = Z.to_nat DefaultFreeListSize
               ∧ info h' (c_loc c) = info h (c_loc c)
               ∧ (∀ j, fwd h' (c_loc c) j = fwd h (c_loc c) j))
          ∧ (∀ b, b ≠ c_loc c → info h' b = info h b)
          ∧ (∀ b j, b ∉ hd :: (c_loc <$> ns) → fwd h' b j = fwd h b j)
          ∧ dom h' = dom h
          ∧ searchNode h sl (Some key) = Ok (Some (c_loc c)))
       ∨ ((∀ c, head lb = Some c → Less key (c_item c) = true)
          ∧ Delete h sl (Some key) = Ok (false, h, sl))).
Proof.
  intros Hs.
  destruct (descent_spec h sl hd ns fl key Hs)
    as (la & lb & prev & Hns & Hloop & Hplen & Hplow & Hphigh & Hlast & Hstop & Hnext).
  pose proof (sh_level _ _ _ _ _ Hs) as Hlevel.
  pose proof (sh_max _ _ _ _ _ Hs) as Hmax.
  exists la, lb. split_and!; try done.
  apply fwd_Some in Hnext as (xn & Hxn & Hx0).
  assert (searchNode h sl (Some key) = Ok (c_loc <$> head lb)) as Hnode.
  { unfold searchNode. rewrite (search_loop_prev_loop _ _ _ _ _ _ _ Hloop), bind_Ok.
    by rewrite (load_Ok _ _ _ Hxn), bind_Ok, (index_Ok _ _ _ Hx0). }
  assert (Delete h sl (Some key) =
    (x ← Ok (c_loc <$> head lb);
     found ← match x with
             | None => Ok false
             | Some _ => xn ← load h x; b ← call_Less (Some key) (item xn); Ok (negb b)
             end;
     if found : bool then delete_found h sl x prev else Ok (false, h, sl))) as Hunfold.
  { unfold Delete. rewrite new_prev_Ok by lia. rewrite bind_Ok, Hloop, bind_Ok.
    cbn beta iota. rewrite (load_Ok _ _ _ Hxn), bind_Ok, (index_Ok _ _ _ Hx0). done. }
  rewrite bind_Ok in Hunfold.
  set (res := Delete h sl (Some key)) in *.
  destruct lb as [|c lb0].
  - right. split; [done |]. by rewrite Hunfold.
  - change (c_loc <$> head (c :: lb0)) with (Some (c_loc c)) in Hunfold.
    cbv beta iota in Hunfold. simpl in Hstop.
    assert (held h c) as Hc.
    { pose proof (sh_held _ _ _ _ _ Hs) as Hheld. rewrite Hns in Hheld.
      apply Forall_app in Hheld as [_ Hheld]. by apply Forall_cons in Hheld as [? _]. }
    apply info_Some in Hc as (cn & Hcn & Hitem & Hclen).
    rewrite (load_Ok _ _ _ Hcn), !bind_Ok, Hitem in Hunfold. cbn [call_Less] in Hunfold.
    rewrite !bind_Ok in Hunfold.
    destruct (Less key (c_item c)) eqn:Hlt; simpl in Hunfold.
    + right. split; [by intros ? [= <-] | done].
    + left. subst ns.
      destruct (delete_found_frame h sl hd la c lb0 fl prev Hs Hplow)
        as (h' & sl' & fl' & Hdel & Hs' & Hm & Hfl & Hinfo & Hfwd & Hdom).
      exists c, lb0, h', sl', fl'. split_and!; try done. by rewrite Hunfold.
Qed.

Lemma Delete_spec h sl hd ns fl key :
  Shape h sl hd ns fl →
  ∃ la lb,
    ns = la ++ lb
    ∧ (∀ c, last la = Some c → Less (c_item c) key = true)
    ∧ stops key lb
    ∧ ((∃ c lb0 h' sl' fl',
          lb = c :: lb0 ∧ Less key (c_item c) = false
          ∧ Delete h sl (Some key) = Ok (true, h', sl')
          ∧ Shape h' sl' hd (la ++ lb0) fl'
          ∧ maxLevel sl' = maxLevel sl
          ∧ (fl' = fl ++ [c_loc c] ∨ fl' = fl ∧ length fl = Z.to_nat DefaultFreeListSize))
       ∨ ((∀ c, head lb = Some c → Less key (c_item c) = true)
          ∧ Delete h sl (Some key) = Ok (false, h, sl))).
Proof.
  intros Hs.
  destruct (Delete_frame h sl hd ns fl key Hs) as (la & lb & Hns & Hlast & Hstop & Hcase).
  exists la, lb. split_and!; try done.
  destruct Hcase as [(c & lb0 & h' & sl' & fl' & Hlb & Hlt & Hdel & Hs' & Hm & Hfl & _) | ?];
    [left | by right].
  exists c, lb0, h', sl', fl'. split_and!; try done.
  destruct Hfl as [[? _] | (? & ? & _)]; [by left | by right].
Qed.

End DeleteSpec.

Section Reachable.

Context {T : Type} `{!Item T}.
Implicit Types (h : gmap loc (node T)) (c : cell T) (cs ns la lb : list (cell T)).
Implicit Types (a b x : loc) (i j : nat) (key : T) (fl : list loc).

(** ** The fresh list *)

Lemma NewWithLevel_Ok m seed :
  1 ≤ m ≤ DefaultMaxLevel →
  NewWithLevel (T := T) m seed
  = Ok (<[fresh (dom (∅ : gmap loc (node T))) :=
            {| item := None;
               forward := {| elems := replicate (Z.to_nat m) None; spare := [] |} |}]> ∅,
        {| header := Some (fresh (dom (∅ : gmap loc (node T)))); maxLevel := m; level := 1;
           sl_freelist := {| freelist := []; fl_cap := Z.to_nat DefaultFreeListSize |};
           sl_length := 0; random := seed |}).
Proof.
  intros Hm. unfold NewWithLevel.
  destruct (Z.ltb_spec m 1); [lia |]. destruct (Z.ltb_spec DefaultMaxLevel m); [lia |].
  simpl. rewrite make_Ok by lia. done.
Qed.

Lemma NewWithLevel_Shape m seed h sl :
  NewWithLevel m seed = Ok (h, sl) →
  ∃ hd, Shape h sl hd [] [] ∧ maxLevel sl = m.
Proof.
  intros E.
  assert (1 ≤ m ≤ DefaultMaxLevel) as Hm.
  { unfold NewWithLevel in E.
    destruct (Z.ltb_spec m 1); [done |]. destruct (Z.ltb_spec DefaultMaxLevel m); [done | lia]. }
  rewrite NewWithLevel_Ok in E by done. injection E as <- <-.
  eexists. split; [| done]. constructor; simpl.
  - done.
  - rewrite info_insert_eq. simpl. unfold len. simpl. by rewrite length_replicate.
  - lia.
  - lia.
  - apply NoDup_singleton.
  - constructor.
  - constructor.
  - intros i Hi. simpl. rewrite fwd_insert_eq. simpl. apply lookup_replicate_2. lia.
  - lia.
  - done.
  - done.
  - split; [done | simpl; lia].
  - constructor.
Qed.

(** ** Calls with a nil item *)

Lemma Insert_nil h sl :
  Insert h sl None = Panic (Explicit "nil item being added to SkipList").
Proof. done. Qed.

(** [Delete] with a nil item can only return when it found nothing, and
    then it has changed nothing. *)
Lemma Delete_nil_inv h sl (r : bool) h' sl' :
  Delete h sl None = Ok (r, h', sl') → r = false ∧ h' = h ∧ sl' = sl.
Proof.
  unfold Delete. intros E.
  apply bind_Ok_inv in E as (prev & _ & E).
  apply bind_Ok_inv in E as ([x prev'] & _ & E).
  apply bind_Ok_inv in E as (xn & _ & E).
  apply bind_Ok_inv in E as (y & _ & E).
  apply bind_Ok_inv in E as (found & Hfound & E).
  destruct y as [a|].
  - apply bind_Ok_inv in Hfound as (yn & _ & Hfound). simpl in Hfound. discriminate.
  - injection Hfound as <-. by injection E as <- <- <-.
Qed.

(** ** Every state a program can build has the right shape *)

Lemma reachable_Shape h sl :
  reachable h sl → ∃ hd ns fl, Shape h sl hd ns fl.
Proof.
  induction 1 as [m seed h sl E | h sl it h' sl' _ (hd & ns & fl & Hs) E
                 | h sl it r h' sl' _ (hd & ns & fl & Hs) E].
  - apply NewWithLevel_Shape in E as (hd & Hs & _). eauto.
  - destruct it as [it|]; [| by rewrite Insert_nil in E].
    destruct (Insert_spec h sl hd ns fl it Hs) as (la & lb & _ & _ & _ & Hcase).
    destruct Hcase as [(c & lb0 & h1 & _ & _ & E1 & Hs1 & _)
                      | (_ & h1 & sl1 & x & lvl & fl1 & E1 & Hs1 & _)];
      rewrite E1 in E; injection E as <- <-; eauto.
  - destruct it as [key|].
    + destruct (Delete_spec h sl hd ns fl key Hs) as (la & lb & _ & _ & _ & Hcase).
      destruct Hcase as [(c & lb0 & h1 & sl1 & fl1 & _ & _ & E1 & Hs1 & _) | (_ & E1)];
        rewrite E1 in E; injection E as <- <- <-; eauto.
    + apply Delete_nil_inv in E as (_ & -> & ->). eauto.
Qed.

(** ** Order *)

Lemma cells_sorted_items ns : cells_sorted ns → ascending (c_item <$> ns).
Proof. apply StronglySorted_fmap. auto. Qed.

Context `{!StrictWeak T}.

Lemma less_asym (u v : T) : Less u v = true → Less v u = false.
Proof.
  intros Huv. destruct (Less v u) eqn:Hvu; [| done].
  pose proof (less_trans _ _ _ Huv Hvu) as Huu. by rewrite less_irrefl in Huu.
Qed.

(** An item equal to [v] compares with a third one as [v] does. *)
Lemma eqv_less_r (u v w : T) : eqv u v → Less v w = true → Less u w = true.
Proof.
  intros Huv Hvw. destruct (Less u w) eqn:Huw; [done |]. exfalso.
  destruct (Less w u) eqn:Hwu.
  - pose proof (less_trans _ _ _ Hvw Hwu) as Hvu. destruct Huv as [_ Hvu']. congruence.
  - assert (eqv v w) as [Hvw' _].
    { apply (eqv_trans v u w); [destruct Huv; by split | by split]. }
    congruence.
Qed.

(** The descent splits a sorted list into the cells below the key and the
    cells not below it. *)
Lemma split_sorted key la lb :
  cells_sorted (la ++ lb) →
  (∀ c, last la = Some c → Less (c_item c) key = true) →
  stops key lb →
  Forall (λ c, Less (c_item c) key = true) la
  ∧ Forall (λ c, Less (c_item c) key = false) lb.
Proof.
  intros Hsorted Hlast Hstop.
  apply StronglySorted_app in Hsorted as (_ & Hla & Hlb). split.
  - destruct la as [|c0 la0] using rev_ind; [constructor |].
    specialize (Hlast c0 (last_snoc _ _)).
    apply StronglySorted_app in Hla as (Hcross & _ & _).
    apply Forall_app. split; [| by apply Forall_singleton].
    apply Forall_forall. intros c Hc.
    eapply less_trans; [| exact Hlast]. apply Hcross; [done | by left].
  - destruct lb as [|c0 lb0]; [constructor |]. simpl in Hstop.
    apply StronglySorted_cons in Hlb as [Hrest _].
    constructor; [done |]. eapply Forall_impl; [done |]. simpl. intros c Hc.
    destruct (Less (c_item c) key) eqn:E; [| done].
    pose proof (less_trans _ _ _ Hc E). congruence.
Qed.

(** ** Every state a program can build is sorted *)

Lemma reachable_Inv h sl :
  reachable h sl → ∃ hd ns fl, Shape h sl hd ns fl ∧ cells_sorted ns.
Proof.
  induction 1 as [m seed h sl E | h sl it h' sl' _ (hd & ns & fl & Hs & Hsorted) E
                 | h sl it r h' sl' _ (hd & ns & fl & Hs & Hsorted) E].
  - apply NewWithLevel_Shape in E as (hd & Hs & _).
    exists hd, [], []. split; [done | constructor].
  - destruct it as [it|]; [| by rewrite Insert_nil in E].
    destruct (Insert_spec h sl hd ns fl it Hs) as (la & lb & -> & Hlast & Hstop & Hcase).
    destruct (split_sorted it la lb Hsorted Hlast Hstop) as [Hla Hlb].
    apply StronglySorted_app in Hsorted as (Hcross & Hsla & Hslb).
    destruct Hcase as [(c & lb0 & h1 & -> & Hlt & E1 & Hs1 & _)
                      | (Hhead & h1 & sl1 & x & lvl & fl1 & E1 & Hs1 & _)];
      rewrite E1 in E; injection E as <- <-.
    + exists hd, (la ++ Cell (c_loc c) it (c_lvl c) :: lb0), fl. split; [done |].
      apply Forall_cons in Hlb as [Hc _].
      apply StronglySorted_cons in Hslb as [Hrest Hslb0].
      apply StronglySorted_app_2; [| done |].
      * intros c1 c2 Hc1 Hc2. apply elem_of_cons in Hc2 as [-> | Hc2].
        -- simpl. rewrite Forall_forall in Hla. by apply Hla.
        -- apply Hcross; [done | by right].
      * apply StronglySorted_cons. split; [| done].
        eapply Forall_impl; [done |]. simpl. intros c2 Hc2.
        by apply (eqv_less_r it (c_item c) (c_item c2)).
    + exists hd, (la ++ Cell x it lvl :: lb), fl1. split; [done |].
      apply StronglySorted_app_2; [| done |].
      * intros c1 c2 Hc1 Hc2. apply elem_of_cons in Hc2 as [-> | Hc2].
        -- simpl. rewrite Forall_forall in Hla. by apply Hla.
        -- by apply Hcross.
      * apply StronglySorted_cons. split; [| done]. simpl.
        destruct lb as [|c0 lb0]; [constructor |].
        specialize (Hhead c0 eq_refl).
        apply StronglySorted_cons in Hslb as [Hrest _].
        constructor; [done |]. eapply Forall_impl; [done |]. simpl. intros c2 Hc2.
        by eapply less_trans.
  - destruct it as [key|].
    + destruct (Delete_spec h sl hd ns fl key Hs) as (la & lb & -> & _ & _ & Hcase).
      destruct Hcase as [(c & lb0 & h1 & sl1 & fl1 & -> & _ & E1 & Hs1 & _) | (_ & E1)];
        rewrite E1 in E; injection E as <- <- <-; [| eauto].
      exists hd, (la ++ lb0), fl1. split; [done |].
      apply StronglySorted_app in Hsorted as (Hcross & Hsla & Hslb).
      apply StronglySorted_cons in Hslb as [_ Hslb0].
      apply StronglySorted_app_2; [| done | done].
      intros c1 c2 Hc1 Hc2. apply Hcross; [done | by right].
    + apply Delete_nil_inv in E as (_ & -> & ->). eauto.
Qed.

End Reachable.

Section Observations.

Context {T : Type} `{!Item T}.
Implicit Types (h : gmap loc (node T)) (c : cell T) (cs ns la lb : list (cell T)).
Implicit Types (a b x : loc) (i j : nat) (key : T) (fl : list loc).

Lemma held_load h c :
  held h c → ∃ n, h !! c_loc c = Some n ∧ item n = Some (c_item c).
Proof. intros Hc. apply info_Some in Hc as (n & ? & ? & _). eauto. Qed.

(** ** Traversals *)

Lemma iterate_loop_spec h : ∀ cs a rounds,
  chain h 0 a cs → Forall (held h) cs → (length cs < rounds)%nat →
  iterate_loop rounds h {| it_x := c_loc <$> head cs |} = Ok (Some <$> items_of cs).
Proof.
  induction cs as [|c cs IH]; intros a rounds Hch Hheld Hlen;
    (destruct rounds as [|r]; [simpl in Hlen; lia |]).
  - done.
  - simpl in Hch. destruct Hch as [_ Hch].
    apply Forall_cons in Hheld as [Hc Hheld]. apply held_load in Hc as (n & Hn & Hitem).
    apply chain_fwd in Hch as Hnext. apply fwd_Some in Hnext as (n' & Hn' & Hi).
    rewrite Hn in Hn'. injection Hn' as <-.
    cbn [iterate_loop Valid it_x head fmap option_fmap option_map].
    unfold Value, Next. cbn [it_x].
    rewrite (load_Ok _ _ _ Hn), !bind_Ok, (index_Ok _ _ _ Hi), !bind_Ok.
    rewrite (IH (c_loc c) r Hch Hheld) by (simpl in Hlen; lia).
    rewrite bind_Ok, Hitem. done.
Qed.

Lemma iterate_spec h sl hd ns fl :
  Shape h sl hd ns fl → iterate h sl = Ok (Some <$> items_of ns).
Proof.
  intros Hs. pose proof (sh_level _ _ _ _ _ Hs) as Hlevel.
  pose proof (sh_chain _ _ _ _ _ Hs 0%nat ltac:(lia)) as Hch.
  rewrite (Shape_lane_0 _ _ _ _ _ Hs) in Hch.
  apply chain_fwd in Hch as Hnext. apply fwd_Some in Hnext as (n & Hn & Hi).
  unfold iterate, NewIterator. rewrite (sh_header _ _ _ _ _ Hs).
  rewrite (load_Ok _ _ _ Hn), !bind_Ok, (index_Ok _ _ _ Hi), !bind_Ok.
  eapply iterate_loop_spec; [done | apply (sh_held _ _ _ _ _ Hs) |].
  pose proof (Shape_size _ _ _ _ _ Hs). lia.
Qed.

Lemma lane_loop_spec h i : ∀ cs a rounds,
  chain h i a cs → Forall (held h) cs → (length cs < rounds)%nat →
  lane_loop rounds h (Some a) i = Ok (Some <$> items_of cs).
Proof.
  induction cs as [|c cs IH]; intros a rounds Hch Hheld Hlen;
    (destruct rounds as [|r]; [simpl in Hlen; lia |]).
  - simpl in Hch. apply fwd_Some in Hch as (n & Hn & Hi).
    cbn [lane_loop]. by rewrite (load_Ok _ _ _ Hn), !bind_Ok, (index_Ok _ _ _ Hi).
  - simpl in Hch. destruct Hch as [Hnext Hch].
    apply fwd_Some in Hnext as (n & Hn & Hi).
    apply Forall_cons in Hheld as [Hc Hheld]. apply held_load in Hc as (nc & Hnc & Hitem).
    cbn [lane_loop].
    rewrite (load_Ok _ _ _ Hn), !bind_Ok, (index_Ok _ _ _ Hi), !bind_Ok.
    rewrite (load_Ok _ _ _ Hnc), !bind_Ok.
    rewrite (IH (c_loc c) r Hch Hheld) by (simpl in Hlen; lia).
    rewrite bind_Ok, Hitem. done.
Qed.

Lemma lane_items_spec h sl hd ns fl i :
  Shape h sl hd ns fl → (i < Z.to_nat (maxLevel sl))%nat →
  lane_items h sl i = Ok (Some <$> items_of (lane i ns)).
Proof.
  intros Hs Hi. unfold lane_items. rewrite (sh_header _ _ _ _ _ Hs).
  apply lane_loop_spec; [by apply (sh_chain _ _ _ _ _ Hs) | |].
  - apply Forall_lane, (sh_held _ _ _ _ _ Hs).
  - pose proof (Shape_size _ _ _ _ _ Hs). pose proof (lane_length i ns). lia.
Qed.

Lemma ForEach_loop_spec h rest : ∀ mid a rounds,
  chain h 0 a (mid ++ rest) → Forall (held h) mid →
  NoDup (c_loc <$> mid ++ rest) → (length mid < rounds)%nat →
  ForEach_loop rounds h (c_loc <$> head (mid ++ rest)) (c_loc <$> head rest)
  = Ok (Some <$> items_of mid).
Proof.
  induction mid as [|c mid IH]; intros a rounds Hch Hheld Hnd Hlen;
    (destruct rounds as [|r]; [simpl in Hlen; lia |]).
  - cbn [ForEach_loop app]. by rewrite decide_True.
  - simpl in Hch. destruct Hch as [_ Hch].
    apply Forall_cons in Hheld as [Hc Hheld]. apply held_load in Hc as (n & Hn & Hitem).
    apply chain_fwd in Hch as Hnext. apply fwd_Some in Hnext as (n' & Hn' & Hi).
    rewrite Hn in Hn'. injection Hn' as <-.
    rewrite <- app_comm_cons, fmap_cons in Hnd. apply NoDup_cons in Hnd as [Hfirst Hnd].
    cbn [ForEach_loop]. rewrite <- app_comm_cons.
    cbn [head fmap option_fmap option_map].
    rewrite decide_False.
    + rewrite (load_Ok _ _ _ Hn), !bind_Ok, (index_Ok _ _ _ Hi), !bind_Ok.
      rewrite (IH (c_loc c) r Hch Hheld Hnd) by (simpl in Hlen; lia).
      rewrite bind_Ok, Hitem. done.
    + destruct rest as [|c' rest']; [done |]. simpl. intros [= Heq].
      apply Hfirst. rewrite Heq. apply list_elem_of_fmap_2.
      apply elem_of_app. right. by left.
Qed.

(** ** Search *)

Lemma Search_spec h sl hd ns fl key :
  Shape h sl hd ns fl →
  ∃ la lb,
    ns = la ++ lb
    ∧ (∀ c, last la = Some c → Less (c_item c) key = true)
    ∧ stops key lb
    ∧ searchNode h sl (Some key) = Ok (c_loc <$> head lb)
    ∧ Search h sl (Some key)
      = Ok (match lb with
            | [] => None
            | c :: _ => if Less key (c_item c) then None else Some (c_item c)
            end).
Proof.
  intros Hs.
  destruct (descent_spec h sl hd ns fl key Hs)
    as (la & lb & prev & Hns & Hloop & _ & _ & _ & Hlast & Hstop & Hnext).
  apply search_loop_prev_loop in Hloop.
  apply fwd_Some in Hnext as (xn & Hxn & Hx0).
  exists la, lb. split_and!; try done.
  - unfold searchNode. by rewrite Hloop, bind_Ok, (load_Ok _ _ _ Hxn), bind_Ok, (index_Ok _ _ _ Hx0).
  - unfold Search. rewrite Hloop, bind_Ok, (load_Ok _ _ _ Hxn), bind_Ok, (index_Ok _ _ _ Hx0), bind_Ok.
    destruct lb as [|c lb0]; [done |].
    cbn [head fmap option_fmap option_map].
    assert (held h c) as Hc.
    { pose proof (sh_held _ _ _ _ _ Hs) as Hheld. rewrite Hns in Hheld.
      apply Forall_app in Hheld as [_ Hheld]. by apply Forall_cons in Hheld as [? _]. }
    apply held_load in Hc as (cn & Hcn & Hitem).
    rewrite (load_Ok _ _ _ Hcn), bind_Ok, Hitem. cbn [call_Less]. rewrite bind_Ok.
    by destruct (Less key (c_item c)).
Qed.

End Observations.

Section Ranges.

Context {T : Type} `{!Item T} `{!StrictWeak T}.
Implicit Types (h : gmap loc (node T)) (c : cell T) (cs ns la lb : list (cell T)).
Implicit Types (a b x : loc) (i j : nat) (key : T) (fl : list loc).

Lemma call_Less_Some (u v : T) : call_Less (Some u) (Some v) = Ok (Less u v).
Proof. done. Qed.

Lemma less_cases (u v w : T) :
  Less u w = true → Less u v = true ∨ Less v w = true.
Proof.
  intros Huw. destruct (Less u v) eqn:Huv; [by left |]. right.
  destruct (Less v u) eqn:Hvu.
  - by eapply less_trans.
  - by apply (eqv_less_r v u w).
Qed.

Lemma filter_items_all (P : T → Prop) `{!∀ v, Decision (P v)} cs :
  Forall (λ c, P (c_item c)) cs → filter P (items_of cs) = items_of cs.
Proof.
  induction 1 as [|c cs Hc _ IH]; [done |].
  unfold items_of in *. rewrite fmap_cons, filter_cons_True by done. by rewrite IH.
Qed.

Lemma filter_items_none (P : T → Prop) `{!∀ v, Decision (P v)} cs :
  Forall (λ c, ¬ P (c_item c)) cs → filter P (items_of cs) = [].
Proof.
  induction 1 as [|c cs Hc _ IH]; [done |].
  unfold items_of in *. by rewrite fmap_cons, filter_cons_False.
Qed.

Lemma between_reversed lo hi (l : list T) :
  Less hi lo = true → filter (between lo hi) l = [].
Proof.
  intros Hrev. induction l as [|v l IH]; [done |].
  rewrite filter_cons_False; [done |]. intros [Hlo Hhi].
  destruct (less_cases hi v lo Hrev); congruence.
Qed.

Lemma ascending_filter (P : T → Prop) `{!∀ v, Decision (P v)} (l : list T) :
  ascending l → ascending (filter P l).
Proof.
  unfold ascending. induction 1 as [|v l Hl IH Hx]; [constructor |].
  destruct (decide (P v)).
  - rewrite filter_cons_True by done. constructor; [done |].
    apply Forall_forall. intros y Hy. apply list_elem_of_filter in Hy as [_ Hy].
    rewrite Forall_forall in Hx. by apply Hx.
  - by rewrite filter_cons_False.
Qed.

(** ** NewRange and ForEach *)

Lemma NewRange_spec h sl hd ns fl lo hi :
  Shape h sl hd ns fl → cells_sorted ns →
  ∃ r, NewRange h sl (Some lo) (Some hi) = Ok r
       ∧ ForEach h r = Ok (Some <$> filter (between lo hi) (items_of ns)).
Proof.
  intros Hs Hsorted.
  pose proof (sh_level _ _ _ _ _ Hs) as Hlevel.
  pose proof (sh_chain _ _ _ _ _ Hs 0%nat ltac:(lia)) as Hch.
  rewrite (Shape_lane_0 _ _ _ _ _ Hs) in Hch.
  apply chain_fwd in Hch as Hmin. apply fwd_Some in Hmin as (hn & Hhn & Hh0).
  unfold NewRange. rewrite (sh_header _ _ _ _ _ Hs).
  rewrite (load_Ok _ _ _ Hhn), bind_Ok, (index_Ok _ _ _ Hh0), bind_Ok.
  destruct ns as [|c0 ns0].
  { simpl. eexists. split; [done |]. done. }
  cbn [head fmap option_fmap option_map]. rewrite call_Less_Some, bind_Ok.
  destruct (Less hi lo) eqn:Hrev.
  { eexists. split; [done |]. rewrite between_reversed by done. done. }
  assert (held h c0) as Hc0.
  { pose proof (sh_held _ _ _ _ _ Hs) as Hheld. by apply Forall_cons in Hheld as [? _]. }
  apply held_load in Hc0 as (n0 & Hn0 & Hitem0).
  (* the start of the range *)
  destruct (Search_spec h sl hd _ fl lo Hs) as (la1 & lb1 & Hns1 & Hlast1 & Hstop1 & Hnode1 & _).
  pose proof Hsorted as Hsorted1. rewrite Hns1 in Hsorted1.
  destruct (split_sorted lo la1 lb1 Hsorted1 Hlast1 Hstop1) as [Hla1 Hlb1].
  rewrite Hnode1, bind_Ok. cbv beta.
  assert (match c_loc <$> head lb1 with
          | None =>
              mn ← load h (Some (c_loc c0));
              b ← call_Less (Some lo) (item mn);
              Ok (if b : bool then Some (c_loc c0) else c_loc <$> head lb1)
          | Some _ => Ok (c_loc <$> head lb1)
          end = Ok (c_loc <$> head lb1)) as ->.
  { destruct lb1 as [|c1 lb1']; [| done]. cbn [head fmap option_fmap option_map].
    rewrite (load_Ok _ _ _ Hn0), bind_Ok, Hitem0, call_Less_Some, bind_Ok.
    rewrite app_nil_r in Hns1. subst la1.
    apply Forall_cons in Hla1 as [Hc0 _]. by rewrite (less_asym _ _ Hc0). }
  rewrite bind_Ok.
  (* the end of the range *)
  destruct (Search_spec h sl hd _ fl hi Hs) as (la2 & lb2 & Hns2 & Hlast2 & Hstop2 & Hnode2 & _).
  pose proof Hsorted as Hsorted2. rewrite Hns2 in Hsorted2.
  destruct (split_sorted hi la2 lb2 Hsorted2 Hlast2 Hstop2) as [Hla2 Hlb2].
  rewrite Hnode2, bind_Ok. cbv beta.
  assert (∃ la3 lb3,
    c0 :: ns0 = la3 ++ lb3
    ∧ Forall (λ c, Less hi (c_item c) = false) la3
    ∧ Forall (λ c, Less hi (c_item c) = true) lb3
    ∧ match c_loc <$> head lb2 with
      | None =>
          mn ← load h (Some (c_loc c0));
          b ← call_Less (Some hi) (item mn);
          Ok (if b : bool then Some (c_loc c0) else c_loc <$> head lb2)
      | Some _ =>
          nn ← load h (c_loc <$> head lb2);
          b ← call_Less (Some hi) (item nn);
          if negb b then index (forward nn) 0 else Ok (c_loc <$> head lb2)
      end = Ok (c_loc <$> head lb3)) as (la3 & lb3 & Hns3 & Hla3 & Hlb3 & ->).
  { assert (Forall (λ c, Less hi (c_item c) = false) la2) as Hla2'.
    { eapply Forall_impl; [done |]. simpl. intros c Hc. by apply less_asym. }
    destruct lb2 as [|c2 lb2'].
    - exists la2, []. split_and!; [done | done | constructor |].
      cbn [head fmap option_fmap option_map].
      rewrite (load_Ok _ _ _ Hn0), bind_Ok, Hitem0, call_Less_Some, bind_Ok.
      rewrite app_nil_r in Hns2. subst la2.
      apply Forall_cons in Hla2 as [Hc0 _]. by rewrite (less_asym _ _ Hc0).
    - cbn [head fmap option_fmap option_map].
      assert (held h c2) as Hc2.
      { pose proof (sh_held _ _ _ _ _ Hs) as Hheld. rewrite Hns2 in Hheld.
        apply Forall_app in Hheld as [_ Hheld]. by apply Forall_cons in Hheld as [? _]. }
      apply held_load in Hc2 as (n2 & Hn2 & Hitem2).
      rewrite (load_Ok _ _ _ Hn2), bind_Ok, Hitem2, call_Less_Some, bind_Ok.
      apply Forall_cons in Hlb2 as [Hc2 Hlb2'].
      apply StronglySorted_app_1_r, StronglySorted_cons in Hsorted2 as [Hafter _].
      destruct (Less hi (c_item c2)) eqn:Hhi; simpl.
      + exists la2, (c2 :: lb2'). split_and!; [done | done | | done].
        constructor; [done |]. eapply Forall_impl; [exact Hafter |]. simpl. intros c Hc.
        exact (less_trans _ _ _ Hhi Hc).
      + exists (la2 ++ [c2]), lb2'. split_and!.
        * by rewrite <- app_assoc.
        * apply Forall_app. split; [done | by apply Forall_singleton].
        * eapply Forall_impl; [exact Hafter |]. simpl. intros c Hc.
          by apply (eqv_less_r hi (c_item c2) (c_item c)).
        * rewrite Hns2 in Hch. replace (la2 ++ c2 :: lb2') with ((la2 ++ [c2]) ++ lb2') in Hch
            by (by rewrite <- app_assoc).
          apply chain_app, chain_fwd in Hch. rewrite lastloc_snoc in Hch.
          apply fwd_Some in Hch as (n2' & Hn2' & Hi). rewrite Hn2 in Hn2'. injection Hn2' as <-.
          by apply index_Ok. }
  rewrite bind_Ok. eexists. split; [done |].
  (* the two splits of the list *)
  assert (∃ mid, lb1 = mid ++ lb3 ∧ la3 = la1 ++ mid) as (mid & -> & ->).
  { rewrite Hns1 in Hns3. apply app_eq_inv in Hns3 as [(k & -> & ->) | (k & -> & ->)];
      [| by exists k].
    destruct k as [|c k]; [exists []; by rewrite !app_nil_r |]. exfalso.
    apply Forall_app in Hla1 as [_ Hk]. apply Forall_cons in Hk as [Hc1 _].
    apply Forall_app in Hlb3 as [Hk _]. apply Forall_cons in Hk as [Hc3 _].
    pose proof (less_trans _ _ _ Hc3 Hc1). congruence. }
  unfold ForEach. cbn [r_begin r_end].
  rewrite Hns1 in Hch. apply chain_app in Hch.
  rewrite (ForEach_loop_spec h lb3 mid (lastloc hd la1)); [| done | | |].
  - f_equal. f_equal. rewrite Hns1. unfold items_of. rewrite !fmap_app, !filter_app.
    apply Forall_app in Hlb1 as [Hmid1 _]. apply Forall_app in Hla3 as [_ Hmid3].
    fold (items_of la1) (items_of mid) (items_of lb3).
    rewrite (filter_items_none _ la1), (filter_items_all _ mid), (filter_items_none _ lb3).
    + by rewrite app_nil_r.
    + eapply Forall_impl; [done |]. simpl. intros c Hc [_ ?]. congruence.
    + rewrite Forall_forall in *. intros c Hc. split; auto.
    + eapply Forall_impl; [done |]. simpl. intros c Hc [? _]. congruence.
  - pose proof (sh_held _ _ _ _ _ Hs) as Hheld. rewrite Hns1 in Hheld.
    apply Forall_app in Hheld as [_ Hheld]. by apply Forall_app in Hheld as [? _].
  - pose proof (Shape_nodup_cells _ _ _ _ _ Hs) as Hnd. rewrite Hns1 in Hnd.
    apply NoDup_cons in Hnd as [_ Hnd]. rewrite fmap_app in Hnd.
    by apply NoDup_app in Hnd as (_ & _ & ?).
  - pose proof (Shape_size _ _ _ _ _ Hs) as Hsz. rewrite Hns1, !length_app in Hsz. lia.
Qed.

End Ranges.

Section Bounds.

Context {T : Type} `{!Item T}.
Implicit Types (h : gmap loc (node T)) (i : nat).

(** ** The bound of the loops that follow pointers *)

(** A loop that ends within its bound ends the same way within every
    larger one, so the bound [S (size h)] of the operations plays no part
    in what they return in the states a program can build. *)

Lemma bind_not_Diverge {A B} (m : result A) (f : A → result B) :
  m ≫= f ≠ Diverge → m ≠ Diverge.
Proof. by destruct m. Qed.

Lemma scan_more_rounds h i (key : option T) : ∀ rounds rounds' (x : ptr),
  (rounds ≤ rounds')%nat → scan rounds h x i key ≠ Diverge →
  scan rounds' h x i key = scan rounds h x i key.
Proof.
  induction rounds as [|r IH]; intros rounds' x Hle Hend; [done |].
  destruct rounds' as [|r']; [lia |]. cbn [scan] in *.
  destruct (load h x) as [xn| | |]; try done. rewrite !bind_Ok in *.
  destruct (index (forward xn) i) as [y| | |]; try done. rewrite !bind_Ok in *.
  destruct y as [a|]; [| done].
  destruct (load h (Some a)) as [yn| | |]; try done. rewrite !bind_Ok in *.
  destruct (call_Less (item yn) key) as [b| | |]; try done. rewrite !bind_Ok in *.
  destruct b; [| done]. apply IH; [lia | done].
Qed.

Lemma iterate_loop_more_rounds h : ∀ rounds rounds' (it : Iterator),
  (rounds ≤ rounds')%nat → iterate_loop rounds h it ≠ Diverge →
  iterate_loop rounds' h it = iterate_loop rounds h it.
Proof.
  induction rounds as [|r IH]; intros rounds' it Hle Hend; [done |].
  destruct rounds' as [|r']; [lia |]. cbn [iterate_loop] in *.
  destruct (Valid it); [| done].
  destruct (Value h it) as [v| | |]; try done. rewrite !bind_Ok in *.
  destruct (Next h it) as [it'| | |]; try done. rewrite !bind_Ok in *.
  rewrite (IH r' it'); [done | lia |]. by apply bind_not_Diverge in Hend.
Qed.

Lemma ForEach_loop_more_rounds h (stop : ptr) : ∀ rounds rounds' (x : ptr),
  (rounds ≤ rounds')%nat → ForEach_loop rounds h x stop ≠ Diverge →
  ForEach_loop rounds' h x stop = ForEach_loop rounds h x stop.
Proof.
  induction rounds as [|r IH]; intros rounds' x Hle Hend; [done |].
  destruct rounds' as [|r']; [lia |]. cbn [ForEach_loop] in *.
  case_decide; [done |].
  destruct (load h x) as [xn| | |]; try done. rewrite !bind_Ok in *.
  destruct (index (forward xn) 0) as [y| | |]; try done. rewrite !bind_Ok in *.
  rewrite (IH r' y); [done | lia |]. by apply bind_not_Diverge in Hend.
Qed.

End Bounds.

(** ** The level of a new node *)

Lemma randomLevel_loop_leading maxLevel : ∀ rounds lvl r k,
  1 ≤ lvl ≤ maxLevel → maxLevel < 2 ^ 31 →
  (Z.to_nat (maxLevel - lvl) ≤ rounds)%nat →
  (Z.to_nat (maxLevel - lvl) ≤ k)%nat →
  (randomLevel_loop rounds maxLevel lvl r).1
  = Z.min maxLevel (lvl + Z.of_nat (leading k r)).
Proof.
  induction rounds as [|n IH]; intros lvl r k Hlvl Hmax Hr Hk; cbn [randomLevel_loop].
  - simpl. lia.
  - destruct (Z.ltb_spec lvl maxLevel) as [Hlt | Hge]; [| simpl; lia].
    destruct k as [|k']; [lia |]. unfold Uint32. cbn [leading].
    destruct (draw_succeeds (r O)); [| simpl; lia].
    rewrite wrap_int32_small by lia.
    rewrite (IH (lvl + 1) _ k') by lia. lia.
Qed.

Lemma draw_succeeds_low u : draw_succeeds u = draw_succeeds (Z.land u 65535).
Proof.
  unfold draw_succeeds. by rewrite <- Z.land_assoc, Z.land_diag.
Qed.

(** On a value below 2^16 the draw succeeds exactly below 16384. *)
Lemma draw_succeeds_lt v : 0 ≤ v < 65536 → draw_succeeds v = true ↔ v < 16384.
Proof.
  intros Hv. unfold draw_succeeds.
  change 65535 with (Z.ones 16) at 2. rewrite Z.land_ones by lia.
  rewrite Z.mod_small by (change (2 ^ 16) with 65536; lia).
  rewrite negb_true_iff. unfold Qle_bool, DefaultP. simpl.
  rewrite Z.leb_gt. lia.
Qed.

Lemma filter_seqZ_lt (b : Z) : ∀ (k : nat) (a : Z),
  filter (λ v, v < b) (seqZ a (Z.of_nat k)) = seqZ a (Z.min (Z.of_nat k) (b - a)).
Proof.
  induction k as [|k IH]; intros a.
  - rewrite !seqZ_nil by lia. done.
  - rewrite (seqZ_cons a (Z.of_nat (S k))) by lia.
    replace (Z.pred (Z.of_nat (S k))) with (Z.of_nat k) by lia.
    destruct (decide (a < b)) as [Hlt | Hge].
    + rewrite filter_cons_True by done. rewrite IH.
      rewrite (seqZ_cons a (Z.min _ _)) by lia. do 2 f_equal. lia.
    + rewrite filter_cons_False by done. rewrite IH.
      rewrite !seqZ_nil by lia. done.
Qed.

Lemma filter_Forall_iff {A} (P Q : A → Prop) `{!∀ x, Decision (P x)}
    `{!∀ x, Decision (Q x)} (l : list A) :
  Forall (λ x, P x ↔ Q x) l → filter P l = filter Q l.
Proof.
  induction 1 as [|x l Hx _ IH]; [done |].
  destruct (decide (P x)) as [HP | HP].
  - rewrite !filter_cons_True by tauto. by rewrite IH.
  - rewrite !filter_cons_False by tauto. done.
Qed.

Lemma draw_succeeds_count :
  filter (λ v, draw_succeeds v = true) (seqZ 0 65536) = seqZ 0 16384.
Proof.
  rewrite (filter_Forall_iff _ (λ v, v < 16384)).
  - change 65536 with (Z.of_nat (Z.to_nat 65536)). by rewrite filter_seqZ_lt.
  - apply Forall_forall. intros v Hv. apply elem_of_seqZ in Hv.
    apply draw_succeeds_lt. lia.
Qed.

Lemma Fixed_randomLevel_loop_leading : ∀ rounds lvl r k,
  1 ≤ lvl ≤ Fixed.kMaxLevel →
  (Z.to_nat (Fixed.kMaxLevel - lvl) ≤ rounds)%nat →
  (Z.to_nat (Fixed.kMaxLevel - lvl) ≤ k)%nat →
  (Fixed.randomLevel_loop rounds lvl r).1
  = Z.min Fixed.kMaxLevel (lvl + Z.of_nat (Fixed.leading k r)).
Proof.
  unfold Fixed.kMaxLevel.
  induction rounds as [|n IH]; intros lvl r k Hlvl Hr Hk; cbn [Fixed.randomLevel_loop].
  - simpl. lia.
  - unfold Fixed.kMaxLevel. destruct (Z.ltb_spec lvl 12) as [Hlt | Hge]; [| simpl; lia].
    destruct k as [|k']; [lia |]. unfold Fixed.Float64. cbn [Fixed.leading].
    destruct (Fixed.draw_succeeds (r O)); [| simpl; lia].
    rewrite wrap_int_small by lia.
    rewrite (IH (lvl + 1) _ k') by lia. lia.
Qed.

Lemma Fixed_draw_succeeds_lt (u : Q) : Fixed.draw_succeeds u = true ↔ (u < Fixed.kP)%Q.
Proof.
  unfold Fixed.draw_succeeds. rewrite negb_true_iff.
  destruct (Qle_bool Fixed.kP u) eqn:E.
  - apply Qle_bool_iff in E. split; [done |]. intros Hlt.
    exfalso. by apply (Qlt_not_le _ _ Hlt).
  - split; [| done]. intros _. apply Qnot_le_lt. intros Hle.
    apply Qle_bool_iff in Hle. congruence.
Qed.

(** C6: [randomLevel] returns a level between 1 and [maxLevel], one plus
    the number of draws that succeed one after the other at the start,
    capped at [maxLevel]; a draw succeeds on exactly 16384 of the 65536
    values of its low 16 bits, a quarter of them.  The fixed-level variant
    does the same with [rand.Float64() < 0.25] and the cap 12. *)
Theorem randomLevel_level (sl : SkipList) :
  1 ≤ maxLevel sl < 2 ^ 31 →
  1 ≤ (randomLevel sl).1 ≤ maxLevel sl
  ∧ (∀ k, (Z.to_nat (maxLevel sl - 1) ≤ k)%nat →
          (randomLevel sl).1
          = Z.min (maxLevel sl) (1 + Z.of_nat (leading k (random sl))))
  ∧ (∀ u, draw_succeeds u = draw_succeeds (Z.land u 65535))
  ∧ filter (λ v, draw_succeeds v = true) (seqZ 0 65536) = seqZ 0 16384
  ∧ length (seqZ 0 16384) = Z.to_nat 16384
  ∧ (∀ r, 1 ≤ (Fixed.randomLevel r).1 ≤ Fixed.kMaxLevel)
  ∧ (∀ r k, (Z.to_nat (Fixed.kMaxLevel - 1) ≤ k)%nat →
            (Fixed.randomLevel r).1
            = Z.min Fixed.kMaxLevel (1 + Z.of_nat (Fixed.leading k r)))
  ∧ (∀ u, Fixed.draw_succeeds u = true ↔ (u < 1 # 4)%Q).
Proof.
  intros Hm.
  split; [apply randomLevel_loop_range; lia |].
  split; [intros k Hk; unfold randomLevel; apply randomLevel_loop_leading; lia |].
  split; [apply draw_succeeds_low |].
  split; [apply draw_succeeds_count |].
  split; [apply length_seqZ |].
  split; [| split; [| apply Fixed_draw_succeeds_lt]].
  - intros r. unfold Fixed.randomLevel.
    rewrite (Fixed_randomLevel_loop_leading _ 1 r (Z.to_nat (Fixed.kMaxLevel - 1)));
      unfold Fixed.kMaxLevel; lia.
  - intros r k Hk. unfold Fixed.randomLevel.
    apply Fixed_randomLevel_loop_leading; unfold Fixed.kMaxLevel in *; lia.
Qed.

Section PoolTheorem.

Context {T : Type}.
Implicit Types (h : gmap loc (node T)) (f : FreeList).

Lemma live_pool h (l : list ptr) :
  Forall (λ p, ∃ a, p = Some a ∧ is_Some (h !! a)) l →
  ∃ fl, l = Some <$> fl ∧ Forall (λ a, is_Some (h !! a)) fl.
Proof.
  induction 1 as [|p l (a & -> & Ha) _ (fl & -> & Hfl)].
  - by exists [].
  - exists (a :: fl). split; [done | by constructor].
Qed.

Lemma Fixed_freeNode_spec h f (n : loc) (nn : node T) :
  h !! n = Some nn →
  ∃ out f',
    Fixed.freeNode h f (Some n)
    = Ok (out, <[n := {| item := None; forward := clear (forward nn) |}]> h, f')
    ∧ (out = true ↔ (length (freelist f) < fl_cap f)%nat)
    ∧ (out = true → freelist f' = freelist f ++ [Some n] ∧ fl_cap f' = fl_cap f)
    ∧ (out = false → f' = f).
Proof.
  intros Hn. unfold Fixed.freeNode. rewrite (load_Ok _ _ _ Hn), bind_Ok. cbn [store].
  rewrite bind_Ok. case_decide as Hroom.
  - eexists true, _. split; [done |]. split; [done |]. split; [done | done].
  - eexists false, _. split; [done |]. split; [| split; [done | done]].
    split; [done | intros; lia].
Qed.

(** C8: [freeNode] returns true exactly when the pool is below its
    capacity, and then the node has lost its item, every slot of its
    forward slice is nil and the node is the last of the pool; otherwise it
    returns false and pool and store are as before.  [newNode] returns: from
    an empty pool a node new in the store with [lvl] nil slots, from any
    other pool the node released last, with a forward slice of length [lvl]
    on the old backing array when its capacity suffices and on a new array
    otherwise.  A node just released is the next one taken.  The variant of
    skiplist.go pools the node under the same condition. *)
Theorem FreeList_newNode_freeNode h f (n : loc) (nn : node T) (lvl : Z) :
  h !! n = Some nn →
  Forall (λ p, ∃ a, p = Some a ∧ is_Some (h !! a)) (freelist f) →
  0 ≤ lvl →
  (∃ out h' f',
     freeNode h f (Some n) = Ok (out, h', f')
     ∧ (out = true ↔ (length (freelist f) < fl_cap f)%nat)
     ∧ (out = true →
        h' = <[n := {| item := None;
                       forward := {| elems := replicate (len (forward nn)) None;
                                     spare := spare (forward nn) |} |}]> h
        ∧ freelist f' = freelist f ++ [Some n] ∧ fl_cap f' = fl_cap f)
     ∧ (out = false → h' = h ∧ f' = f))
  ∧ (∃ p pn f',
       newNode h f lvl = Ok (Some p, <[p := pn]> h, f')
       ∧ len (forward pn) = Z.to_nat lvl
       ∧ fl_cap f' = fl_cap f
       ∧ (freelist f = [] →
          h !! p = None ∧ f' = f
          ∧ pn = {| item := None;
                    forward := {| elems := replicate (Z.to_nat lvl) None;
                                  spare := [] |} |})
       ∧ (∀ fl0 q, freelist f = fl0 ++ [q] →
            q = Some p ∧ freelist f' = fl0
            ∧ ∃ old, h !! p = Some old ∧ item pn = item old
                ∧ (lvl ≤ Z.of_nat (cap (forward old)) →
                   elems (forward pn) ++ spare (forward pn)
                   = elems (forward old) ++ spare (forward old))
                ∧ (Z.of_nat (cap (forward old)) < lvl →
                   forward pn = {| elems := replicate (Z.to_nat lvl) None;
                                   spare := [] |})))
  ∧ (∀ h' f', freeNode h f (Some n) = Ok (true, h', f') →
       ∃ pn f'', newNode h' f' lvl = Ok (Some n, <[n := pn]> h', f'')
                 ∧ freelist f'' = freelist f)
  ∧ (∃ out h' f',
       Fixed.freeNode h f (Some n) = Ok (out, h', f')
       ∧ (out = true ↔ (length (freelist f) < fl_cap f)%nat)
       ∧ (out = true → freelist f' = freelist f ++ [Some n] ∧ fl_cap f' = fl_cap f)
       ∧ (out = false → f' = f)
       ∧ h' = <[n := {| item := None;
                        forward := {| elems := replicate (len (forward nn)) None;
                                      spare := spare (forward nn) |} |}]> h).
Proof.
  intros Hn Hpool Hlvl.
  assert (clear (forward nn)
          = {| elems := replicate (len (forward nn)) None; spare := spare (forward nn) |})
    as Hclear.
  { pose proof (clear_elems (forward nn)) as E. unfold clear in *. simpl in *. by rewrite E. }
  destruct (live_pool h _ Hpool) as (fl & Hfl & Hlive).
  split; [| split; [| split]].
  - destruct (freeNode_spec h f fl n nn Hfl Hn) as [[Hroom E] | [Hfull E]];
      rewrite Hfl, length_fmap.
    + eexists true, _, _. split; [exact E |]. split; [done |]. split.
      * intros _. rewrite Hclear. split; [done |]. simpl. by rewrite fmap_app.
      * done.
    + eexists false, _, _. split; [exact E |]. split; [| done].
      split; [done | intros; lia].
  - destruct (newNode_spec h f fl lvl Hfl Hlive Hlvl) as (p & pn & fl0 & E & Hlen & Hcases).
    eexists p, pn, _. split; [exact E |]. split; [done |]. split; [done |].
    destruct Hcases as [(-> & -> & Hfresh & ->) | (-> & old & Hold & Hitem & Hback)].
    + split.
      * intros _. split; [done |]. split; [| done]. destruct f. simpl in *. by rewrite Hfl.
      * intros fl1 q E'. rewrite Hfl in E'. by destruct fl1.
    + split.
      * rewrite Hfl, fmap_app. intros E'. by destruct (Some <$> fl0).
      * intros fl1 q E'. rewrite Hfl, fmap_app in E'. simpl in E'.
        apply app_inj_tail in E' as [<- <-]. split; [done |]. split; [done |].
        exists old. split; [done |]. split; [done |].
        destruct Hback as [[Hsmall Hnew] | [Hbig Hsame]].
        -- split; [intros; lia | done].
        -- split; [done | intros; lia].
  - intros h' f' E.
    destruct (freeNode_spec h f fl n nn Hfl Hn) as [[Hroom E1] | [Hfull E1]];
      rewrite E1 in E; [| discriminate].
    injection E as <- <-.
    destruct (newNode_spec (<[n := {| item := None; forward := clear (forward nn) |}]> h)
                {| freelist := Some <$> fl ++ [n]; fl_cap := fl_cap f |} (fl ++ [n]) lvl)
      as (p & pn & fl0 & E & Hlen & Hcases); [done | | done |].
    { apply Forall_app. split.
      - eapply Forall_impl; [done |]. simpl. intros a Ha.
        destruct (decide (n = a)) as [<- | Hne];
          [by rewrite lookup_insert_eq | by rewrite lookup_insert_ne].
      - apply Forall_singleton. by rewrite lookup_insert_eq. }
    destruct Hcases as [(Hnil & _) | (Hsnoc & _)]; [by destruct fl |].
    apply app_inj_tail in Hsnoc as [<- <-].
    eexists pn, _. split; [exact E |]. by rewrite Hfl.
  - destruct (Fixed_freeNode_spec h f n nn Hn) as (out & f' & E & Hout & Htrue & Hfalse).
    eexists out, _, f'. rewrite Hclear in E. by split_and!.
Qed.

End PoolTheorem.

Section Structure.

Context {T : Type} `{!Item T}.
Implicit Types (h : gmap loc (node T)) (c : cell T) (cs ns la lb : list (cell T)).
Implicit Types (a b x : loc) (i j : nat) (key : T) (fl : list loc).

Lemma header_forward_spec h sl hd ns fl i :
  Shape h sl hd ns fl → (i < Z.to_nat (maxLevel sl))%nat →
  header_forward h sl i = Ok (c_loc <$> head (lane i ns)).
Proof.
  intros Hs Hi. pose proof (sh_chain _ _ _ _ _ Hs i Hi) as Hch.
  apply chain_fwd, fwd_Some in Hch as (n & Hn & Hv).
  unfold header_forward. rewrite (sh_header _ _ _ _ _ Hs).
  by rewrite (load_Ok _ _ _ Hn), bind_Ok, (index_Ok _ _ _ Hv).
Qed.

Lemma NewIterator_spec h sl hd ns fl :
  Shape h sl hd ns fl → NewIterator h sl = Ok {| it_x := c_loc <$> head ns |}.
Proof.
  intros Hs. pose proof (sh_level _ _ _ _ _ Hs) as Hlevel.
  pose proof (sh_chain _ _ _ _ _ Hs 0%nat ltac:(lia)) as Hch.
  rewrite (Shape_lane_0 _ _ _ _ _ Hs) in Hch.
  apply chain_fwd, fwd_Some in Hch as (n & Hn & Hv).
  unfold NewIterator. rewrite (sh_header _ _ _ _ _ Hs).
  by rewrite (load_Ok _ _ _ Hn), bind_Ok, (index_Ok _ _ _ Hv), bind_Ok.
Qed.

Lemma Shape_real h sl hd ns fl c : Shape h sl hd ns fl → c ∈ ns → Some (c_loc c) ≠ header sl.
Proof.
  intros Hs Hc. rewrite (sh_header _ _ _ _ _ Hs). intros [= Heq].
  pose proof (Shape_nodup_cells _ _ _ _ _ Hs) as Hnd.
  apply NoDup_cons in Hnd as [Hhd _]. apply Hhd. rewrite <- Heq.
  by apply list_elem_of_fmap_2.
Qed.

(** C7, as the code has it: in every state a program can build the level
    is between 1 and [maxLevel], every lane from 1 up to the level holds a
    real node, no lane from the level on holds one, and lane 0 holds a real
    node exactly when the list is not empty. *)
Theorem occupied_lanes h sl :
  reachable h sl →
  1 ≤ level sl ≤ maxLevel sl
  ∧ (∀ i, (1 ≤ i < Z.to_nat (level sl))%nat →
          ∃ a, header_forward h sl i = Ok (Some a) ∧ Some a ≠ header sl)
  ∧ (∀ i, (Z.to_nat (level sl) ≤ i < Z.to_nat (maxLevel sl))%nat →
          header_forward h sl i = Ok None)
  ∧ ∃ items,
      iterate h sl = Ok (Some <$> items)
      ∧ (items ≠ [] → ∃ a, header_forward h sl 0 = Ok (Some a) ∧ Some a ≠ header sl)
      ∧ (items = [] → header_forward h sl 0 = Ok None).
Proof.
  intros Hr. destruct (reachable_Shape h sl Hr) as (hd & ns & fl & Hs).
  pose proof (sh_level _ _ _ _ _ Hs) as Hlevel.
  assert (∀ i, (i < Z.to_nat (maxLevel sl))%nat → lane i ns ≠ [] →
               ∃ a, header_forward h sl i = Ok (Some a) ∧ Some a ≠ header sl) as Hreal.
  { intros i Hi Hne. rewrite (header_forward_spec h sl hd ns fl i Hs Hi).
    destruct (lane i ns) as [|c l] eqn:E; [done |]. exists (c_loc c). split; [done |].
    apply (Shape_real h sl hd ns fl c Hs).
    assert (c ∈ lane i ns) as Hc by (rewrite E; by left). by apply lane_elem in Hc as [? _]. }
  split; [done |]. split; [| split].
  - intros i Hi. apply Hreal; [lia |].
    pose proof (sh_top _ _ _ _ _ Hs ltac:(lia)) as Hex.
    apply Exists_exists in Hex as (c & Hc & Hlvl).
    intros E. assert (c ∈ lane i ns) as Hin by (apply lane_elem; split; [done | lia]).
    rewrite E in Hin. by apply elem_of_nil in Hin.
  - intros i Hi. rewrite (header_forward_spec h sl hd ns fl i Hs) by lia.
    by rewrite (Shape_lane_top h sl hd ns fl i Hs) by lia.
  - exists (items_of ns). split; [by eapply iterate_spec |]. split.
    + intros Hne. apply Hreal; [lia |]. rewrite (Shape_lane_0 _ _ _ _ _ Hs).
      intros ->. done.
    + intros E. rewrite (header_forward_spec h sl hd ns fl 0 Hs) by lia.
      rewrite (Shape_lane_0 _ _ _ _ _ Hs). by destruct ns.
Qed.

(** C9, as the code has it: [Insert] with a nil item and [NewWithLevel]
    with a level outside 1..32 panic; [NewWithLevel] with a level in 1..32
    and, in every state a program can build, [Insert] and [Delete] with an
    item that is not nil return. *)
Theorem panics_of_construction_and_mutation :
  (∀ h sl, Insert h sl None = Panic (Explicit "nil item being added to SkipList"))
  ∧ (∀ m seed, m < 1 ∨ DefaultMaxLevel < m →
       NewWithLevel (T := T) m seed
       = Panic (Explicit "maxLevel must be between 1 and DefaultMaxLevel"))
  ∧ (∀ m seed, 1 ≤ m ≤ DefaultMaxLevel →
       ∃ h sl, NewWithLevel (T := T) m seed = Ok (h, sl))
  ∧ (∀ h sl it, reachable h sl → ∃ h' sl', Insert h sl (Some it) = Ok (h', sl'))
  ∧ (∀ h sl key, reachable h sl →
       ∃ r h' sl', Delete h sl (Some key) = Ok (r, h', sl')).
Proof.
  split; [done |]. split; [| split; [| split]].
  - intros m seed Hm. unfold NewWithLevel.
    destruct (Z.ltb_spec m 1); [done |]. destruct (Z.ltb_spec DefaultMaxLevel m); [done | lia].
  - intros m seed Hm. rewrite NewWithLevel_Ok by done. eauto.
  - intros h sl it Hr. destruct (reachable_Shape h sl Hr) as (hd & ns & fl & Hs).
    destruct (Insert_spec h sl hd ns fl it Hs) as (la & lb & _ & _ & _ & Hcase).
    destruct Hcase as [(c & lb0 & h1 & _ & _ & E1 & _)
                      | (_ & h1 & sl1 & x & lvl & fl1 & E1 & _)]; eauto.
  - intros h sl key Hr. destruct (reachable_Shape h sl Hr) as (hd & ns & fl & Hs).
    destruct (Delete_spec h sl hd ns fl key Hs) as (la & lb & _ & _ & _ & Hcase).
    destruct Hcase as [(c & lb0 & h1 & sl1 & fl1 & _ & _ & E1 & _) | (_ & E1)]; eauto.
Qed.

End Structure.

Section Behaviour.

Context {T : Type} `{!Item T} `{!StrictWeak T}.
Implicit Types (h : gmap loc (node T)) (c : cell T) (cs ns la lb : list (cell T)).
Implicit Types (a b : loc) (i j : nat) (key : T) (fl : list loc).

Lemma items_of_app la lb : items_of (la ++ lb) = items_of la ++ items_of lb.
Proof. apply fmap_app. Qed.

Lemma elem_of_items v cs : v ∈ items_of cs ↔ ∃ c, c ∈ cs ∧ c_item c = v.
Proof.
  unfold items_of. rewrite list_elem_of_fmap.
  split; intros (c & ? & ?); exists c; by split.
Qed.

Lemma ascending_lookup (l : list T) i j u v :
  ascending l → (i < j)%nat → l !! i = Some u → l !! j = Some v → Less u v = true.
Proof.
  intros Hl. revert i j. induction Hl as [|w l Hl IH Hw]; intros i j Hij Hi Hj; [done |].
  destruct j as [|j]; [lia |]. simpl in Hj. destruct i as [|i].
  - injection Hi as ->. rewrite Forall_forall in Hw. apply Hw.
    by eapply list_elem_of_lookup_2.
  - simpl in Hi. apply (IH i j); [lia | done | done].
Qed.

Lemma below_not_eqv key cs v :
  Forall (λ c, Less (c_item c) key = true) cs → v ∈ items_of cs → ¬ eqv v key.
Proof.
  intros Hcs Hv [E _]. apply elem_of_items in Hv as (c & Hc & <-).
  rewrite Forall_forall in Hcs. specialize (Hcs c Hc). congruence.
Qed.

Lemma above_not_eqv key cs v :
  Forall (λ c, Less key (c_item c) = true) cs → v ∈ items_of cs → ¬ eqv v key.
Proof.
  intros Hcs Hv [_ E]. apply elem_of_items in Hv as (c & Hc & <-).
  rewrite Forall_forall in Hcs. specialize (Hcs c Hc). congruence.
Qed.

(** In a sorted run, everything after a cell greater than the key, or
    equal to it, is greater than the key. *)
Lemma sorted_above key c cs :
  cells_sorted (c :: cs) → Less (c_item c) key = false →
  Forall (λ c', Less key (c_item c') = true) cs
  ∧ (Less key (c_item c) = true → Forall (λ c', Less key (c_item c') = true) (c :: cs)).
Proof.
  intros Hs Hck. apply StronglySorted_cons in Hs as [Hafter _].
  assert (Forall (λ c', Less key (c_item c') = true) cs) as Hcs.
  { eapply Forall_impl; [exact Hafter |]. simpl. intros c' Hc'.
    destruct (Less key (c_item c)) eqn:E.
    - exact (less_trans _ _ _ E Hc').
    - by apply (eqv_less_r key (c_item c) (c_item c')). }
  split; [done |]. intros E. by constructor.
Qed.

(** C1: in every state a program can build, the traversal from a fresh
    iterator returns, and the items it yields are strictly ascending: each
    is less than every later one, so no two of them are equal under the
    ordering. *)
Theorem iteration_ascending h sl :
  reachable h sl →
  ∃ items,
    iterate h sl = Ok (Some <$> items)
    ∧ ascending items
    ∧ (∀ i j u v, (i < j)%nat → items !! i = Some u → items !! j = Some v →
                  Less u v = true)
    ∧ (∀ i j u v, i ≠ j → items !! i = Some u → items !! j = Some v → ¬ eqv u v)
    ∧ Len sl = wrap_int (Z.of_nat (length items)).
Proof.
  intros Hr. destruct (reachable_Inv h sl Hr) as (hd & ns & fl & Hs & Hsorted).
  apply cells_sorted_items in Hsorted.
  exists (items_of ns). split; [by eapply iterate_spec |]. split; [done |].
  split; [intros i j u v; by apply ascending_lookup |]. split.
  - intros i j u v Hij Hi Hj [E1 E2].
    destruct (decide (i < j)%nat).
    + pose proof (ascending_lookup _ i j u v Hsorted ltac:(lia) Hi Hj). congruence.
    + pose proof (ascending_lookup _ j i v u Hsorted ltac:(lia) Hj Hi). congruence.
  - unfold Len, items_of. rewrite length_fmap. apply (sh_length _ _ _ _ _ Hs).
Qed.

(** C2: [NewRange] returns, and [ForEach] over its range visits the stored
    items that are neither below [lo] nor above [hi], each once and in
    ascending order; that is nothing when the list is empty or [hi] is less
    than [lo]. *)
Theorem NewRange_ForEach h sl lo hi :
  reachable h sl →
  ∃ items r,
    iterate h sl = Ok (Some <$> items)
    ∧ NewRange h sl (Some lo) (Some hi) = Ok r
    ∧ (items = [] ∨ Less hi lo = true → ForEach h r = Ok [])
    ∧ ForEach h r = Ok (Some <$> filter (between lo hi) items)
    ∧ ascending (filter (between lo hi) items).
Proof.
  intros Hr. destruct (reachable_Inv h sl Hr) as (hd & ns & fl & Hs & Hsorted).
  destruct (NewRange_spec h sl hd ns fl lo hi Hs Hsorted) as (r & Hrange & Heach).
  exists (items_of ns), r. split; [by eapply iterate_spec |]. split; [done |].
  split; [| split; [done |]].
  - intros [E | Hrev]; rewrite Heach.
    + by rewrite E.
    + by rewrite between_reversed.
  - apply ascending_filter. by apply cells_sorted_items.
Qed.

(** C3: [Search] returns a stored item equal to the key under the ordering
    when there is one, and nil when there is none, as on the empty list. *)
Theorem Search_finds h sl key :
  reachable h sl →
  ∃ items,
    iterate h sl = Ok (Some <$> items)
    ∧ ((∃ v, v ∈ items ∧ eqv v key) →
       ∃ w, Search h sl (Some key) = Ok (Some w) ∧ w ∈ items ∧ eqv w key)
    ∧ ((∀ v, v ∈ items → ¬ eqv v key) → Search h sl (Some key) = Ok None)
    ∧ (items = [] → Search h sl (Some key) = Ok None).
Proof.
  intros Hr. destruct (reachable_Inv h sl Hr) as (hd & ns & fl & Hs & Hsorted).
  destruct (Search_spec h sl hd ns fl key Hs) as (la & lb & -> & Hlast & Hstop & _ & Hsearch).
  destruct (split_sorted key la lb Hsorted Hlast Hstop) as [Hla Hlb].
  apply StronglySorted_app_1_r in Hsorted.
  exists (items_of (la ++ lb)). split; [by eapply iterate_spec |].
  rewrite Hsearch. split; [| split].
  - intros (v & Hv & Heq). rewrite items_of_app in Hv. apply elem_of_app in Hv as [Hv | Hv].
    { by destruct (below_not_eqv key la v Hla Hv). }
    destruct lb as [|c lb0]; [by apply elem_of_nil in Hv |].
    apply Forall_cons in Hlb as [Hc _].
    destruct (sorted_above key c lb0 Hsorted Hc) as [_ Habove].
    destruct (Less key (c_item c)) eqn:E.
    + by destruct (above_not_eqv key (c :: lb0) v (Habove eq_refl) Hv).
    + exists (c_item c). split; [done |]. split; [| by split].
      rewrite items_of_app. apply elem_of_app. right. by left.
  - intros Hnone. destruct lb as [|c lb0]; [done |].
    apply Forall_cons in Hlb as [Hc _].
    destruct (Less key (c_item c)) eqn:E; [done |]. exfalso.
    apply (Hnone (c_item c)); [| by split].
    rewrite items_of_app. apply elem_of_app. right. by left.
  - intros E. apply fmap_nil_inv in E. apply app_eq_nil in E as [_ ->]. done.
Qed.

(** C4: [Delete] returns true exactly when an item equal to the key is
    stored; then that item is gone from the traversal and from every lane,
    the other items stay in order and the length is one less.  Otherwise it
    returns false and store and list are what they were. *)
Theorem Delete_removes h sl key :
  reachable h sl →
  ∃ items,
    iterate h sl = Ok (Some <$> items)
    ∧ ((∃ l1 v l2 h' sl',
          items = l1 ++ v :: l2 ∧ eqv v key
          ∧ Delete h sl (Some key) = Ok (true, h', sl')
          ∧ Len sl' = wrap_int (Len sl - 1)
          ∧ (Z.of_nat (length items) < 2 ^ 63 → Len sl' = Len sl - 1)
          ∧ iterate h' sl' = Ok (Some <$> l1 ++ l2)
          ∧ (∀ w, w ∈ l1 ++ l2 → ¬ eqv w key)
          ∧ (∀ i, (i < Z.to_nat (maxLevel sl'))%nat →
                  ∃ li, lane_items h' sl' i = Ok (Some <$> li)
                        ∧ li `sublist_of` l1 ++ l2))
       ∨ ((∀ v, v ∈ items → ¬ eqv v key)
          ∧ Delete h sl (Some key) = Ok (false, h, sl))).
Proof.
  intros Hr. destruct (reachable_Inv h sl Hr) as (hd & ns & fl & Hs & Hsorted).
  destruct (Delete_spec h sl hd ns fl key Hs) as (la & lb & -> & Hlast & Hstop & Hcase).
  destruct (split_sorted key la lb Hsorted Hlast Hstop) as [Hla Hlb].
  apply StronglySorted_app_1_r in Hsorted.
  exists (items_of (la ++ lb)). split; [by eapply iterate_spec |].
  destruct Hcase as [(c & lb0 & h1 & sl1 & fl1 & -> & Hlt & E1 & Hs1 & Hm & _) | (Hhead & E1)].
  - left. exists (items_of la), (c_item c), (items_of lb0), h1, sl1.
    apply Forall_cons in Hlb as [Hc _].
    destruct (sorted_above key c lb0 Hsorted Hc) as [Habove _].
    pose proof (sh_length _ _ _ _ _ Hs) as Hlen. pose proof (sh_length _ _ _ _ _ Hs1) as Hlen1.
    assert (Z.of_nat (length (la ++ lb0)) = Z.of_nat (length (la ++ c :: lb0)) - 1) as Hcount.
    { rewrite !length_app. simpl. lia. }
    split; [by rewrite items_of_app |]. split; [by split |]. split; [done |].
    unfold Len. split; [| split; [| split; [| split]]].
    + rewrite Hlen1, Hlen, Hcount. by rewrite <- !Z.add_opp_r, wrap_int_add.
    + unfold items_of. rewrite length_fmap. intros Hsmall.
      rewrite Hlen1, Hlen, Hcount. rewrite !wrap_int_small; lia.
    + rewrite <- items_of_app. by eapply iterate_spec.
    + intros w Hw. apply elem_of_app in Hw as [Hw | Hw].
      * by apply (below_not_eqv key la).
      * by apply (above_not_eqv key lb0).
    + intros i Hi. exists (items_of (lane i (la ++ lb0))).
      split; [by eapply lane_items_spec |].
      rewrite <- items_of_app. apply fmap_sublist, lane_sublist.
  - right. split; [| done]. intros v Hv.
    rewrite items_of_app in Hv. apply elem_of_app in Hv as [Hv | Hv].
    + by apply (below_not_eqv key la).
    + destruct lb as [|c lb0]; [by apply elem_of_nil in Hv |].
      apply Forall_cons in Hlb as [Hc _].
      destruct (sorted_above key c lb0 Hsorted Hc) as [_ Habove].
      apply (above_not_eqv key (c :: lb0)); [| done]. apply Habove. by apply Hhead.
Qed.

(** C5: [Insert] of an item equal to a stored one puts it in the place of
    that one: the store holds the same nodes as before and the list, with
    its length, is what it was.  [Insert] of an item equal to none links
    one more node, in order, and the length is one more. *)
Theorem Insert_updates_or_adds h sl it :
  reachable h sl →
  ∃ items,
    iterate h sl = Ok (Some <$> items)
    ∧ ((∃ l1 v l2 h',
          items = l1 ++ v :: l2 ∧ eqv v it
          ∧ Insert h sl (Some it) = Ok (h', sl)
          ∧ dom h' = dom h
          ∧ iterate h' sl = Ok (Some <$> l1 ++ it :: l2))
       ∨ ((∀ v, v ∈ items → ¬ eqv v it)
          ∧ ∃ l1 l2 h' sl',
              items = l1 ++ l2
              ∧ Insert h sl (Some it) = Ok (h', sl')
              ∧ iterate h' sl' = Ok (Some <$> l1 ++ it :: l2)
              ∧ Len sl' = wrap_int (Len sl + 1)
              ∧ (Z.of_nat (length items) < 2 ^ 63 - 1 → Len sl' = Len sl + 1))).
Proof.
  intros Hr. destruct (reachable_Inv h sl Hr) as (hd & ns & fl & Hs & Hsorted).
  destruct (Insert_spec h sl hd ns fl it Hs) as (la & lb & -> & Hlast & Hstop & Hcase).
  destruct (split_sorted it la lb Hsorted Hlast Hstop) as [Hla Hlb].
  apply StronglySorted_app_1_r in Hsorted.
  exists (items_of (la ++ lb)). split; [by eapply iterate_spec |].
  destruct Hcase as [(c & lb0 & h1 & -> & Hlt & E1 & Hs1 & Hdom)
                    | (Hhead & h1 & sl1 & x & lvl & fl1 & E1 & Hs1 & _)].
  - left. exists (items_of la), (c_item c), (items_of lb0), h1.
    apply Forall_cons in Hlb as [Hc _].
    split; [by rewrite items_of_app |]. split; [by split |]. split; [done |].
    split; [done |].
    rewrite (iterate_spec _ _ _ _ _ Hs1). by rewrite items_of_app.
  - right. split.
    + intros v Hv. rewrite items_of_app in Hv. apply elem_of_app in Hv as [Hv | Hv].
      * by apply (below_not_eqv it la).
      * destruct lb as [|c lb0]; [by apply elem_of_nil in Hv |].
        apply Forall_cons in Hlb as [Hc _].
        destruct (sorted_above it c lb0 Hsorted Hc) as [_ Habove].
        apply (above_not_eqv it (c :: lb0)); [| done]. apply Habove. by apply Hhead.
    + exists (items_of la), (items_of lb), h1, sl1.
      pose proof (sh_length _ _ _ _ _ Hs) as Hlen.
      pose proof (sh_length _ _ _ _ _ Hs1) as Hlen1.
      assert (Z.of_nat (length (la ++ Cell x it lvl :: lb))
              = Z.of_nat (length (la ++ lb)) + 1) as Hcount.
      { rewrite !length_app. simpl. lia. }
      split; [by rewrite items_of_app |]. split; [done |].
      split; [rewrite (iterate_spec _ _ _ _ _ Hs1); by rewrite items_of_app |].
      unfold Len. split.
      * rewrite Hlen1, Hlen, Hcount. by rewrite wrap_int_add.
      * unfold items_of. rewrite length_fmap. intros Hsmall.
        rewrite Hlen1, Hlen, Hcount. rewrite !wrap_int_small; lia.
Qed.

(** C10: [Next] and [Value] on an iterator that is not valid dereference
    nil and panic.  Such an iterator comes from [NewIterator] on an empty
    list, from [Next] on the last node, and from [MoveTo] with a key above
    every stored item. *)
Theorem invalid_Iterator_panics h sl :
  reachable h sl →
  (∀ it, Valid it = false →
         Next h it = Panic NilDereference ∧ Value h it = Panic NilDereference)
  ∧ ∃ items,
      iterate h sl = Ok (Some <$> items)
      ∧ (items = [] → ∃ it, NewIterator h sl = Ok it ∧ Valid it = false)
      ∧ (∀ l v it0, items = l ++ [v] →
           ∃ it1 it2, MoveTo h sl it0 (Some v) = Ok it1 ∧ Value h it1 = Ok (Some v)
                      ∧ Next h it1 = Ok it2 ∧ Valid it2 = false)
      ∧ (∀ key it0, Forall (λ v, Less v key = true) items →
           ∃ it, MoveTo h sl it0 (Some key) = Ok it ∧ Valid it = false).
Proof.
  intros Hr. split.
  { intros [[a|]] Hv; [done |]. done. }
  destruct (reachable_Inv h sl Hr) as (hd & ns & fl & Hs & Hsorted).
  exists (items_of ns). split; [by eapply iterate_spec |]. split; [| split].
  - intros E. apply fmap_nil_inv in E. subst ns.
    eexists. split; [by eapply NewIterator_spec | done].
  - intros l v it0 E.
    destruct (Search_spec h sl hd ns fl v Hs) as (la & lb & Hns & Hlast & Hstop & Hnode & _).
    pose proof Hsorted as Hsorted'. rewrite Hns in Hsorted'.
    destruct (split_sorted v la lb Hsorted' Hlast Hstop) as [Hla Hlb].
    assert (∃ c, lb = [c] ∧ c_item c = v) as (c & -> & Hcv).
    { destruct ns as [|c0 ns0] using rev_ind; [by destruct l |]. clear IHns0.
      unfold items_of in E. rewrite fmap_app in E. simpl in E.
      apply app_inj_tail in E as [El Ev].
      destruct lb as [|c lb0] using rev_ind.
      - rewrite app_nil_r in Hns. subst la. apply Forall_app in Hla as [_ Hla].
        rewrite Forall_singleton in Hla. simpl in Hla. rewrite Ev, less_irrefl in Hla. done.
      - clear IHlb0. rewrite app_assoc in Hns. apply app_inj_tail in Hns as [Hns0 <-].
        destruct lb0 as [|c1 lb1]; [by exists c0 |]. exfalso.
        apply Forall_app in Hlb as [Hlb _]. apply Forall_cons in Hlb as [Hc1 _].
        apply StronglySorted_app_1_r in Hsorted'.
        rewrite <- app_comm_cons in Hsorted'.
        apply StronglySorted_cons in Hsorted' as [Hafter _].
        apply Forall_app in Hafter as [_ Hafter]. rewrite Forall_singleton in Hafter.
        simpl in Hafter, Hc1. rewrite Ev in Hafter. congruence. }
    pose proof (sh_level _ _ _ _ _ Hs) as Hlevel.
    pose proof (sh_chain _ _ _ _ _ Hs 0%nat ltac:(lia)) as Hch.
    rewrite (Shape_lane_0 _ _ _ _ _ Hs), Hns in Hch.
    replace (la ++ [c]) with ((la ++ [c]) ++ []) in Hch by apply app_nil_r.
    apply chain_app, chain_fwd in Hch. rewrite lastloc_snoc in Hch.
    apply fwd_Some in Hch as (n & Hn & Hi).
    assert (held h c) as Hc.
    { pose proof (sh_held _ _ _ _ _ Hs) as Hheld. rewrite Hns in Hheld.
      apply Forall_app in Hheld as [_ Hheld]. by rewrite Forall_singleton in Hheld. }
    apply held_load in Hc as (n' & Hn' & Hitem). rewrite Hn in Hn'. injection Hn' as <-.
    eexists _, _. unfold MoveTo. rewrite Hnode, bind_Ok. cbn [head fmap option_fmap option_map].
    split; [done |]. unfold Value, Next. cbn [it_x].
    rewrite (load_Ok _ _ _ Hn), !bind_Ok, Hitem, Hcv, (index_Ok _ _ _ Hi), bind_Ok.
    split; [done |]. split; done.
  - intros key it0 Hall.
    destruct (Search_spec h sl hd ns fl key Hs) as (la & lb & Hns & Hlast & Hstop & Hnode & _).
    pose proof Hsorted as Hsorted'. rewrite Hns in Hsorted'.
    destruct (split_sorted key la lb Hsorted' Hlast Hstop) as [Hla Hlb].
    destruct lb as [|c lb0].
    + eexists. unfold MoveTo. rewrite Hnode, bind_Ok. done.
    + exfalso. apply Forall_cons in Hlb as [Hc _].
      rewrite Forall_forall in Hall. rewrite (Hall (c_item c)) in Hc; [done |].
      apply elem_of_items. exists c. split; [| done]. rewrite Hns.
      apply elem_of_app. right. by left.
Qed.

End Behaviour.

Section Contents.

Context {T : Type} `{!Item T} `{!StrictWeak T}.
Implicit Types (h : gmap loc (node T)) (c : cell T) (cs ns la lb : list (cell T)).
Implicit Types (a b : loc) (i j : nat) (key it u v w : T) (l : list T) (fl : list loc).

(** ** Equality under the ordering *)

Lemma eqv_refl v : eqv v v.
Proof. split; apply less_irrefl. Qed.

Lemma eqv_sym u v : eqv u v → eqv v u.
Proof. intros [? ?]. by split. Qed.

Lemma less_eqv_r u v w : Less w v = true → eqv v u → Less w u = true.
Proof.
  intros Hwv Hvu. destruct (Less w u) eqn:Hwu; [done |]. exfalso.
  destruct (Less u w) eqn:Huw.
  - pose proof (less_trans _ _ _ Huw Hwv) as Huv. destruct Hvu as [_ ?]. congruence.
  - assert (eqv w v) as [? _]; [| congruence].
    apply (eqv_trans w u v); [by split | by apply eqv_sym].
Qed.

Lemma eqv_less_iff_l u v w : eqv u v → Less u w = Less v w.
Proof.
  intros Huv. destruct (Less v w) eqn:Hvw.
  - by apply (eqv_less_r u v w).
  - destruct (Less u w) eqn:Huw; [| done].
    pose proof (eqv_less_r v u w (eqv_sym _ _ Huv) Huw). congruence.
Qed.

Lemma eqv_less_iff_r u v w : eqv u v → Less w u = Less w v.
Proof.
  intros Huv. destruct (Less w v) eqn:Hwv.
  - apply (less_eqv_r u v w); [done | by apply eqv_sym].
  - destruct (Less w u) eqn:Hwu; [| done].
    pose proof (less_eqv_r v u w Hwu Huv). congruence.
Qed.

Lemma eqv_eqv_iff u v w : eqv u v → eqv w u ↔ eqv w v.
Proof.
  intros Huv. split; intros Hw.
  - by apply (eqv_trans w u v).
  - apply (eqv_trans w v u); [done | by apply eqv_sym].
Qed.

(** ** Filters of a list in three parts *)

Lemma filter_all (P : T → Prop) `{!∀ v, Decision (P v)} l :
  Forall P l → filter P l = l.
Proof.
  induction 1 as [|v l Hv _ IH]; [done |]. by rewrite filter_cons_True, IH.
Qed.

Lemma filter_none (P : T → Prop) `{!∀ v, Decision (P v)} l :
  Forall (λ v, ¬ P v) l → filter P l = [].
Proof.
  induction 1 as [|v l Hv _ IH]; [done |]. by rewrite filter_cons_False.
Qed.

Lemma parts_below key A E B :
  parts key A E B → filter (λ v, Less v key = true) (A ++ E ++ B) = A.
Proof.
  intros [HA HE HB]. rewrite !filter_app.
  rewrite (filter_all _ A) by done.
  rewrite (filter_none _ E), (filter_none _ B); [by rewrite app_nil_r | |].
  - eapply Forall_impl; [exact HB |]. simpl. intros v Hv. apply less_asym in Hv. congruence.
  - eapply Forall_impl; [exact HE |]. simpl. intros v [Hv _]. congruence.
Qed.

Lemma parts_above key A E B :
  parts key A E B → filter (λ v, Less key v = true) (A ++ E ++ B) = B.
Proof.
  intros [HA HE HB]. rewrite !filter_app.
  rewrite (filter_all _ B) by done.
  rewrite (filter_none _ E), (filter_none _ A); [done | |].
  - eapply Forall_impl; [exact HA |]. simpl. intros v Hv. apply less_asym in Hv. congruence.
  - eapply Forall_impl; [exact HE |]. simpl. intros v [_ Hv]. congruence.
Qed.

Lemma parts_equal key A E B :
  parts key A E B → filter (λ v, eqv v key) (A ++ E ++ B) = E.
Proof.
  intros [HA HE HB]. rewrite !filter_app.
  rewrite (filter_all _ E) by done.
  rewrite (filter_none _ A), (filter_none _ B); [by rewrite app_nil_r | |].
  - eapply Forall_impl; [exact HB |]. simpl. intros v Hv [_ ?]. congruence.
  - eapply Forall_impl; [exact HA |]. simpl. intros v Hv [? _]. congruence.
Qed.

Lemma parts_other key A E B :
  parts key A E B → filter (λ v, ¬ eqv v key) (A ++ E ++ B) = A ++ B.
Proof.
  intros [HA HE HB]. rewrite !filter_app.
  rewrite (filter_none _ E), (filter_all _ A), (filter_all _ B); [done | | |].
  - eapply Forall_impl; [exact HB |]. simpl. intros v Hv [_ ?]. congruence.
  - eapply Forall_impl; [exact HA |]. simpl. intros v Hv [? _]. congruence.
  - eapply Forall_impl; [exact HE |]. simpl. tauto.
Qed.

(** The parts of a list for a key are its parts for every equal key. *)
Lemma parts_eqv key key' A E B : eqv key key' → parts key A E B → parts key' A E B.
Proof.
  intros Hk [HA HE HB]. split.
  - eapply Forall_impl; [exact HA |]. simpl. intros v Hv.
    by rewrite <- (eqv_less_iff_r key key' v).
  - eapply Forall_impl; [exact HE |]. simpl. intros v Hv. by apply (eqv_eqv_iff key key').
  - eapply Forall_impl; [exact HB |]. simpl. intros v Hv.
    by rewrite <- (eqv_less_iff_l key key' v).
Qed.

(** ** The parts the descent finds *)

Lemma hit_after_hit key lb : lb = hit key lb ++ after_hit key lb.
Proof. destruct lb as [|c lb0]; [done |]. simpl. by destruct (Less key (c_item c)). Qed.

Lemma descent_parts key la lb :
  cells_sorted (la ++ lb) →
  (∀ c, last la = Some c → Less (c_item c) key = true) →
  stops key lb →
  parts key (items_of la) (items_of (hit key lb)) (items_of (after_hit key lb)).
Proof.
  intros Hsorted Hlast Hstop.
  destruct (split_sorted key la lb Hsorted Hlast Hstop) as [Hla Hlb].
  apply StronglySorted_app_1_r in Hsorted.
  split.
  - unfold items_of. by apply Forall_fmap.
  - destruct lb as [|c lb0]; [constructor |]. simpl.
    apply Forall_cons in Hlb as [Hc _].
    destruct (Less key (c_item c)) eqn:E; [constructor |].
    apply Forall_singleton. by split.
  - destruct lb as [|c lb0]; [constructor |]. simpl.
    apply Forall_cons in Hlb as [Hc _].
    destruct (sorted_above key c lb0 Hsorted Hc) as [Hafter Hall].
    unfold items_of. apply Forall_fmap.
    destruct (Less key (c_item c)) eqn:E; [by apply Hall | done].
Qed.

Lemma descent_items key la lb :
  items_of (la ++ lb)
  = items_of la ++ items_of (hit key lb) ++ items_of (after_hit key lb).
Proof. by rewrite <- items_of_app, <- hit_after_hit, items_of_app. Qed.

(** ** The traversal of a state a program can build *)

Lemma iterate_items h sl hd ns fl l :
  Shape h sl hd ns fl → iterate h sl = Ok (Some <$> l) → l = items_of ns.
Proof.
  intros Hs E. rewrite (iterate_spec _ _ _ _ _ Hs) in E. injection E as E.
  symmetry. revert E. apply (inj (fmap Some)).
Qed.

(** ** The three calls as functions of the list of cells *)

Lemma Search_list_Shape h sl hd ns fl key :
  Shape h sl hd ns fl → cells_sorted ns →
  Search h sl (Some key) = Ok (list_Search key (items_of ns)).
Proof.
  intros Hs Hsorted.
  destruct (Search_spec h sl hd ns fl key Hs) as (la & lb & -> & Hlast & Hstop & _ & ->).
  pose proof (descent_parts key la lb Hsorted Hlast Hstop) as Hp.
  unfold list_Search. rewrite (descent_items key), (parts_equal _ _ _ _ Hp).
  destruct lb as [|c lb0]; [done |]. simpl. by destruct (Less key (c_item c)).
Qed.

Lemma Insert_list_Shape h sl hd ns fl it :
  Shape h sl hd ns fl → cells_sorted ns →
  ∃ h' sl' ns' fl',
    Insert h sl (Some it) = Ok (h', sl')
    ∧ Shape h' sl' hd ns' fl'
    ∧ items_of ns' = list_Insert it (items_of ns).
Proof.
  intros Hs Hsorted.
  destruct (Insert_spec h sl hd ns fl it Hs) as (la & lb & -> & Hlast & Hstop & Hcase).
  pose proof (descent_parts it la lb Hsorted Hlast Hstop) as Hp.
  unfold list_Insert.
  rewrite (descent_items it), (parts_below _ _ _ _ Hp), (parts_above _ _ _ _ Hp).
  destruct Hcase as [(c & lb0 & h1 & -> & Hlt & E1 & Hs1 & _)
                    | (Hhead & h1 & sl1 & x & lvl & fl1 & E1 & Hs1 & _)].
  - eexists h1, sl, _, fl. split; [done |]. split; [exact Hs1 |].
    simpl. rewrite Hlt. by rewrite items_of_app.
  - eexists h1, sl1, _, fl1. split; [done |]. split; [exact Hs1 |].
    rewrite items_of_app. do 2 f_equal.
    destruct lb as [|c lb0]; [done |]. simpl. by rewrite (Hhead c eq_refl).
Qed.

(** [Delete] as a function of the list of cells; the node it unlinks is
    the one at which [searchNode] stops, and it goes to the pool, cleared,
    or stays outside of list and pool. *)
Lemma Delete_list_Shape h sl hd ns fl key :
  Shape h sl hd ns fl → cells_sorted ns →
  ∃ h' sl' ns' fl',
    Delete h sl (Some key) = Ok ((list_Delete key (items_of ns)).1, h', sl')
    ∧ Shape h' sl' hd ns' fl'
    ∧ items_of ns' = (list_Delete key (items_of ns)).2
    ∧ ((list_Delete key (items_of ns)).1 = true →
       ∃ x, searchNode h sl (Some key) = Ok (Some x)
            ∧ (fl' = fl ++ [x] ∧ cleared h' x
               ∨ fl' = fl ∧ length fl = Z.to_nat DefaultFreeListSize
                 ∧ x ∉ hd :: (c_loc <$> ns') ++ fl')
            ∧ ∃ n, h' !! x = Some n ∧ (1 ≤ len (forward n))%nat).
Proof.
  intros Hs Hsorted.
  destruct (Delete_frame h sl hd ns fl key Hs) as (la & lb & -> & Hlast & Hstop & Hcase).
  pose proof (descent_parts key la lb Hsorted Hlast Hstop) as Hp.
  unfold list_Delete, list_Search. cbn [fst snd].
  rewrite (descent_items key), (parts_equal _ _ _ _ Hp), (parts_other _ _ _ _ Hp).
  destruct Hcase as [(c & lb0 & h1 & sl1 & fl1 & -> & Hlt & E1 & Hs1 & _ & Hfl & _ & _ & _
                      & Hnode) | (Hhead & E1)].
  - exists h1, sl1, (la ++ lb0), fl1. simpl. rewrite Hlt. simpl. split; [done |].
    split; [done |]. split; [by rewrite items_of_app |]. intros _.
    exists (c_loc c). split; [done |].
    assert (1 ≤ c_lvl c)%nat as Hlvl.
    { pose proof (sh_lvls _ _ _ _ _ Hs) as Hl. apply Forall_app in Hl as [_ Hl].
      apply Forall_cons in Hl as [? _]. lia. }
    assert (held h c) as Hc.
    { pose proof (sh_held _ _ _ _ _ Hs) as Hheld.
      apply Forall_app in Hheld as [_ Hheld]. by apply Forall_cons in Hheld as [? _]. }
    destruct Hfl as [(-> & Hcl & Hinfo) | (-> & Hfull & Hinfo & _)].
    + split; [by left |]. apply info_Some in Hinfo as (n & Hn & _ & Hlen).
      exists n. split; [done | lia].
    + split.
      * right. split; [done |]. split; [done |].
        pose proof (sh_nodup _ _ _ _ _ Hs) as Hnd.
        rewrite fmap_app, fmap_cons in Hnd.
        apply NoDup_remove_mid in Hnd as [_ Hnx]. by rewrite fmap_app.
      * unfold held in Hc. rewrite <- Hinfo in Hc.
        apply info_Some in Hc as (n & Hn & _ & Hlen). exists n. split; [done | lia].
  - exists h, sl, (la ++ lb), fl.
    assert (hit key lb = [] ∧ after_hit key lb = lb) as [-> ->].
    { destruct lb as [|c lb0]; [done |]. simpl. by rewrite (Hhead c eq_refl). }
    split; [done |]. split; [done |]. split; [by rewrite items_of_app | done].
Qed.

(** ** The three calls as functions of the traversal *)

Lemma Search_list h sl l key :
  reachable h sl → iterate h sl = Ok (Some <$> l) →
  Search h sl (Some key) = Ok (list_Search key l).
Proof.
  intros Hr Hl. destruct (reachable_Inv h sl Hr) as (hd & ns & fl & Hs & Hsorted).
  apply (iterate_items _ _ _ _ _ _ Hs) in Hl as ->. by eapply Search_list_Shape.
Qed.

Lemma Insert_list h sl l it :
  reachable h sl → iterate h sl = Ok (Some <$> l) →
  ∃ h' sl', Insert h sl (Some it) = Ok (h', sl')
            ∧ iterate h' sl' = Ok (Some <$> list_Insert it l).
Proof.
  intros Hr Hl. destruct (reachable_Inv h sl Hr) as (hd & ns & fl & Hs & Hsorted).
  apply (iterate_items _ _ _ _ _ _ Hs) in Hl as ->.
  destruct (Insert_list_Shape h sl hd ns fl it Hs Hsorted)
    as (h' & sl' & ns' & fl' & E & Hs' & Hitems).
  exists h', sl'. split; [done |]. by rewrite (iterate_spec _ _ _ _ _ Hs'), Hitems.
Qed.

Lemma Delete_list h sl l key :
  reachable h sl → iterate h sl = Ok (Some <$> l) →
  ∃ h' sl', Delete h sl (Some key) = Ok ((list_Delete key l).1, h', sl')
            ∧ iterate h' sl' = Ok (Some <$> (list_Delete key l).2).
Proof.
  intros Hr Hl. destruct (reachable_Inv h sl Hr) as (hd & ns & fl & Hs & Hsorted).
  apply (iterate_items _ _ _ _ _ _ Hs) in Hl as ->.
  destruct (Delete_list_Shape h sl hd ns fl key Hs Hsorted)
    as (h' & sl' & ns' & fl' & E & Hs' & Hitems & _).
  exists h', sl'. split; [done |]. by rewrite (iterate_spec _ _ _ _ _ Hs'), Hitems.
Qed.

(** ** The list functions on an ascending list *)

(** An ascending list in the three parts of a key; at most one item is
    equal to the key. *)
Lemma ascending_parts key l :
  ascending l →
  ∃ A E B, l = A ++ E ++ B ∧ parts key A E B
           ∧ (E = [] ∨ ∃ v, E = [v]).
Proof.
  induction 1 as [|v l Hl IH Hv].
  - exists [], [], []. split; [done |]. split; [by split | by left].
  - destruct IH as (A & E & B & -> & [HA HE HB] & Hone).
    destruct (Less v key) eqn:Hvk.
    + exists (v :: A), E, B. split; [done |]. split; [| done].
      split; [by constructor | done | done].
    + assert (∀ w, w ∈ A ++ E ++ B → Less key w = true) as Hup.
      { intros w Hw. rewrite Forall_forall in Hv. specialize (Hv w Hw).
        destruct (Less key v) eqn:Hkv.
        - by eapply less_trans.
        - by apply (eqv_less_r key v w). }
      assert (A = []) as ->.
      { destruct A as [|a A]; [done |]. apply Forall_cons in HA as [Ha _].
        specialize (Hup a ltac:(by left)). apply less_asym in Ha. congruence. }
      assert (E = []) as ->.
      { destruct E as [|e E]; [done |]. apply Forall_cons in HE as [[_ He] _].
        specialize (Hup e ltac:(by left)). congruence. }
      simpl in *. destruct (Less key v) eqn:Hkv.
      * exists [], [], (v :: B). split; [done |]. split; [| by left].
        split; [done | done | by constructor].
      * exists [], [v], B. split; [done |]. split; [| right; by exists v].
        split; [done | | done]. apply Forall_singleton. by split.
Qed.

End Contents.

Section Laws.

Context {T : Type} `{!Item T} `{!StrictWeak T}.
Implicit Types (h : gmap loc (node T)) (c : cell T) (cs ns la lb : list (cell T)).
Implicit Types (a b : loc) (i j : nat) (key it u v w : T) (l : list T) (fl : list loc).

(** ** The list functions on an ascending list *)

Lemma list_Insert_parts it l :
  ascending l →
  ∃ A E B, l = A ++ E ++ B ∧ parts it A E B ∧ (E = [] ∨ ∃ v, E = [v])
           ∧ list_Insert it l = A ++ [it] ++ B ∧ parts it A [it] B.
Proof.
  intros Hl. destruct (ascending_parts it l Hl) as (A & E & B & -> & Hp & Hone).
  exists A, E, B. split; [done |]. split; [done |]. split; [done |]. split.
  - unfold list_Insert. by rewrite (parts_below _ _ _ _ Hp), (parts_above _ _ _ _ Hp).
  - destruct Hp as [HA HE HB]. split; [done | | done].
    apply Forall_singleton, eqv_refl.
Qed.

Lemma list_Search_Insert key it l :
  ascending l →
  list_Search key (list_Insert it l)
  = if decide (eqv key it) then Some it else list_Search key l.
Proof.
  intros Hl.
  destruct (list_Insert_parts it l Hl) as (A & E & B & -> & Hp & Hone & -> & Hp').
  unfold list_Search. case_decide as Hk.
  - apply (parts_eqv it key) in Hp'; [| by apply eqv_sym].
    by rewrite (parts_equal _ _ _ _ Hp').
  - rewrite !filter_app. do 2 f_equal. f_equal.
    rewrite (filter_none _ E), filter_cons_False; [done | |].
    + intros Hit. apply Hk. by apply eqv_sym.
    + destruct Hp as [_ HE _]. eapply Forall_impl; [exact HE |]. simpl.
      intros v Hv Hvk. apply Hk. apply (eqv_trans key v it); [by apply eqv_sym | done].
Qed.

Lemma list_Search_Delete key k l :
  list_Search key (list_Delete k l).2
  = if decide (eqv key k) then None else list_Search key l.
Proof.
  unfold list_Delete, list_Search. cbn [snd]. case_decide as Hk.
  - rewrite filter_none; [done |]. apply Forall_forall. intros v Hv Hvk.
    apply list_elem_of_filter in Hv as [Hv _]. apply Hv.
    by apply (eqv_trans v key k).
  - rewrite list_filter_filter_l; [done |]. intros v Hv Hvk. apply Hk.
    apply (eqv_trans key v k); [by apply eqv_sym | done].
Qed.

Lemma list_Delete_Insert key it l :
  ascending l → eqv key it → list_Search it l = None →
  list_Delete key (list_Insert it l) = (true, l).
Proof.
  intros Hl Hk Habsent.
  destruct (list_Insert_parts it l Hl) as (A & E & B & -> & Hp & Hone & -> & Hp').
  unfold list_Search in Habsent. rewrite (parts_equal _ _ _ _ Hp) in Habsent.
  assert (E = []) as -> by (by destruct E).
  apply (parts_eqv it key) in Hp'; [| by apply eqv_sym].
  unfold list_Delete, list_Search.
  by rewrite (parts_equal _ _ _ _ Hp'), (parts_other _ _ _ _ Hp').
Qed.

Lemma list_Insert_Delete key v l :
  ascending l → list_Search key l = Some v →
  (list_Delete key l).1 = true ∧ list_Insert v (list_Delete key l).2 = l.
Proof.
  intros Hl Hfound.
  destruct (ascending_parts key l Hl) as (A & E & B & -> & Hp & Hone).
  unfold list_Delete, list_Search in *. cbn [fst snd].
  rewrite (parts_equal _ _ _ _ Hp) in *. rewrite (parts_other _ _ _ _ Hp).
  rewrite Hfound. split; [done |].
  destruct Hone as [-> | [v' ->]]; [done |]. injection Hfound as ->.
  assert (eqv v key) as Hv.
  { destruct Hp as [_ HE _]. by rewrite Forall_singleton in HE. }
  assert (parts v A [] B) as Hp0.
  { apply (parts_eqv key v); [by apply eqv_sym |].
    destruct Hp as [HA _ HB]. split; [done | constructor | done]. }
  unfold list_Insert.
  pose proof (parts_below _ _ _ _ Hp0) as E1. pose proof (parts_above _ _ _ _ Hp0) as E2.
  simpl in E1, E2. by rewrite E1, E2.
Qed.

(** ** States a program can build and their traversal *)

Lemma reachable_iterate h sl :
  reachable h sl →
  ∃ l, iterate h sl = Ok (Some <$> l) ∧ ascending l
       ∧ Len sl = wrap_int (Z.of_nat (length l)).
Proof.
  intros Hr. destruct (reachable_Inv h sl Hr) as (hd & ns & fl & Hs & Hsorted).
  exists (items_of ns). split; [by eapply iterate_spec |].
  split; [by apply cells_sorted_items |].
  unfold Len, items_of. rewrite length_fmap. apply (sh_length _ _ _ _ _ Hs).
Qed.

Lemma iterate_Len h sl h' sl' :
  reachable h sl → reachable h' sl' → iterate h' sl' = iterate h sl → Len sl' = Len sl.
Proof.
  intros Hr Hr' E.
  destruct (reachable_iterate h sl Hr) as (l & Hl & _ & ->).
  destruct (reachable_iterate h' sl' Hr') as (l' & Hl' & _ & ->).
  rewrite Hl, Hl' in E. injection E as E. apply (inj (fmap Some)) in E. by rewrite E.
Qed.

Lemma perform_list h sl l (c : call T) :
  reachable h sl → iterate h sl = Ok (Some <$> l) →
  ∃ h' sl', perform h sl c = Ok ((list_perform c l).1, h', sl')
            ∧ reachable h' sl'
            ∧ iterate h' sl' = Ok (Some <$> (list_perform c l).2).
Proof.
  intros Hr Hl. destruct c as [it | key | key]; cbn [perform list_perform fst snd].
  - destruct (Insert_list h sl l it Hr Hl) as (h' & sl' & E & Hl').
    exists h', sl'. rewrite E, bind_Ok. split; [done |]. split; [| done].
    by eapply reach_insert.
  - destruct (Delete_list h sl l key Hr Hl) as (h' & sl' & E & Hl').
    exists h', sl'. rewrite E, bind_Ok. split; [done |]. split; [| done].
    by eapply reach_delete.
  - exists h, sl. rewrite (Search_list h sl l key Hr Hl), bind_Ok. done.
Qed.

Lemma perform_all_list (cs : list (call T)) : ∀ h sl l,
  reachable h sl → iterate h sl = Ok (Some <$> l) →
  ∃ h' sl', perform_all h sl cs = Ok ((list_perform_all cs l).1, h', sl')
            ∧ reachable h' sl'
            ∧ iterate h' sl' = Ok (Some <$> (list_perform_all cs l).2).
Proof.
  induction cs as [|c cs IH]; intros h sl l Hr Hl.
  - exists h, sl. done.
  - destruct (perform_list h sl l c Hr Hl) as (h1 & sl1 & E1 & Hr1 & Hl1).
    destruct (IH h1 sl1 _ Hr1 Hl1) as (h2 & sl2 & E2 & Hr2 & Hl2).
    exists h2, sl2. cbn [perform_all list_perform_all].
    rewrite E1, bind_Ok. cbn beta iota. rewrite E2, bind_Ok. cbn beta iota.
    destruct (list_perform c l) as [o l1]. cbn [fst snd] in *.
    destruct (list_perform_all cs l1) as [os l2]. done.
Qed.

(** ** Laws of the calls *)

(** The three calls act on the traversal as the list functions do: on a
    state a program can build whose traversal yields [l], [Search] returns
    the item of [l] equal to the key, if any; [Insert] returns and leaves a
    state whose traversal yields the items of [l] below the new one, the
    new one and the items of [l] above it; [Delete] returns whether an item
    of [l] is equal to the key and leaves a state whose traversal yields
    the other items of [l]. *)
Theorem calls_refine_list h sl l :
  reachable h sl → iterate h sl = Ok (Some <$> l) →
  (∀ key, Search h sl (Some key) = Ok (list_Search key l))
  ∧ (∀ it, ∃ h' sl', Insert h sl (Some it) = Ok (h', sl')
                     ∧ iterate h' sl' = Ok (Some <$> list_Insert it l))
  ∧ (∀ key, ∃ h' sl', Delete h sl (Some key) = Ok ((list_Delete key l).1, h', sl')
                      ∧ iterate h' sl' = Ok (Some <$> (list_Delete key l).2)).
Proof.
  intros Hr Hl. split; [| split].
  - intros key. by apply Search_list.
  - intros it. by apply Insert_list.
  - intros key. by apply Delete_list.
Qed.

(** What a program sees does not depend on the levels drawn: two states
    with the same traversal, whatever their maximum level, their random
    source and the calls that built them, answer every sequence of calls
    alike, the sequence returns on both, and the traversal and the length
    after it are the same. *)
Theorem programs_agree h1 sl1 h2 sl2 (cs : list (call T)) :
  reachable h1 sl1 → reachable h2 sl2 → iterate h1 sl1 = iterate h2 sl2 →
  ∃ os h1' sl1' h2' sl2',
    perform_all h1 sl1 cs = Ok (os, h1', sl1')
    ∧ perform_all h2 sl2 cs = Ok (os, h2', sl2')
    ∧ iterate h1' sl1' = iterate h2' sl2'
    ∧ Len sl1' = Len sl2'.
Proof.
  intros Hr1 Hr2 E.
  destruct (reachable_iterate h1 sl1 Hr1) as (l & Hl1 & _ & _).
  assert (iterate h2 sl2 = Ok (Some <$> l)) as Hl2 by (by rewrite <- E).
  destruct (perform_all_list cs h1 sl1 l Hr1 Hl1) as (h1' & sl1' & E1 & Hr1' & Hl1').
  destruct (perform_all_list cs h2 sl2 l Hr2 Hl2) as (h2' & sl2' & E2 & Hr2' & Hl2').
  exists (list_perform_all cs l).1, h1', sl1', h2', sl2'.
  split; [done |]. split; [done |]. split; [by rewrite Hl1', Hl2' |].
  apply (iterate_Len h2' sl2' h1' sl1'); [done | done |]. by rewrite Hl1', Hl2'.
Qed.

(** After [Insert] of an item, [Search] for a key equal to it returns that
    item, the one just handed in, and [Search] for any other key returns
    what it returned before. *)
Theorem Insert_then_Search h sl it h' sl' key :
  reachable h sl → Insert h sl (Some it) = Ok (h', sl') →
  Search h' sl' (Some key)
  = if decide (eqv key it) then Ok (Some it) else Search h sl (Some key).
Proof.
  intros Hr E.
  destruct (reachable_iterate h sl Hr) as (l & Hl & Hasc & _).
  destruct (Insert_list h sl l it Hr Hl) as (h1 & sl1 & E1 & Hl1).
  rewrite E1 in E. injection E as <- <-.
  assert (reachable h1 sl1) as Hr1 by (by eapply reach_insert).
  rewrite (Search_list h1 sl1 _ key Hr1 Hl1), (Search_list h sl l key Hr Hl).
  rewrite (list_Search_Insert key it l Hasc). by case_decide.
Qed.

(** After [Delete], [Search] for a key equal to the deleted one returns
    nil, and [Search] for any other key returns what it returned before. *)
Theorem Delete_then_Search h sl k (r : bool) h' sl' key :
  reachable h sl → Delete h sl (Some k) = Ok (r, h', sl') →
  Search h' sl' (Some key)
  = if decide (eqv key k) then Ok None else Search h sl (Some key).
Proof.
  intros Hr E.
  destruct (reachable_iterate h sl Hr) as (l & Hl & Hasc & _).
  destruct (Delete_list h sl l k Hr Hl) as (h1 & sl1 & E1 & Hl1).
  assert (reachable h' sl') as Hr' by (by eapply reach_delete).
  rewrite E1 in E. injection E as _ <- <-.
  rewrite (Search_list h1 sl1 _ key Hr' Hl1), (Search_list h sl l key Hr Hl).
  rewrite (list_Search_Delete key k l). by case_decide.
Qed.

(** [Insert] of an item that [Search] does not find, followed by [Delete]
    with a key equal to it: both return, [Delete] reports true, and the
    traversal and the length are what they were before the two calls. *)
Theorem Insert_then_Delete h sl it key :
  reachable h sl → Search h sl (Some it) = Ok None → eqv key it →
  ∃ h1 sl1 h2 sl2,
    Insert h sl (Some it) = Ok (h1, sl1)
    ∧ Delete h1 sl1 (Some key) = Ok (true, h2, sl2)
    ∧ iterate h2 sl2 = iterate h sl
    ∧ Len sl2 = Len sl.
Proof.
  intros Hr Habsent Hk.
  destruct (reachable_iterate h sl Hr) as (l & Hl & Hasc & _).
  rewrite (Search_list h sl l it Hr Hl) in Habsent. injection Habsent as Habsent.
  destruct (Insert_list h sl l it Hr Hl) as (h1 & sl1 & E1 & Hl1).
  assert (reachable h1 sl1) as Hr1 by (by eapply reach_insert).
  destruct (Delete_list h1 sl1 _ key Hr1 Hl1) as (h2 & sl2 & E2 & Hl2).
  rewrite (list_Delete_Insert key it l Hasc Hk Habsent) in E2, Hl2. cbn [fst snd] in *.
  assert (reachable h2 sl2) as Hr2 by (by eapply reach_delete).
  exists h1, sl1, h2, sl2. split; [done |]. split; [done |].
  assert (iterate h2 sl2 = iterate h sl) as E by (by rewrite Hl, Hl2).
  split; [done |]. by apply (iterate_Len h sl h2 sl2).
Qed.

(** [Delete] with a key for which [Search] finds an item, followed by
    [Insert] of that item: both return, [Delete] reports true, and the
    traversal and the length are what they were before the two calls. *)
Theorem Delete_then_Insert h sl key v :
  reachable h sl → Search h sl (Some key) = Ok (Some v) →
  ∃ h1 sl1 h2 sl2,
    Delete h sl (Some key) = Ok (true, h1, sl1)
    ∧ Insert h1 sl1 (Some v) = Ok (h2, sl2)
    ∧ iterate h2 sl2 = iterate h sl
    ∧ Len sl2 = Len sl.
Proof.
  intros Hr Hfound.
  destruct (reachable_iterate h sl Hr) as (l & Hl & Hasc & _).
  rewrite (Search_list h sl l key Hr Hl) in Hfound. injection Hfound as Hfound.
  destruct (list_Insert_Delete key v l Hasc Hfound) as [Htrue Hback].
  destruct (Delete_list h sl l key Hr Hl) as (h1 & sl1 & E1 & Hl1).
  rewrite Htrue in E1.
  assert (reachable h1 sl1) as Hr1 by (by eapply reach_delete).
  destruct (Insert_list h1 sl1 _ v Hr1 Hl1) as (h2 & sl2 & E2 & Hl2).
  rewrite Hback in Hl2.
  assert (reachable h2 sl2) as Hr2 by (by eapply reach_insert).
  exists h1, sl1, h2, sl2. split; [done |]. split; [done |].
  assert (iterate h2 sl2 = iterate h sl) as E by (by rewrite Hl, Hl2).
  split; [done |]. by apply (iterate_Len h sl h2 sl2).
Qed.

End Laws.

Section Store.

Context {T : Type} `{!Item T}.
Implicit Types (h : gmap loc (node T)) (c : cell T) (cs ns la lb : list (cell T)).
Implicit Types (a b x : loc) (i j : nat) (key it : T) (fl : list loc).

(** ** Nodes of the pool *)

Lemma cleared_ext h h' a :
  info h' a = info h a → (∀ j, fwd h' a j = fwd h a j) → cleared h a → cleared h' a.
Proof.
  intros Hinfo Hfwd (n & Hn & Hitem & Hnil).
  assert (info h a = Some (None, len (forward n))) as Hi.
  { apply info_Some. by exists n. }
  rewrite <- Hinfo in Hi. apply info_Some in Hi as (n' & Hn' & Hitem' & Hlen).
  exists n'. split; [done |]. split; [done |].
  replace (elems (forward n')) with (elems (forward n)); [done |].
  apply list_eq. intros j. pose proof (Hfwd j) as E. unfold fwd in E.
  rewrite Hn, Hn' in E. done.
Qed.

Lemma cleared_insert_ne h a b (n : node T) :
  a ≠ b → cleared h b → cleared (<[a := n]> h) b.
Proof.
  intros Hne. apply cleared_ext; [by apply info_insert_ne |].
  intros j. by apply fwd_insert_ne.
Qed.

Lemma Shape_pool_apart h sl hd ns fl a :
  Shape h sl hd ns fl → a ∈ fl → a ∉ hd :: (c_loc <$> ns).
Proof.
  intros Hs Ha Hin. pose proof (sh_nodup _ _ _ _ _ Hs) as Hnd.
  rewrite app_comm_cons in Hnd. apply NoDup_app in Hnd as (_ & Hdisj & _).
  by apply (Hdisj a).
Qed.

Lemma Shape_pool_NoDup h sl hd ns fl : Shape h sl hd ns fl → NoDup fl.
Proof.
  intros Hs. pose proof (sh_nodup _ _ _ _ _ Hs) as Hnd.
  rewrite app_comm_cons in Hnd. by apply NoDup_app in Hnd as (_ & _ & ?).
Qed.

(** Every state a program can build has the right shape, and the nodes of
    its pool are cleared. *)
Lemma reachable_pool h sl :
  reachable h sl → ∃ hd ns fl, Shape h sl hd ns fl ∧ Forall (cleared h) fl.
Proof.
  induction 1 as [m seed h sl E | h sl it h' sl' _ (hd & ns & fl & Hs & Hcl) E
                 | h sl it r h' sl' _ (hd & ns & fl & Hs & Hcl) E].
  - apply NewWithLevel_Shape in E as (hd & Hs & _). exists hd, [], []. by split.
  - destruct it as [it|]; [| by rewrite Insert_nil in E].
    destruct (Insert_frame h sl hd ns fl it Hs) as (la & lb & Hns & _ & _ & Hcase).
    destruct Hcase as [(c & lb0 & cn & Hlb & _ & Hcn & E1 & Hs1)
                      | (_ & h1 & sl1 & x & lvl & fl1 & E1 & Hs1 & _ & Hfl & Hinfo & Hfwd)];
      rewrite E1 in E; injection E as <- <-.
    + eexists hd, _, fl. split; [exact Hs1 |].
      rewrite Forall_forall in *. intros a Ha. apply cleared_insert_ne; [| by apply Hcl].
      intros <-. apply (Shape_pool_apart _ _ _ _ _ _ Hs Ha).
      right. apply list_elem_of_fmap_2. rewrite Hns, Hlb. apply elem_of_app. right. by left.
    + eexists hd, _, fl1. split; [exact Hs1 |].
      destruct Hfl as [(-> & -> & _) | ->]; [constructor |].
      apply Forall_app in Hcl as [Hcl _].
      rewrite Forall_forall in *. intros a Ha.
      assert (a ≠ x) as Hax.
      { intros ->. pose proof (Shape_pool_NoDup _ _ _ _ _ Hs) as Hnd.
        apply NoDup_app in Hnd as (_ & Hdisj & _). apply (Hdisj x Ha). by left. }
      assert (a ∉ hd :: (c_loc <$> ns)) as Hout.
      { apply (Shape_pool_apart _ _ _ _ _ _ Hs). apply elem_of_app. by left. }
      apply (cleared_ext h); [by apply Hinfo | intros j; by apply Hfwd | by apply Hcl].
  - destruct it as [key|].
    + destruct (Delete_frame h sl hd ns fl key Hs) as (la & lb & Hns & _ & _ & Hcase).
      destruct Hcase as [(c & lb0 & h1 & sl1 & fl1 & Hlb & _ & E1 & Hs1 & _ & Hfl
                          & Hinfo & Hfwd & _) | (_ & E1)];
        rewrite E1 in E; injection E as <- <- <-; [| eauto].
      exists hd, (la ++ lb0), fl1. split; [done |].
      assert (Forall (cleared h1) fl) as Hkeep.
      { rewrite Forall_forall in *. intros a Ha.
        pose proof (Shape_pool_apart _ _ _ _ _ _ Hs Ha) as Hout.
        apply (cleared_ext h); [| intros j; by apply Hfwd | by apply Hcl].
        apply Hinfo. intros ->. apply Hout. right. apply list_elem_of_fmap_2.
        rewrite Hns, Hlb. apply elem_of_app. right. by left. }
      destruct Hfl as [(-> & Hx & _) | (-> & _)]; [| done].
      apply Forall_app. split; [done |]. by apply Forall_singleton.
    + apply Delete_nil_inv in E as (_ & -> & ->). eauto.
Qed.

(** In every state a program can build the pool holds at most 32 nodes,
    all different and none of them the header, and each of them holds no
    item and only nil forward pointers: a deleted item and the neighbours
    of its node are not kept alive by the pool. *)
Theorem pool_nodes_cleared h sl :
  reachable h sl →
  ∃ fl, freelist (sl_freelist sl) = Some <$> fl
        ∧ fl_cap (sl_freelist sl) = Z.to_nat DefaultFreeListSize
        ∧ (length fl ≤ Z.to_nat DefaultFreeListSize)%nat
        ∧ NoDup fl
        ∧ (header sl ∉ Some <$> fl)
        ∧ Forall (cleared h) fl.
Proof.
  intros Hr. destruct (reachable_pool h sl Hr) as (hd & ns & fl & Hs & Hcl).
  pose proof (sh_free_cap _ _ _ _ _ Hs) as [Hcap Hlen].
  exists fl. split; [apply (sh_free _ _ _ _ _ Hs) |]. split; [done |]. split; [done |].
  split; [by eapply Shape_pool_NoDup |]. split; [| done].
  rewrite (sh_header _ _ _ _ _ Hs). intros Hin.
  apply list_elem_of_fmap in Hin as (a & [= <-] & Ha).
  apply (Shape_pool_apart _ _ _ _ _ _ Hs Ha). by left.
Qed.

(** ** Nodes of the store *)

Lemma dom_frame h h' x :
  (∀ b, b ≠ x → info h' b = info h b) → is_Some (h' !! x) →
  dom h' = {[x]} ∪ dom h.
Proof.
  intros Hinfo Hx. apply set_eq. intros b.
  rewrite elem_of_union, elem_of_singleton, !elem_of_dom.
  destruct (decide (b = x)) as [-> | Hne]; [tauto |].
  rewrite <- !info_is_Some, (Hinfo b Hne). tauto.
Qed.

(** [Insert] either replaces an item, and then the list record and the
    nodes of the store are what they were, or adds one: then the length
    grows by one, and the node comes from the pool when the pool holds
    one, the one released last, so that the store gets no new node; only
    with an empty pool the store gets one new node. *)
Theorem Insert_allocates h sl it h' sl' :
  reachable h sl → Insert h sl (Some it) = Ok (h', sl') →
  (sl' = sl ∧ dom h' = dom h)
  ∨ (Len sl' = wrap_int (Len sl + 1)
     ∧ ((freelist (sl_freelist sl) = [] ∧ freelist (sl_freelist sl') = []
         ∧ ∃ x, (x ∉ dom h) ∧ dom h' = {[x]} ∪ dom h)
        ∨ (∃ x, freelist (sl_freelist sl) = freelist (sl_freelist sl') ++ [Some x]
                ∧ dom h' = dom h))).
Proof.
  intros Hr E. destruct (reachable_Shape h sl Hr) as (hd & ns & fl & Hs).
  destruct (Insert_frame h sl hd ns fl it Hs) as (la & lb & Hns & _ & _ & Hcase).
  destruct Hcase as [(c & lb0 & cn & Hlb & _ & Hcn & E1 & Hs1)
                    | (_ & h1 & sl1 & x & lvl & fl1 & E1 & Hs1 & _ & Hfl & Hinfo & Hfwd)];
    rewrite E1 in E; injection E as <- <-.
  - left. split; [done |]. apply dom_insert_lookup_L. by exists cn.
  - right. split.
    { unfold Len. rewrite (sh_length _ _ _ _ _ Hs1), (sh_length _ _ _ _ _ Hs), wrap_int_add.
      f_equal. rewrite Hns, !length_app. simpl. lia. }
    assert (is_Some (h1 !! x)) as Hx.
    { pose proof (sh_held _ _ _ _ _ Hs1) as Hheld.
      apply Forall_app in Hheld as [_ Hheld]. apply Forall_cons in Hheld as [Hc _].
      apply info_is_Some. unfold held in Hc. simpl in Hc. by rewrite Hc. }
    pose proof (dom_frame h h1 x Hinfo Hx) as Hdom.
    rewrite (sh_free _ _ _ _ _ Hs), (sh_free _ _ _ _ _ Hs1).
    destruct Hfl as [(-> & -> & Hnew) | ->].
    + left. split; [done |]. split; [done |]. exists x. split; [| done].
      by apply not_elem_of_dom.
    + right. exists x. split; [by rewrite fmap_app |].
      rewrite Hdom. apply subseteq_union_1_L.
      pose proof (sh_free_dom _ _ _ _ _ Hs) as Hlive.
      apply Forall_app in Hlive as [_ Hlive]. rewrite Forall_singleton in Hlive.
      intros b ->%elem_of_singleton. by apply elem_of_dom.
Qed.

(** [Delete] that finds its item takes one off the length and hands the
    node to the pool: with fewer than 32 nodes in the pool the node goes
    to its end, cleared; with 32 the pool stays as it is.  The store gets
    no new node. *)
Theorem Delete_releases h sl key h' sl' :
  reachable h sl → Delete h sl (Some key) = Ok (true, h', sl') →
  Len sl' = wrap_int (Len sl - 1)
  ∧ dom h' = dom h
  ∧ (((length (freelist (sl_freelist sl)) < Z.to_nat DefaultFreeListSize)%nat
      ∧ ∃ x, freelist (sl_freelist sl') = freelist (sl_freelist sl) ++ [Some x]
             ∧ cleared h' x)
     ∨ (length (freelist (sl_freelist sl)) = Z.to_nat DefaultFreeListSize
        ∧ freelist (sl_freelist sl') = freelist (sl_freelist sl))).
Proof.
  intros Hr E. destruct (reachable_Shape h sl Hr) as (hd & ns & fl & Hs).
  destruct (Delete_frame h sl hd ns fl key Hs) as (la & lb & Hns & _ & _ & Hcase).
  destruct Hcase as [(c & lb0 & h1 & sl1 & fl1 & Hlb & _ & E1 & Hs1 & _ & Hfl
                      & _ & _ & Hdom & _) | (_ & E1)];
    rewrite E1 in E; [injection E as <- <- | discriminate].
  split.
  { unfold Len. rewrite (sh_length _ _ _ _ _ Hs1), (sh_length _ _ _ _ _ Hs).
    rewrite <- Z.add_opp_r, wrap_int_add. f_equal.
    rewrite Hns, Hlb, !length_app. simpl. lia. }
  split; [done |].
  rewrite (sh_free _ _ _ _ _ Hs), (sh_free _ _ _ _ _ Hs1), length_fmap.
  destruct Hfl as [(-> & Hx & _) | (-> & Hfull & _)].
  - left. pose proof (sh_free_cap _ _ _ _ _ Hs1) as [_ Hlen].
    rewrite length_app in Hlen. simpl in Hlen. split; [lia |].
    exists (c_loc c). split; [by rewrite fmap_app | done].
  - right. by split.
Qed.

(** ** Lanes *)

(** In every state a program can build, lane 0 holds the items of the
    traversal, every lane above holds a part of the lane below it, in the
    same order, and the lanes from the level on are empty. *)
Theorem lanes_nested h sl :
  reachable h sl →
  ∃ lanes : nat → list T,
    iterate h sl = Ok (Some <$> lanes 0%nat)
    ∧ (∀ i, (i < Z.to_nat (maxLevel sl))%nat →
            lane_items h sl i = Ok (Some <$> lanes i))
    ∧ (∀ i, lanes (S i) `sublist_of` lanes i)
    ∧ (∀ i, (Z.to_nat (level sl) ≤ i)%nat → lanes i = []).
Proof.
  intros Hr. destruct (reachable_Shape h sl Hr) as (hd & ns & fl & Hs).
  exists (λ i, items_of (lane i ns)). split; [| split; [| split]].
  - rewrite (Shape_lane_0 _ _ _ _ _ Hs). by eapply iterate_spec.
  - intros i Hi. by eapply lane_items_spec.
  - intros i. rewrite <- (lane_lane (S i) i ns) by lia.
    apply fmap_sublist, lane_sublist.
  - intros i Hi. by rewrite (Shape_lane_top _ _ _ _ _ i Hs).
Qed.

(** ** Calls with a nil key *)

Lemma scan_empty_lane h hd i (k : option T) rounds :
  fwd h hd i = Some None → scan (S rounds) h (Some hd) i k = Ok (Some hd).
Proof.
  intros Hf. apply fwd_Some in Hf as (n & Hn & Hi).
  cbn [scan]. by rewrite (load_Ok _ _ _ Hn), bind_Ok, (index_Ok _ _ _ Hi), bind_Ok.
Qed.

Lemma prev_loop_empty h hd (k : option T) : ∀ n (prev : list ptr),
  (∀ i, (i < n)%nat → fwd h hd i = Some None) → (n ≤ length prev)%nat →
  ∃ prev', prev_loop h (Some hd) n k prev = Ok (Some hd, prev').
Proof.
  induction n as [|n IH]; intros prev Hnil Hlen; [by eexists |].
  cbn [prev_loop]. rewrite scan_empty_lane by (apply Hnil; lia). rewrite bind_Ok.
  rewrite set_prev_Ok by lia. rewrite bind_Ok.
  apply IH; [intros i Hi; apply Hnil; lia |]. rewrite length_insert. lia.
Qed.

(** On a list that holds no item a nil key does no harm, because no item
    is there to be compared with it: [Search] returns nil, [Delete]
    returns false and changes nothing, [MoveTo] leaves an iterator that is
    not valid, and [NewRange] returns the empty range, whatever its
    bounds, over which [ForEach] visits nothing. *)
Theorem nil_key_on_empty_list h sl :
  reachable h sl → iterate h sl = Ok [] →
  Search h sl None = Ok None
  ∧ Delete h sl None = Ok (false, h, sl)
  ∧ (∀ it0 : Iterator, MoveTo h sl it0 None = Ok {| it_x := None |})
  ∧ (∀ lo hi, NewRange h sl lo hi = Ok {| r_begin := None; r_end := None |})
  ∧ ForEach h {| r_begin := None; r_end := None |} = Ok [].
Proof.
  intros Hr Hempty. destruct (reachable_Shape h sl Hr) as (hd & ns & fl & Hs).
  rewrite (iterate_spec _ _ _ _ _ Hs) in Hempty. injection Hempty as Hempty.
  apply fmap_nil_inv in Hempty. apply fmap_nil_inv in Hempty. subst ns.
  pose proof (sh_level _ _ _ _ _ Hs) as Hlevel.
  pose proof (sh_max _ _ _ _ _ Hs) as Hmax.
  assert (∀ i, (i < Z.to_nat (maxLevel sl))%nat → fwd h hd i = Some None) as Hnil.
  { intros i Hi. apply (sh_chain _ _ _ _ _ Hs i Hi). }
  destruct (prev_loop_empty h hd None (Z.to_nat (level sl))
              (replicate (Z.to_nat (maxLevel sl)) None)) as (prev & Hloop).
  { intros i Hi. apply Hnil. lia. }
  { rewrite length_replicate. lia. }
  pose proof (search_loop_prev_loop _ _ _ _ _ _ _ Hloop) as Hsearch.
  pose proof (Hnil 0%nat ltac:(lia)) as H0. apply fwd_Some in H0 as (hn & Hhn & H0).
  pose proof (sh_header _ _ _ _ _ Hs) as Hheader.
  assert (searchNode h sl None = Ok None) as Hnode.
  { unfold searchNode. rewrite Hheader, Hsearch, bind_Ok, (load_Ok _ _ _ Hhn), bind_Ok.
    by apply index_Ok. }
  split; [| split; [| split; [| split]]].
  - unfold Search. rewrite Hheader, Hsearch, bind_Ok, (load_Ok _ _ _ Hhn), bind_Ok.
    by rewrite (index_Ok _ _ _ H0), bind_Ok.
  - unfold Delete. rewrite new_prev_Ok by lia. rewrite bind_Ok, Hheader, Hloop, bind_Ok.
    cbn beta iota. rewrite (load_Ok _ _ _ Hhn), bind_Ok.
    by rewrite (index_Ok _ _ _ H0), bind_Ok.
  - intros it0. unfold MoveTo. by rewrite Hnode, bind_Ok.
  - intros lo hi. unfold NewRange. rewrite (sh_header _ _ _ _ _ Hs).
    rewrite (load_Ok _ _ _ Hhn), bind_Ok. by rewrite (index_Ok _ _ _ H0), bind_Ok.
  - done.
Qed.



End Store.

Section Positions.

Context {T : Type} `{!Item T} `{!StrictWeak T}.
Implicit Types (h : gmap loc (node T)) (c : cell T) (cs ns la lb : list (cell T)).
Implicit Types (a b x : loc) (i j : nat) (key it u v w : T) (l : list T) (fl : list loc).

(** A list splits in one way only into a part on which a property holds
    and a part that starts where it fails. *)
Lemma split_unique {A} (P : A → Prop) (l1 l2 l1' l2' : list A) :
  l1 ++ l2 = l1' ++ l2' → Forall P l1 → Forall P l1' →
  (∀ y, head l2 = Some y → ¬ P y) → (∀ y, head l2' = Some y → ¬ P y) →
  l1 = l1' ∧ l2 = l2'.
Proof.
  revert l1'. induction l1 as [|y l1 IH]; intros l1' E H1 H1' H2 H2'.
  - destruct l1' as [|y' l1']; [done |]. exfalso. simpl in E. subst l2.
    apply Forall_cons in H1' as [Hy _]. by apply (H2 y').
  - destruct l1' as [|y' l1'].
    + exfalso. simpl in E. subst l2'. apply Forall_cons in H1 as [Hy _]. by apply (H2' y).
    + simpl in E. injection E as <- E.
      apply Forall_cons in H1 as [_ H1]. apply Forall_cons in H1' as [_ H1'].
      destruct (IH l1' E H1 H1' H2 H2') as [-> ->]. done.
Qed.

Lemma descent_unique key la lb la' lb' :
  cells_sorted (la ++ lb) → la ++ lb = la' ++ lb' →
  (∀ c, last la = Some c → Less (c_item c) key = true) → stops key lb →
  (∀ c, last la' = Some c → Less (c_item c) key = true) → stops key lb' →
  la = la' ∧ lb = lb'.
Proof.
  intros Hsorted E Hlast Hstop Hlast' Hstop'.
  destruct (split_sorted key la lb Hsorted Hlast Hstop) as [Hla Hlb].
  rewrite E in Hsorted.
  destruct (split_sorted key la' lb' Hsorted Hlast' Hstop') as [Hla' Hlb'].
  apply (split_unique (λ c, Less (c_item c) key = true)); try done.
  - intros c Hc. destruct lb as [|c0 lb0]; [done |]. injection Hc as ->.
    apply Forall_cons in Hlb as [Hc _]. congruence.
  - intros c Hc. destruct lb' as [|c0 lb0]; [done |]. injection Hc as ->.
    apply Forall_cons in Hlb' as [Hc _]. congruence.
Qed.

(** ** MoveTo *)

(** [MoveTo] returns, whatever the iterator was, and leaves it on the
    first item that is not less than the key: the traversal from there
    yields the stored items that are not less than the key, in order.  The
    iterator is not valid exactly when there is no such item. *)
Theorem MoveTo_seeks h sl (it0 : Iterator) key :
  reachable h sl →
  ∃ l (it : Iterator),
    iterate h sl = Ok (Some <$> l)
    ∧ MoveTo h sl it0 (Some key) = Ok it
    ∧ iterate_loop (S (size h)) h it
      = Ok (Some <$> filter (λ v, Less v key = false) l)
    ∧ (∀ v rest, filter (λ v, Less v key = false) l = v :: rest →
                 Valid it = true ∧ Value h it = Ok (Some v))
    ∧ (filter (λ v, Less v key = false) l = [] → Valid it = false).
Proof.
  intros Hr. destruct (reachable_Inv h sl Hr) as (hd & ns & fl & Hs & Hsorted).
  destruct (Search_spec h sl hd ns fl key Hs) as (la & lb & -> & Hlast & Hstop & Hnode & _).
  destruct (split_sorted key la lb Hsorted Hlast Hstop) as [Hla Hlb].
  assert (filter (λ v, Less v key = false) (items_of (la ++ lb)) = items_of lb) as Hfilter.
  { rewrite items_of_app, filter_app.
    rewrite (filter_items_none _ la), (filter_items_all _ lb); [done | done |].
    eapply Forall_impl; [exact Hla |]. simpl. intros c Hc. congruence. }
  pose proof (sh_held _ _ _ _ _ Hs) as Hheld. apply Forall_app in Hheld as [_ Hheld].
  exists (items_of (la ++ lb)), {| it_x := c_loc <$> head lb |}.
  split; [by eapply iterate_spec |]. rewrite Hfilter.
  split; [unfold MoveTo; by rewrite Hnode, bind_Ok |]. split; [| split].
  - pose proof (sh_level _ _ _ _ _ Hs) as Hlevel.
    pose proof (sh_chain _ _ _ _ _ Hs 0%nat ltac:(lia)) as Hch.
    rewrite (Shape_lane_0 _ _ _ _ _ Hs) in Hch. apply chain_app in Hch.
    eapply iterate_loop_spec; [exact Hch | done |].
    pose proof (Shape_size _ _ _ _ _ Hs) as Hsize. rewrite length_app in Hsize. lia.
  - intros v rest E. destruct lb as [|c lb0]; [done |].
    injection E as <- _. split; [done |].
    apply Forall_cons in Hheld as [Hc _]. apply held_load in Hc as (n & Hn & Hitem).
    unfold Value. cbn [it_x head fmap option_fmap option_map].
    by rewrite (load_Ok _ _ _ Hn), bind_Ok, Hitem.
  - intros E. by destruct lb.
Qed.

(** ** An iterator on a node that is deleted *)

(** [Delete] of the item an iterator stands on does not make the iterator
    panic.  When the pool has room the node is cleared: [Value] returns
    nil and [Next] leaves the iterator not valid, so a traversal in
    progress ends there.  When the pool is full the node is left as it is:
    [Value] still returns the deleted item and [Next] steps to the node
    that followed it. *)
Theorem Delete_under_Iterator h sl (it0 : Iterator) key (it : Iterator) h' sl' :
  reachable h sl → MoveTo h sl it0 (Some key) = Ok it →
  Delete h sl (Some key) = Ok (true, h', sl') →
  if decide (length (freelist (sl_freelist sl)) < Z.to_nat DefaultFreeListSize)%nat
  then Value h' it = Ok None ∧ Next h' it = Ok {| it_x := None |}
  else ∃ v (it' : Iterator), Value h' it = Ok (Some v) ∧ Value h it = Ok (Some v) ∧ eqv v key
                ∧ Next h' it = Ok it' ∧ Next h it = Ok it'.
Proof.
  intros Hr Hmove E. destruct (reachable_Inv h sl Hr) as (hd & ns & fl & Hs & Hsorted).
  destruct (Search_spec h sl hd ns fl key Hs) as (la & lb & Hns & Hlast & Hstop & Hnode & _).
  unfold MoveTo in Hmove. rewrite Hnode, bind_Ok in Hmove. injection Hmove as <-.
  destruct (Delete_frame h sl hd ns fl key Hs) as (la' & lb' & Hns' & Hlast' & Hstop' & Hcase).
  destruct Hcase as [(c & lb0 & h1 & sl1 & fl1 & Hlb & Hlt & E1 & Hs1 & _ & Hfl
                      & _ & _ & _) | (_ & E1)];
    rewrite E1 in E; [injection E as <- <- | discriminate].
  assert (lb = c :: lb0) as ->.
  { rewrite Hns in Hsorted, Hns'.
    destruct (descent_unique key la lb la' lb' Hsorted Hns' Hlast Hstop Hlast' Hstop')
      as [_ ->]. done. }
  cbn [head fmap option_fmap option_map].
  assert (held h c ∧ (1 ≤ c_lvl c)%nat) as [Hc Hlvl].
  { pose proof (sh_held _ _ _ _ _ Hs) as Hheld. pose proof (sh_lvls _ _ _ _ _ Hs) as Hl.
    rewrite Hns in Hheld, Hl.
    apply Forall_app in Hheld as [_ Hheld]. apply Forall_cons in Hheld as [? _].
    apply Forall_app in Hl as [_ Hl]. apply Forall_cons in Hl as [? _]. split; [done | lia]. }
  rewrite (sh_free _ _ _ _ _ Hs), length_fmap.
  destruct Hfl as [(-> & _ & Hinfo) | (-> & Hfull & Hinfo & Hfwd)].
  - pose proof (sh_free_cap _ _ _ _ _ Hs1) as [_ Hlen].
    rewrite length_app in Hlen. simpl in Hlen. rewrite decide_True by lia.
    pose proof (reachable_pool h1 sl1 (reach_delete _ _ _ _ _ _ Hr E1))
      as (hd' & ns' & fl' & Hs' & Hcl).
    assert (fl' = fl ++ [c_loc c]) as ->.
    { pose proof (sh_free _ _ _ _ _ Hs') as F'. rewrite (sh_free _ _ _ _ _ Hs1) in F'.
      symmetry. revert F'. apply (inj (fmap Some)). }
    apply Forall_app in Hcl as [_ Hcl]. rewrite Forall_singleton in Hcl.
    destruct Hcl as (n & Hn & Hitem & Hnil).
    apply info_Some in Hinfo as (n' & Hn' & _ & Hlen'). rewrite Hn in Hn'. injection Hn' as <-.
    unfold Value, Next. cbn [it_x]. rewrite (load_Ok _ _ _ Hn), !bind_Ok, Hitem.
    split; [done |].
    destruct (elems (forward n) !! 0%nat) as [p|] eqn:E0.
    + rewrite (index_Ok _ _ _ E0), bind_Ok. rewrite Forall_forall in Hnil.
      by rewrite (Hnil p (list_elem_of_lookup_2 _ _ _ E0)).
    + apply lookup_ge_None in E0. unfold len in Hlen'. lia.
  - rewrite decide_False by lia.
    pose proof Hc as Hc'. unfold held in Hc'. rewrite <- Hinfo in Hc'.
    apply info_Some in Hc as (n & Hn & Hitem & Hlen0).
    apply info_Some in Hc' as (n1 & Hn1 & Hitem1 & Hlen1).
    assert (∃ p, elems (forward n) !! 0%nat = Some p) as [p Hp].
    { apply lookup_lt_is_Some_2. unfold len in Hlen0. lia. }
    assert (elems (forward n1) !! 0%nat = Some p) as Hp1.
    { pose proof (Hfwd 0%nat) as F. unfold fwd in F. rewrite Hn, Hn1 in F. simpl in F.
      by rewrite F. }
    exists (c_item c), {| it_x := p |}. unfold Value, Next. cbn [it_x].
    rewrite (load_Ok _ _ _ Hn), (load_Ok _ _ _ Hn1), !bind_Ok, Hitem, Hitem1.
    rewrite (index_Ok _ _ _ Hp), (index_Ok _ _ _ Hp1), !bind_Ok.
    split; [done |]. split; [done |]. split; [| done].
    split; [| done].
    simpl in Hstop'. rewrite Hns in Hsorted.
    destruct (split_sorted key la (c :: lb0) Hsorted Hlast Hstop) as [_ Hlb'].
    by apply Forall_cons in Hlb' as [? _].
Qed.

(** ** Insert of the same item once more *)

(** [Insert] of an item right after [Insert] of that item changes
    nothing: it returns the store and the list record it was given, so it
    draws no level and takes no node. *)
Theorem Insert_twice h sl it h' sl' :
  reachable h sl → Insert h sl (Some it) = Ok (h', sl') →
  Insert h' sl' (Some it) = Ok (h', sl').
Proof.
  intros Hr E.
  destruct (reachable_iterate h sl Hr) as (l & Hl & Hasc & _).
  destruct (Insert_list h sl l it Hr Hl) as (h1 & sl1 & E1 & Hl1).
  rewrite E1 in E. injection E as <- <-.
  assert (reachable h1 sl1) as Hr1 by (by eapply reach_insert).
  destruct (reachable_Inv h1 sl1 Hr1) as (hd & ns & fl & Hs & Hsorted).
  apply (iterate_items _ _ _ _ _ _ Hs) in Hl1.
  destruct (Insert_frame h1 sl1 hd ns fl it Hs) as (la & lb & -> & Hlast & Hstop & Hcase).
  pose proof (descent_parts it la lb Hsorted Hlast Hstop) as Hp.
  assert (items_of (hit it lb) = [it]) as Hhit.
  { rewrite <- (parts_equal _ _ _ _ Hp), <- descent_items, <- Hl1.
    destruct (list_Insert_parts it l Hasc) as (A & E & B & _ & _ & _ & -> & Hp').
    apply (parts_equal _ _ _ _ Hp'). }
  destruct Hcase as [(c & lb0 & cn & -> & Hlt & Hcn & E2 & _)
                    | (Hhead & _)].
  - simpl in Hhit. rewrite Hlt in Hhit. injection Hhit as Hitem.
    rewrite E2. do 2 f_equal. apply insert_id. rewrite Hcn. f_equal.
    pose proof (sh_held _ _ _ _ _ Hs) as Hheld.
    apply Forall_app in Hheld as [_ Hheld]. apply Forall_cons in Hheld as [Hc _].
    apply held_load in Hc as (n & Hn & Hi). rewrite Hcn in Hn. injection Hn as <-.
    destruct cn as [ci cf]. simpl in *. by rewrite Hi, Hitem.
  - destruct lb as [|c lb0]; [done |]. simpl in Hhit.
    by rewrite (Hhead c eq_refl) in Hhit.
Qed.

(** ** A range of one key *)

(** The range from a key to the same key holds what [Search] finds for
    the key: [ForEach] visits that item, or nothing when [Search] returns
    nil. *)
Theorem NewRange_of_one_key h sl key :
  reachable h sl →
  ∃ r (found : option T),
    NewRange h sl (Some key) (Some key) = Ok r
    ∧ Search h sl (Some key) = Ok found
    ∧ ForEach h r = Ok (match found with Some v => [Some v] | None => [] end).
Proof.
  intros Hr. destruct (reachable_Inv h sl Hr) as (hd & ns & fl & Hs & Hsorted).
  destruct (NewRange_spec h sl hd ns fl key key Hs Hsorted) as (r & Hrange & Heach).
  pose proof (iterate_spec _ _ _ _ _ Hs) as Hl.
  exists r, (list_Search key (items_of ns)). split; [done |].
  split; [by apply Search_list |]. rewrite Heach. f_equal.
  unfold list_Search.
  replace (filter (between key key) (items_of ns))
    with (filter (λ v, eqv v key) (items_of ns)) by (by apply list_filter_iff).
  destruct (ascending_parts key (items_of ns) (cells_sorted_items _ Hsorted))
    as (A & E & B & -> & Hp & Hone).
  rewrite (parts_equal _ _ _ _ Hp). by destruct Hone as [-> | [v ->]].
Qed.

End Positions.

(** * The fixed-level variant against the other one *)

Section Variants.

Context {T : Type} `{!Item T}.
Implicit Types (h : gmap loc (node T)) (c : cell T) (cs ns la lb : list (cell T)).
Implicit Types (a b x : loc) (i j : nat) (key it : T) (fl : list loc).
Implicit Types (fsl : Fixed.SkipList) (sl : SkipList) (seed : Rand) (r : nat → Q).

(** ** The loops *)

Lemma Fixed_scan_eq h i (k : option T) : ∀ rounds (x : ptr),
  Fixed.scan rounds h x i k = scan rounds h x i k.
Proof.
  induction rounds as [|r IH]; intros x; [done |].
  cbn [Fixed.scan scan].
  destruct (load h x) as [xn| | |]; [rewrite !bind_Ok | done | done | done].
  destruct (index (forward xn) i) as [y| | |]; [rewrite !bind_Ok | done | done | done].
  destruct y as [a|]; [| done].
  destruct (load h (Some a)) as [yn| | |]; [rewrite !bind_Ok | done | done | done].
  destruct (call_Less (item yn) k) as [b| | |]; [rewrite !bind_Ok | done | done | done].
  destruct b; [| done]. apply IH.
Qed.

Lemma Fixed_search_loop_eq h (k : option T) : ∀ n (x : ptr),
  Fixed.search_loop h x n k = search_loop h x n k.
Proof.
  induction n as [|n IH]; intros x; [done |].
  cbn [Fixed.search_loop search_loop]. rewrite Fixed_scan_eq.
  destruct (scan (S (size h)) h x n k) as [x'| | |]; [| done | done | done].
  rewrite !bind_Ok. apply IH.
Qed.

Lemma Fixed_prev_loop_eq h (k : option T) : ∀ n (x : ptr) (prev : list ptr),
  Fixed.prev_loop h x n k prev = prev_loop h x n k prev.
Proof.
  induction n as [|n IH]; intros x prev; [done |].
  cbn [Fixed.prev_loop prev_loop]. rewrite Fixed_scan_eq.
  destruct (scan (S (size h)) h x n k) as [x'| | |]; [| done | done | done].
  rewrite !bind_Ok.
  destruct (set_prev prev n x') as [prev'| | |]; [| done | done | done].
  rewrite !bind_Ok. apply IH.
Qed.

Lemma Fixed_splice_loop_eq (x : ptr) (prev : list ptr) : ∀ n i h,
  Fixed.splice_loop h x prev i n = splice_loop h x prev i n.
Proof.
  induction n as [|n IH]; intros i h; [done |].
  cbn [Fixed.splice_loop splice_loop].
  destruct (load h x) as [xn| | |]; [rewrite !bind_Ok | done | done | done].
  destruct (get_prev prev i) as [p| | |]; [rewrite !bind_Ok | done | done | done].
  destruct (load h p) as [pn| | |]; [rewrite !bind_Ok | done | done | done].
  destruct (index (forward pn) i) as [v| | |]; [rewrite !bind_Ok | done | done | done].
  destruct (assign (forward xn) i v) as [fx| | |]; [rewrite !bind_Ok | done | done | done].
  destruct (store h x {| item := item xn; forward := fx |}) as [h1| | |];
    [rewrite !bind_Ok | done | done | done].
  destruct (load h1 p) as [pn'| | |]; [rewrite !bind_Ok | done | done | done].
  destruct (assign (forward pn') i x) as [fp| | |]; [rewrite !bind_Ok | done | done | done].
  destruct (store h1 p {| item := item pn'; forward := fp |}) as [h2| | |];
    [rewrite !bind_Ok | done | done | done].
  apply IH.
Qed.

Lemma Fixed_shrink_loop_eq h (hd : ptr) : ∀ rounds lvl,
  lvl < 2 ^ 31 →
  Fixed.shrink_loop rounds h hd lvl = shrink_loop rounds h hd lvl.
Proof.
  induction rounds as [|r IH]; intros lvl Hlvl; [done |].
  cbn [Fixed.shrink_loop shrink_loop].
  destruct (Z.ltb_spec 1 lvl) as [Hgt | Hle]; [| done].
  destruct (load h hd) as [hn| | |]; [rewrite !bind_Ok | done | done | done].
  destruct (index (forward hn) (Z.to_nat (lvl - 1))) as [v| | |];
    [rewrite !bind_Ok | done | done | done].
  destruct v as [a|]; [done |].
  rewrite wrap_int_small, wrap_int32_small by lia. apply IH. lia.
Qed.

(** ** The draws *)

Lemma draw_succeeds_Fixed_draws r n :
  draw_succeeds (Fixed_draws r n) = Fixed.draw_succeeds (r n).
Proof. unfold Fixed_draws. by destruct (Fixed.draw_succeeds (r n)). Qed.

Lemma Fixed_randomLevel_loop_eq : ∀ n lvl r,
  1 ≤ lvl ≤ Fixed.kMaxLevel →
  randomLevel_loop n Fixed.kMaxLevel lvl (Fixed_draws r)
  = ((Fixed.randomLevel_loop n lvl r).1, Fixed_draws (Fixed.randomLevel_loop n lvl r).2).
Proof.
  unfold Fixed.kMaxLevel.
  induction n as [|n IH]; intros lvl r Hlvl; [done |].
  cbn [randomLevel_loop Fixed.randomLevel_loop]. unfold Fixed.kMaxLevel.
  destruct (Z.ltb_spec lvl 12) as [Hlt | Hge]; [| done].
  unfold Uint32, Fixed.Float64. rewrite draw_succeeds_Fixed_draws.
  destruct (Fixed.draw_succeeds (r 0%nat)); [| done].
  rewrite wrap_int_small, wrap_int32_small by lia.
  apply (IH (lvl + 1) (λ k, r (S k))). lia.
Qed.

Lemma Fixed_randomLevel_eq fsl r :
  randomLevel (Fixed_canonical fsl (Fixed_draws r))
  = ((Fixed.randomLevel r).1, Fixed_draws (Fixed.randomLevel r).2).
Proof.
  unfold randomLevel, Fixed.randomLevel. cbn [maxLevel random Fixed_canonical].
  apply Fixed_randomLevel_loop_eq. unfold Fixed.kMaxLevel. lia.
Qed.

(** ** The calls *)

Lemma Fixed_forget_canonical fsl seed : Fixed_forget (Fixed_canonical fsl seed) = fsl.
Proof. by destruct fsl. Qed.

Lemma Fixed_New_eq seed :
  Fixed.New (T := T)
  = ('(h, sl) ← NewWithLevel Fixed.kMaxLevel seed; Ok (h, Fixed_forget sl)).
Proof. done. Qed.

Lemma Fixed_Search_eq h fsl seed (k : option T) :
  Fixed.Search h fsl k = Search h (Fixed_canonical fsl seed) k.
Proof.
  unfold Fixed.Search, Search. rewrite Fixed_search_loop_eq. done.
Qed.

Lemma Fixed_NewIterator_eq h fsl seed :
  Fixed.NewIterator h fsl = NewIterator h (Fixed_canonical fsl seed).
Proof. done. Qed.

Lemma Fixed_iterate_eq h fsl seed :
  Fixed.iterate h fsl = iterate h (Fixed_canonical fsl seed).
Proof. done. Qed.

(** [Insert] of the fixed-level variant does what the other one does on
    the same store when the draws succeed alike. *)
Lemma Fixed_Insert_canonical h fsl r (v : option T) h' sl' :
  Insert h (Fixed_canonical fsl (Fixed_draws r)) v = Ok (h', sl') →
  ∃ r', Fixed.Insert h fsl r v = Ok (h', Fixed_forget sl', r')
        ∧ sl' = Fixed_canonical (Fixed_forget sl') (Fixed_draws r')
        ∧ (r' = r ∨ r' = (Fixed.randomLevel r).2).
Proof.
  unfold Insert, Fixed.Insert. destruct v as [v|]; [| done].
  rewrite new_prev_Ok by (cbn; unfold Fixed.kMaxLevel, DefaultMaxLevel; lia).
  rewrite bind_Ok. cbn [header level maxLevel sl_freelist sl_length random Fixed_canonical].
  rewrite Fixed_prev_loop_eq.
  intros E. apply bind_Ok_inv in E as ([x prev] & Hloop & E). rewrite Hloop, bind_Ok.
  cbn beta iota in *.
  apply bind_Ok_inv in E as (xn & Hxn & E). rewrite Hxn, bind_Ok.
  apply bind_Ok_inv in E as (y & Hy & E). rewrite Hy, bind_Ok.
  apply bind_Ok_inv in E as (upd & Hupd & E). rewrite Hupd, bind_Ok.
  destruct upd.
  - apply bind_Ok_inv in E as (yn & Hyn & E). rewrite Hyn, bind_Ok.
    apply bind_Ok_inv in E as (h1 & Hh1 & E). rewrite Hh1, bind_Ok.
    injection E as <- <-. exists r. rewrite Fixed_forget_canonical.
    split; [done |]. split; [done | by left].
  - rewrite Fixed_randomLevel_eq in E. destruct (Fixed.randomLevel r) as [lvl r'].
    cbn [fst snd] in E.
    apply bind_Ok_inv in E as ([prev2 level'] & Hraise & E). rewrite Hraise, bind_Ok.
    cbn beta iota in *.
    apply bind_Ok_inv in E as ([[x1 h1] fl1] & Hnew & E). rewrite Hnew, bind_Ok.
    cbn beta iota in *.
    apply bind_Ok_inv in E as (x1n & Hx1n & E). rewrite Hx1n, bind_Ok.
    apply bind_Ok_inv in E as (h2 & Hh2 & E). rewrite Hh2, bind_Ok.
    apply bind_Ok_inv in E as (h3 & Hh3 & E).
    rewrite Fixed_splice_loop_eq, Hh3, bind_Ok.
    injection E as <- <-. exists r'. split; [done |]. split; [done | by right].
Qed.

Lemma unsplice_loop_dom (x : ptr) (prev : list ptr) a : ∀ n i h h1,
  unsplice_loop h x prev i n = Ok h1 → is_Some (h !! a) → is_Some (h1 !! a).
Proof.
  induction n as [|n IH]; intros i h h1 E Ha; [by injection E as <- |].
  cbn [unsplice_loop] in E.
  apply bind_Ok_inv in E as (p & _ & E). apply bind_Ok_inv in E as (pn & _ & E).
  apply bind_Ok_inv in E as (v & _ & E).
  case_decide; [| by injection E as <-].
  apply bind_Ok_inv in E as (xn & _ & E). apply bind_Ok_inv in E as (w & _ & E).
  apply bind_Ok_inv in E as (fp & _ & E). apply bind_Ok_inv in E as (h' & Hstore & E).
  apply (IH _ _ _ E). destruct p as [b|]; [| done]. injection Hstore as <-.
  destruct (decide (b = a)) as [-> | Hne].
  - by rewrite lookup_insert_eq.
  - by rewrite lookup_insert_ne.
Qed.

(** [Delete] of the fixed-level variant does what the other one does on
    the same store, and, when the pool is full, clears the node that it
    has unlinked and cannot keep. *)
Lemma Fixed_Delete_canonical h fsl seed (k : option T) (b : bool) h' sl' :
  Fixed.level fsl < 2 ^ 31 →
  Delete h (Fixed_canonical fsl seed) k = Ok (b, h', sl') →
  ∃ h'', Fixed.Delete h fsl k = Ok (b, h'', Fixed_forget sl')
         ∧ sl' = Fixed_canonical (Fixed_forget sl') seed
         ∧ (b = false → h'' = h' ∧ sl' = Fixed_canonical fsl seed)
         ∧ (b = true →
            ∃ x xn, searchNode h (Fixed_canonical fsl seed) k = Ok (Some x)
                    ∧ h'' !! x = Some xn
                    ∧ ((length (freelist (Fixed.sl_freelist fsl))
                        < fl_cap (Fixed.sl_freelist fsl))%nat ∧ h'' = h'
                       ∨ (fl_cap (Fixed.sl_freelist fsl)
                          ≤ length (freelist (Fixed.sl_freelist fsl)))%nat
                         ∧ ∃ xn', h' !! x = Some xn'
                                  ∧ h'' = <[x := {| item := None;
                                                    forward := clear (forward xn') |}]> h')).
Proof.
  intros Hlevel. unfold Delete, Fixed.Delete, searchNode.
  rewrite new_prev_Ok by (cbn; unfold Fixed.kMaxLevel, DefaultMaxLevel; lia).
  rewrite bind_Ok. cbn [header level maxLevel sl_freelist sl_length random Fixed_canonical].
  rewrite Fixed_prev_loop_eq.
  intros E. apply bind_Ok_inv in E as ([x prev] & Hloop & E). rewrite Hloop, bind_Ok.
  rewrite (search_loop_prev_loop _ _ _ _ _ _ _ Hloop), bind_Ok.
  cbn beta iota in *.
  apply bind_Ok_inv in E as (xn & Hxn & E). rewrite Hxn, !bind_Ok.
  apply bind_Ok_inv in E as (y & Hy & E). rewrite Hy, bind_Ok.
  apply bind_Ok_inv in E as (found & Hfound & E). rewrite Hfound, bind_Ok.
  destruct found.
  - apply bind_Ok_inv in E as (h1 & Hh1 & E). rewrite Hh1, bind_Ok.
    apply bind_Ok_inv in E as (level' & Hshrink & E).
    rewrite Fixed_shrink_loop_eq, Hshrink, bind_Ok by done.
    apply bind_Ok_inv in E as ([[out h2] fl2] & Hfree & E). cbn beta iota in E.
    injection E as <- <- <-.
    destruct y as [a|]; [| done].
    apply bind_Ok_inv in Hfound as (yn & Hyn & _).
    assert (is_Some (h1 !! a)) as [an Han].
    { apply (unsplice_loop_dom _ _ _ _ _ _ _ Hh1).
      unfold load in Hyn. destruct (h !! a); [done | discriminate]. }
    unfold freeNode in Hfree. unfold Fixed.freeNode.
    rewrite (load_Ok _ _ _ Han), bind_Ok in *. cbn [store] in *. rewrite bind_Ok in *.
    case_decide as Hroom.
    + injection Hfree as <- <- <-. eexists. split; [done |]. split; [done |].
      split; [done |]. intros _. eexists a, _. split; [done |].
      split; [apply lookup_insert_eq |]. left. done.
    + injection Hfree as <- <- <-. eexists. split; [done |]. split; [done |].
      split; [done |]. intros _. eexists a, _. split; [done |].
      split; [apply lookup_insert_eq |]. right. split; [lia |]. by exists an.
  - injection E as <- <- <-. exists h. rewrite Fixed_forget_canonical.
    split; [done |]. split; [done |]. split; [done | done].
Qed.

Lemma Fixed_Delete_nil_inv h fsl (b : bool) h' fsl' :
  Fixed.Delete h fsl None = Ok (b, h', fsl') → b = false ∧ h' = h ∧ fsl' = fsl.
Proof.
  unfold Fixed.Delete. intros E.
  apply bind_Ok_inv in E as ([x prev'] & _ & E).
  apply bind_Ok_inv in E as (xn & _ & E).
  apply bind_Ok_inv in E as (y & _ & E).
  apply bind_Ok_inv in E as (found & Hfound & E).
  destruct y as [a|].
  - apply bind_Ok_inv in Hfound as (yn & _ & Hfound). simpl in Hfound. discriminate.
  - injection Hfound as <-. by injection E as <- <- <-.
Qed.

End Variants.

(** * The lists of the fixed-level variant *)

Section FixedShape.

Context {T : Type} `{!Item T}.
Implicit Types (h : gmap loc (node T)) (c : cell T) (cs ns la lb : list (cell T)).
Implicit Types (a b x : loc) (i j : nat) (key it : T) (fl : list loc).
Implicit Types (fsl : Fixed.SkipList) (sl : SkipList) (seed : Rand) (r : nat → Q).

(** The shape of a list does not depend on its random source. *)
Lemma Shape_seed h fsl seed seed' hd ns fl :
  Shape h (Fixed_canonical fsl seed) hd ns fl →
  Shape h (Fixed_canonical fsl seed') hd ns fl.
Proof. intros []. by constructor. Qed.

(** Nor on the nodes of the store that are neither in the list nor in the
    pool. *)
Lemma Shape_junk h sl hd ns fl x (n' : node T) :
  Shape h sl hd ns fl → x ∉ hd :: (c_loc <$> ns) ++ fl →
  Shape (<[x := n']> h) sl hd ns fl.
Proof.
  intros Hs Hx.
  assert (∀ b, b ∈ hd :: (c_loc <$> ns) → x ≠ b) as Hold.
  { intros b Hb ->. apply Hx. rewrite app_comm_cons. apply elem_of_app. by left. }
  constructor.
  - apply (sh_header _ _ _ _ _ Hs).
  - rewrite info_insert_ne; [apply (sh_hd _ _ _ _ _ Hs) | apply Hold; by left].
  - apply (sh_level _ _ _ _ _ Hs).
  - apply (sh_max _ _ _ _ _ Hs).
  - apply (sh_nodup _ _ _ _ _ Hs).
  - pose proof (sh_held _ _ _ _ _ Hs) as Hheld. rewrite Forall_forall in *.
    intros c Hc. eapply held_ext; [| by apply Hheld].
    apply info_insert_ne, Hold. right. by apply list_elem_of_fmap_2.
  - apply (sh_lvls _ _ _ _ _ Hs).
  - intros i Hi. eapply chain_ext; [| by apply (sh_chain _ _ _ _ _ Hs)].
    intros b Hb. apply fwd_insert_ne, Hold.
    apply elem_of_cons in Hb as [-> | Hb]; [by left |].
    right. by eapply lane_locs_elem.
  - apply (sh_top _ _ _ _ _ Hs).
  - apply (sh_length _ _ _ _ _ Hs).
  - apply (sh_free _ _ _ _ _ Hs).
  - apply (sh_free_cap _ _ _ _ _ Hs).
  - pose proof (sh_free_dom _ _ _ _ _ Hs) as Hdom.
    eapply Forall_impl; [done |]. simpl. intros a Ha.
    destruct (decide (x = a)) as [<- | Hne].
    + by rewrite lookup_insert_eq.
    + by rewrite lookup_insert_ne.
Qed.

Lemma cleared_clear h x (n : node T) :
  cleared (<[x := {| item := None; forward := clear (forward n) |}]> h) x.
Proof.
  eexists. split; [apply lookup_insert_eq |]. split; [done |].
  cbn [forward]. rewrite clear_elems. apply Forall_forall.
  by intros ? [-> _]%elem_of_replicate.
Qed.

End FixedShape.

Section FixedList.

Context {T : Type} `{!Item T} `{!StrictWeak T}.
Implicit Types (h : gmap loc (node T)) (c : cell T) (cs ns la lb : list (cell T)).
Implicit Types (a b x : loc) (i j : nat) (key it u v w : T) (l : list T) (fl : list loc).
Implicit Types (fsl : Fixed.SkipList) (sl : SkipList) (seed : Rand) (r : nat → Q).

(** ** Order *)

Lemma items_sorted_cells ns : ascending (items_of ns) → cells_sorted ns.
Proof.
  induction ns as [|c ns IH]; [constructor |].
  unfold items_of. rewrite fmap_cons. intros Hs.
  apply StronglySorted_cons in Hs as [Hc Hs]. apply StronglySorted_cons.
  split; [| by apply IH]. by rewrite Forall_fmap in Hc.
Qed.

Lemma ascending_list_Insert it l : ascending l → ascending (list_Insert it l).
Proof.
  intros Hl.
  destruct (list_Insert_parts it l Hl) as (A & E & B & -> & _ & _ & -> & [HA _ HB]).
  apply StronglySorted_app in Hl as (_ & HsA & Hl).
  apply StronglySorted_app_1_r in Hl.
  rewrite Forall_forall in HA, HB.
  apply StronglySorted_app_2; [| done |].
  - intros x1 x2 Hx1 Hx2. apply elem_of_cons in Hx2 as [-> | Hx2]; [by apply HA |].
    eapply less_trans; [by apply HA | by apply HB].
  - apply StronglySorted_cons. split; [by apply Forall_forall | done].
Qed.

Lemma ascending_list_Delete key l : ascending l → ascending (list_Delete key l).2.
Proof. apply ascending_filter. Qed.

(** ** The calls keep the shape and the order *)

Lemma Fixed_Insert_Shape h fsl seed hd ns fl r it :
  Shape h (Fixed_canonical fsl seed) hd ns fl → cells_sorted ns →
  ∃ h' fsl' r' ns' fl',
    Fixed.Insert h fsl r (Some it) = Ok (h', fsl', r')
    ∧ Shape h' (Fixed_canonical fsl' seed) hd ns' fl'
    ∧ cells_sorted ns'
    ∧ items_of ns' = list_Insert it (items_of ns).
Proof.
  intros Hs Hsorted. apply (Shape_seed _ _ _ (Fixed_draws r)) in Hs.
  destruct (Insert_list_Shape _ _ _ _ _ it Hs Hsorted)
    as (h' & sl' & ns' & fl' & E & Hs' & Hitems).
  destruct (Fixed_Insert_canonical _ _ _ _ _ _ E) as (r' & E' & Hsl' & _).
  exists h', (Fixed_forget sl'), r', ns', fl'. split; [done |].
  rewrite Hsl' in Hs'. split; [by eapply Shape_seed |]. split; [| done].
  apply items_sorted_cells. rewrite Hitems.
  by apply ascending_list_Insert, cells_sorted_items.
Qed.

Lemma Fixed_Delete_Shape h fsl seed hd ns fl key :
  Shape h (Fixed_canonical fsl seed) hd ns fl → cells_sorted ns →
  ∃ h' fsl' ns' fl',
    Fixed.Delete h fsl (Some key) = Ok ((list_Delete key (items_of ns)).1, h', fsl')
    ∧ Shape h' (Fixed_canonical fsl' seed) hd ns' fl'
    ∧ cells_sorted ns'
    ∧ items_of ns' = (list_Delete key (items_of ns)).2
    ∧ ((list_Delete key (items_of ns)).1 = true →
       ∃ x n, searchNode h (Fixed_canonical fsl seed) (Some key) = Ok (Some x)
              ∧ cleared h' x ∧ h' !! x = Some n ∧ (1 ≤ len (forward n))%nat).
Proof.
  intros Hs Hsorted.
  destruct (Delete_list_Shape _ _ _ _ _ key Hs Hsorted)
    as (h' & sl' & ns' & fl' & E & Hs' & Hitems & Hfound).
  assert (Fixed.level fsl < 2 ^ 31) as Hlevel.
  { pose proof (sh_level _ _ _ _ _ Hs) as Hl. pose proof (sh_max _ _ _ _ _ Hs) as Hm.
    cbn [level maxLevel Fixed_canonical] in Hl, Hm. unfold DefaultMaxLevel in Hm. lia. }
  destruct (Fixed_Delete_canonical _ _ _ _ _ _ _ Hlevel E)
    as (h'' & E' & Hsl' & Hnot & Hdone).
  assert (cells_sorted ns') as Hsorted'.
  { apply items_sorted_cells. rewrite Hitems.
    by apply ascending_list_Delete, cells_sorted_items. }
  rewrite Hsl' in Hs'.
  pose proof (sh_free _ _ _ _ _ Hs) as Hfree.
  pose proof (sh_free_cap _ _ _ _ _ Hs) as [Hcap Hlen].
  pose proof (sh_free_cap _ _ _ _ _ Hs') as [_ Hlen'].
  cbn [sl_freelist Fixed_canonical] in Hfree, Hcap.
  destruct (list_Delete key (items_of ns)).1 eqn:Hb.
  - destruct (Hdone eq_refl) as (x & xn & Hnode & Hxn & Hcase).
    destruct (Hfound eq_refl) as (x0 & Hnode0 & Hpool & n & Hn & Hlvl).
    rewrite Hnode in Hnode0. injection Hnode0 as <-.
    rewrite Hfree, length_fmap, Hcap in Hcase.
    destruct Hcase as [[Hroom ->] | (Hfull & xn' & Hxn' & ->)].
    + exists h', (Fixed_forget sl'), ns', fl'. split; [done |]. split; [done |].
      split; [done |]. split; [done |]. intros _. exists x, n. split; [done |].
      destruct Hpool as [[_ Hcl] | (_ & Hfl & _)]; [done | lia].
    + assert (x ∉ hd :: (c_loc <$> ns') ++ fl') as Hout.
      { destruct Hpool as [[-> _] | (_ & _ & Hout)]; [| done].
        rewrite length_app in Hlen'. simpl in Hlen'. lia. }
      eexists _, (Fixed_forget sl'), ns', fl'. split; [done |].
      split; [by apply Shape_junk |]. split; [done |]. split; [done |]. intros _.
      rewrite Hn in Hxn'. injection Hxn' as <-.
      exists x, {| item := None; forward := clear (forward n) |}.
      split; [done |]. split; [apply cleared_clear |].
      split; [apply lookup_insert_eq |]. cbn [forward]. by rewrite clear_len.
  - destruct (Hnot eq_refl) as [-> _].
    exists h', (Fixed_forget sl'), ns', fl'. done.
Qed.

(** ** Every state a program can build is a sorted list *)

Lemma Fixed_reachable_Inv h fsl :
  Fixed.reachable h fsl →
  ∀ seed, ∃ hd ns fl, Shape h (Fixed_canonical fsl seed) hd ns fl ∧ cells_sorted ns.
Proof.
  induction 1 as [h fsl E | h fsl r it h' fsl' r' _ IH E | h fsl it b h' fsl' _ IH E];
    intros seed.
  - rewrite (Fixed_New_eq seed) in E.
    rewrite NewWithLevel_Ok in E by (unfold Fixed.kMaxLevel, DefaultMaxLevel; lia).
    rewrite bind_Ok in E. injection E as <- <-.
    destruct (NewWithLevel_Shape (T := T) Fixed.kMaxLevel seed _ _
                (NewWithLevel_Ok (T := T) Fixed.kMaxLevel seed
                   ltac:(unfold Fixed.kMaxLevel, DefaultMaxLevel; lia)))
      as (hd & Hs & _).
    exists hd, [], []. split; [exact Hs | constructor].
  - destruct (IH seed) as (hd & ns & fl & Hs & Hsorted).
    destruct it as [it|]; [| done].
    destruct (Fixed_Insert_Shape h fsl seed hd ns fl r it Hs Hsorted)
      as (h1 & fsl1 & r1 & ns1 & fl1 & E1 & Hs1 & Hsorted1 & _).
    rewrite E1 in E. injection E as <- <- <-. eauto.
  - destruct (IH seed) as (hd & ns & fl & Hs & Hsorted).
    destruct it as [key|].
    + destruct (Fixed_Delete_Shape h fsl seed hd ns fl key Hs Hsorted)
        as (h1 & fsl1 & ns1 & fl1 & E1 & Hs1 & Hsorted1 & _).
      rewrite E1 in E. injection E as _ <- <-. eauto.
    + apply Fixed_Delete_nil_inv in E as (_ & -> & ->). eauto.
Qed.

Lemma Fixed_iterate_items h fsl seed hd ns fl l :
  Shape h (Fixed_canonical fsl seed) hd ns fl →
  Fixed.iterate h fsl = Ok (Some <$> l) → l = items_of ns.
Proof.
  intros Hs E. rewrite (Fixed_iterate_eq h fsl seed) in E. by eapply iterate_items.
Qed.

(** ** The fixed-level variant as a sorted list *)

(** The traversal of the fixed-level variant of skiplist.go: in every
    state a program can build with [New], [Insert] and [Delete] it returns,
    and the items it yields are strictly ascending; [Len] is their number. *)
Theorem Fixed_iteration_ascending h fsl :
  Fixed.reachable h fsl →
  ∃ items,
    Fixed.iterate h fsl = Ok (Some <$> items)
    ∧ ascending items
    ∧ Fixed.Len fsl = wrap_int (Z.of_nat (length items)).
Proof.
  intros Hr. destruct (Fixed_reachable_Inv h fsl Hr (λ _, 0)) as (hd & ns & fl & Hs & Hsorted).
  exists (items_of ns). split; [| split].
  - rewrite (Fixed_iterate_eq h fsl (λ _, 0)). by eapply iterate_spec.
  - by apply cells_sorted_items.
  - unfold Fixed.Len, items_of. rewrite length_fmap. apply (sh_length _ _ _ _ _ Hs).
Qed.

(** The three calls of the fixed-level variant act on the traversal as
    the list functions do, whatever values [rand.Float64] returns: [Search]
    returns the item equal to the key, if any; [Insert] returns and leaves
    the traversal with the item in its place; [Delete] returns whether an
    item is equal to the key and leaves the other items. *)
Theorem Fixed_calls_refine_list h fsl l :
  Fixed.reachable h fsl → Fixed.iterate h fsl = Ok (Some <$> l) →
  (∀ key, Fixed.Search h fsl (Some key) = Ok (list_Search key l))
  ∧ (∀ r it, ∃ h' fsl' r',
        Fixed.Insert h fsl r (Some it) = Ok (h', fsl', r')
        ∧ Fixed.iterate h' fsl' = Ok (Some <$> list_Insert it l))
  ∧ (∀ key, ∃ h' fsl',
        Fixed.Delete h fsl (Some key) = Ok ((list_Delete key l).1, h', fsl')
        ∧ Fixed.iterate h' fsl' = Ok (Some <$> (list_Delete key l).2)).
Proof.
  intros Hr Hl.
  destruct (Fixed_reachable_Inv h fsl Hr (λ _, 0)) as (hd & ns & fl & Hs & Hsorted).
  apply (Fixed_iterate_items _ _ _ _ _ _ _ Hs) in Hl as ->.
  split; [| split].
  - intros key. rewrite (Fixed_Search_eq h fsl (λ _, 0)). by eapply Search_list_Shape.
  - intros r it.
    destruct (Fixed_Insert_Shape h fsl _ hd ns fl r it Hs Hsorted)
      as (h1 & fsl1 & r1 & ns1 & fl1 & E1 & Hs1 & _ & Hitems).
    exists h1, fsl1, r1. split; [done |].
    rewrite (Fixed_iterate_eq h1 fsl1 (λ _, 0)), (iterate_spec _ _ _ _ _ Hs1). by rewrite Hitems.
  - intros key.
    destruct (Fixed_Delete_Shape h fsl _ hd ns fl key Hs Hsorted)
      as (h1 & fsl1 & ns1 & fl1 & E1 & Hs1 & _ & Hitems & _).
    exists h1, fsl1. split; [done |].
    rewrite (Fixed_iterate_eq h1 fsl1 (λ _, 0)), (iterate_spec _ _ _ _ _ Hs1). by rewrite Hitems.
Qed.

(** The two variants answer alike: on a list of the fixed-level variant
    and a list of the other one with the same traversal, [Search] returns
    the same, [Insert] returns on both and leaves the same traversal, and
    [Delete] returns the same answer on both and leaves the same traversal. *)
Theorem variants_agree h1 fsl h2 sl :
  Fixed.reachable h1 fsl → reachable h2 sl → Fixed.iterate h1 fsl = iterate h2 sl →
  (∀ key, Fixed.Search h1 fsl (Some key) = Search h2 sl (Some key))
  ∧ (∀ r it, ∃ h1' fsl' r' h2' sl',
        Fixed.Insert h1 fsl r (Some it) = Ok (h1', fsl', r')
        ∧ Insert h2 sl (Some it) = Ok (h2', sl')
        ∧ Fixed.iterate h1' fsl' = iterate h2' sl')
  ∧ (∀ key, ∃ (found : bool) h1' fsl' h2' sl',
        Fixed.Delete h1 fsl (Some key) = Ok (found, h1', fsl')
        ∧ Delete h2 sl (Some key) = Ok (found, h2', sl')
        ∧ Fixed.iterate h1' fsl' = iterate h2' sl').
Proof.
  intros Hr1 Hr2 E.
  destruct (reachable_iterate h2 sl Hr2) as (l & Hl2 & _ & _).
  destruct (Fixed_reachable_Inv h1 fsl Hr1 (λ _, 0)) as (hd & ns & fl & Hs & Hsorted).
  assert (l = items_of ns) as ->.
  { eapply Fixed_iterate_items; [done |]. by rewrite E. }
  split; [| split].
  - intros key. rewrite (Fixed_Search_eq h1 fsl (λ _, 0)).
    by rewrite (Search_list_Shape _ _ _ _ _ key Hs Hsorted), (Search_list h2 sl _ key Hr2 Hl2).
  - intros r it.
    destruct (Fixed_Insert_Shape h1 fsl _ hd ns fl r it Hs Hsorted)
      as (h1' & fsl' & r' & ns' & fl' & E1 & Hs' & _ & Hitems).
    destruct (Insert_list h2 sl _ it Hr2 Hl2) as (h2' & sl' & E2 & Hl2').
    exists h1', fsl', r', h2', sl'. split; [done |]. split; [done |].
    rewrite (Fixed_iterate_eq h1' fsl' (λ _, 0)), (iterate_spec _ _ _ _ _ Hs'), Hl2'.
    by rewrite Hitems.
  - intros key.
    destruct (Fixed_Delete_Shape h1 fsl _ hd ns fl key Hs Hsorted)
      as (h1' & fsl' & ns' & fl' & E1 & Hs' & _ & Hitems & _).
    destruct (Delete_list h2 sl _ key Hr2 Hl2) as (h2' & sl' & E2 & Hl2').
    exists (list_Delete key (items_of ns)).1, h1', fsl', h2', sl'.
    split; [done |]. split; [done |].
    rewrite (Fixed_iterate_eq h1' fsl' (λ _, 0)), (iterate_spec _ _ _ _ _ Hs'), Hl2'.
    by rewrite Hitems.
Qed.

(** ** An iterator on a node that is deleted *)

Lemma Next_times_chain h : ∀ cs a k (it : Iterator),
  chain h 0 a cs → Forall (held h) cs →
  Next_times k h {| it_x := c_loc <$> head cs |} = Ok it →
  it_x it = c_loc <$> cs !! k.
Proof.
  induction cs as [|c cs IH]; intros a k it' Hch Hheld E.
  - destruct k as [|k]; [by injection E as <- | done].
  - destruct k as [|k]; [by injection E as <- |].
    simpl in Hch. destruct Hch as [_ Hch].
    apply Forall_cons in Hheld as [Hc Hheld]. apply held_load in Hc as (n & Hn & _).
    apply chain_fwd in Hch as Hnext. apply fwd_Some in Hnext as (n' & Hn' & Hi).
    rewrite Hn in Hn'. injection Hn' as <-.
    cbn [Next_times head fmap option_fmap option_map] in E. unfold Next in E.
    cbn [it_x] in E. rewrite (load_Ok _ _ _ Hn), bind_Ok, (index_Ok _ _ _ Hi), !bind_Ok in E.
    by apply (IH (c_loc c) k it' Hch Hheld).
Qed.

(** In the fixed-level variant [freeNode] clears the node before it looks
    at the pool.  So when the item an iterator shows is deleted, wherever
    the iterator stands and whatever the pool holds, [Delete] returns true
    and the iterator is left on a cleared node: [Value] returns nil and
    [Next] leaves the iterator not valid, without a panic. *)
Theorem Fixed_Delete_under_Iterator h fsl (it0 it : Iterator) k v :
  Fixed.reachable h fsl →
  Fixed.NewIterator h fsl = Ok it0 → Next_times k h it0 = Ok it →
  Value h it = Ok (Some v) →
  ∃ h' fsl',
    Fixed.Delete h fsl (Some v) = Ok (true, h', fsl')
    ∧ Value h' it = Ok None
    ∧ Next h' it = Ok {| it_x := None |}.
Proof.
  intros Hr Hnew Hnext Hvalue.
  destruct (Fixed_reachable_Inv h fsl Hr (λ _, 0)) as (hd & ns & fl & Hs & Hsorted).
  rewrite (Fixed_NewIterator_eq h fsl (λ _, 0)), (NewIterator_spec _ _ _ _ _ Hs) in Hnew.
  injection Hnew as <-.
  pose proof (sh_chain _ _ _ _ _ Hs 0%nat ltac:(pose proof (sh_level _ _ _ _ _ Hs); lia)) as Hch.
  rewrite (Shape_lane_0 _ _ _ _ _ Hs) in Hch.
  pose proof (Next_times_chain h ns hd k it Hch (sh_held _ _ _ _ _ Hs) Hnext) as Hit.
  destruct it as [p]. cbn [it_x] in Hit. subst p.
  destruct (ns !! k) as [c|] eqn:Hk; [| done].
  cbn [fmap option_fmap option_map] in *.
  assert (c_item c = v) as Hv.
  { pose proof (sh_held _ _ _ _ _ Hs) as Hheld. rewrite Forall_forall in Hheld.
    destruct (held_load h c (Hheld c (list_elem_of_lookup_2 _ _ _ Hk))) as (n & Hn & Hitem).
    unfold Value in Hvalue. cbn [it_x] in Hvalue.
    rewrite (load_Ok _ _ _ Hn), bind_Ok, Hitem in Hvalue. by injection Hvalue. }
  pose proof (take_drop_middle ns k c Hk) as Hns.
  destruct (Fixed_Delete_Shape h fsl _ hd ns fl v Hs Hsorted)
    as (h' & fsl' & ns' & fl' & E & _ & _ & _ & Hfound).
  assert ((list_Delete v (items_of ns)).1 = true) as Hb.
  { cbn [list_Delete fst]. apply bool_decide_eq_true. unfold list_Search.
    assert (v ∈ filter (λ u, eqv u v) (items_of ns)) as Hin.
    { apply list_elem_of_filter. split; [apply eqv_refl |].
      rewrite <- Hv. apply list_elem_of_fmap_2. by eapply list_elem_of_lookup_2. }
    destruct (filter _ _); [by apply elem_of_nil in Hin | by eexists]. }
  rewrite Hb in E. destruct (Hfound Hb) as (x & n & Hnode & Hcl & Hn & Hlen).
  assert (x = c_loc c) as ->.
  { destruct (Search_spec h _ hd ns fl v Hs) as (la & lb & Hsplit & Hlast & Hstop & Hnode' & _).
    rewrite Hnode in Hnode'.
    assert (la = take k ns ∧ lb = c :: drop (S k) ns) as [_ ->].
    { rewrite Hsplit in Hsorted.
      apply (descent_unique v la lb (take k ns) (c :: drop (S k) ns)); try done.
      - by rewrite Hns.
      - intros c' Hc'. rewrite <- Hsplit, <- Hns in Hsorted.
        apply StronglySorted_app in Hsorted as (Hlt & _ & _).
        rewrite <- Hv. apply Hlt; [| by left].
        apply last_Some in Hc' as [l' ->]. apply elem_of_app. right. by left.
      - unfold stops. rewrite <- Hv. apply less_irrefl. }
    by injection Hnode'. }
  exists h', fsl'. split; [done |].
  destruct Hcl as (n' & Hn' & Hitem & Hnil). rewrite Hn in Hn'. injection Hn' as <-.
  unfold Value, Next. cbn [it_x]. rewrite (load_Ok _ _ _ Hn), !bind_Ok, Hitem.
  split; [done |].
  destruct (elems (forward n) !! 0%nat) as [p|] eqn:E0.
  - rewrite (index_Ok _ _ _ E0), bind_Ok. rewrite Forall_forall in Hnil.
    by rewrite (Hnil p (list_elem_of_lookup_2 _ _ _ E0)).
  - apply lookup_ge_None in E0. unfold len in Hlen. lia.
Qed.

End FixedList.

(** * The two variants on one store *)

Section SameStore.

Context {T : Type} `{!Item T}.
Implicit Types (h : gmap loc (node T)) (fsl : Fixed.SkipList) (sl : SkipList).
Implicit Types (seed : Rand) (r : nat → Q).


(** Where [Insert] of the variant with a maximum level of its own returns,
    on a list of maximum level [kMaxLevel] and with draws of [Uint32] that
    succeed where those of [Float64] do, [Insert] of skiplist.go returns
    the same store and the same list record; it has drawn nothing when the
    item replaces one, and what [randomLevel] draws otherwise. *)
Theorem variants_Insert_same h fsl r (v : option T) h' sl' :
  Insert h (Fixed_canonical fsl (Fixed_draws r)) v = Ok (h', sl') →
  ∃ r', Fixed.Insert h fsl r v = Ok (h', Fixed_forget sl', r')
        ∧ sl' = Fixed_canonical (Fixed_forget sl') (Fixed_draws r')
        ∧ (r' = r ∨ r' = (Fixed.randomLevel r).2).
Proof. apply Fixed_Insert_canonical. Qed.

End SameStore.

(** * The theorems on lists of [Int] *)

Ltac int_order :=
  unfold eqv, Less, Int in *; simpl in *;
  rewrite ?Z.ltb_lt, ?Z.ltb_ge in *; lia.

#[global] Instance Int_StrictWeak : StrictWeak Z.
Proof.
  split.
  - intros u. int_order.
  - intros u v w Huv Hvw. int_order.
  - intros u v w [? ?] [? ?]. split; int_order.
Defined.

Ltac reach_s0 := apply (reach_new DefaultMaxLevel seed); vm_compute; reflexivity.
Ltac reach_s1 :=
  apply (reach_insert s0.1 s0.2 (Some 2)); [reach_s0 | vm_compute; reflexivity].
Ltac reach_s2 :=
  apply (reach_insert s1.1 s1.2 (Some 1)); [reach_s1 | vm_compute; reflexivity].
Ltac reach_s3 :=
  apply (reach_insert s2.1 s2.2 (Some 3)); [reach_s2 | vm_compute; reflexivity].
Ltac reach_s4 :=
  apply (reach_delete s3.1 s3.2 (Some 2) true); [reach_s3 | vm_compute; reflexivity].

(** The output the package's example test expects. *)
Example ExampleSkipList :
  Len e0.2 = 10
  ∧ Search e0.1 e0.2 (Some 3) = Ok (Some 3)
  ∧ Search e0.1 e0.2 (Some 100) = Ok None
  ∧ ('(r, _, _) ← Delete e0.1 e0.2 (Some 4); Ok r) = Ok true
  ∧ ('(r, _, _) ← Delete e1.1 e1.2 (Some 100); Ok r) = Ok false
  ∧ Len e3.2 = 10
  ∧ iterate e3.1 e3.2
    = Ok (Some <$> [0; 1; 2; 3; 5; 6; 7; 8; 9; 100]).
Proof. vm_compute. repeat split; reflexivity. Qed.

(** And of its range test. *)
Example TestRange :
  (r ← NewRange e0.1 e0.2 (Some 1) (Some 3); ForEach e0.1 r)
  = Ok [Some 1; Some 2; Some 3].
Proof. vm_compute. reflexivity. Qed.

Example s3_items : iterate s3.1 s3.2 = Ok [Some 1; Some 2; Some 3].
Proof. vm_compute. reflexivity. Qed.

Example s4_items : iterate s4.1 s4.2 = Ok [Some 1; Some 3].
Proof. vm_compute. reflexivity. Qed.

Example s4_pool : freelist (sl_freelist s4.2) = [Some 1%nat].
Proof. vm_compute. reflexivity. Qed.

Lemma iteration_ascending_witness :
  reachable s3.1 s3.2
  ∧ ∃ items, iterate s3.1 s3.2 = Ok (Some <$> items) ∧ ascending items
             ∧ Len s3.2 = wrap_int (Z.of_nat (length items)).
Proof.
  assert (reachable s3.1 s3.2) as Hr by reach_s3.
  split; [exact Hr |].
  destruct (iteration_ascending s3.1 s3.2 Hr) as (items & Hit & Hasc & _ & _ & Hlen).
  exists items. split; [assumption |]. split; assumption.
Defined.

Lemma NewRange_ForEach_witness :
  reachable s3.1 s3.2
  ∧ ∃ items r,
      iterate s3.1 s3.2 = Ok (Some <$> items)
      ∧ NewRange s3.1 s3.2 (Some 1) (Some 2) = Ok r
      ∧ ForEach s3.1 r = Ok (Some <$> filter (between 1 2) items).
Proof.
  assert (reachable s3.1 s3.2) as Hr by reach_s3.
  split; [exact Hr |].
  destruct (NewRange_ForEach s3.1 s3.2 1 2 Hr) as (items & r & Hit & Hrange & _ & Heach & _).
  exists items, r. split; [assumption |]. split; assumption.
Defined.

Lemma Search_finds_witness :
  reachable s3.1 s3.2
  ∧ ∃ items,
      iterate s3.1 s3.2 = Ok (Some <$> items)
      ∧ ((∃ v, v ∈ items ∧ eqv v 2) →
         ∃ w, Search s3.1 s3.2 (Some 2) = Ok (Some w) ∧ w ∈ items ∧ eqv w 2)
      ∧ ((∀ v, v ∈ items → ¬ eqv v 2) → Search s3.1 s3.2 (Some 2) = Ok None).
Proof.
  assert (reachable s3.1 s3.2) as Hr by reach_s3.
  split; [exact Hr |].
  destruct (Search_finds s3.1 s3.2 2 Hr) as (items & Hit & Hfound & Hnone & _).
  exists items. split; [assumption |]. split; assumption.
Defined.

Lemma Delete_removes_witness :
  reachable s3.1 s3.2
  ∧ ∃ items,
      iterate s3.1 s3.2 = Ok (Some <$> items)
      ∧ ((∃ l1 v l2 h' sl',
            items = l1 ++ v :: l2 ∧ eqv v 2
            ∧ Delete s3.1 s3.2 (Some 2) = Ok (true, h', sl')
            ∧ iterate h' sl' = Ok (Some <$> l1 ++ l2))
         ∨ ((∀ v, v ∈ items → ¬ eqv v 2)
            ∧ Delete s3.1 s3.2 (Some 2) = Ok (false, s3.1, s3.2))).
Proof.
  assert (reachable s3.1 s3.2) as Hr by reach_s3.
  split; [exact Hr |].
  destruct (Delete_removes s3.1 s3.2 2 Hr) as (items & Hit & Hcase).
  exists items. split; [assumption |].
  destruct Hcase as [(l1 & v & l2 & h' & sl' & E & Heq & Hdel & _ & _ & Hit' & _) | Hnone].
  - left. exists l1, v, l2, h', sl'. repeat (split; [assumption |]). assumption.
  - right. assumption.
Defined.

Lemma Insert_updates_or_adds_witness :
  reachable s3.1 s3.2
  ∧ ∃ items,
      iterate s3.1 s3.2 = Ok (Some <$> items)
      ∧ ((∃ l1 v l2 h',
            items = l1 ++ v :: l2 ∧ eqv v 2
            ∧ Insert s3.1 s3.2 (Some 2) = Ok (h', s3.2)
            ∧ iterate h' s3.2 = Ok (Some <$> l1 ++ 2 :: l2))
         ∨ ((∀ v, v ∈ items → ¬ eqv v 2)
            ∧ ∃ l1 l2 h' sl',
                items = l1 ++ l2
                ∧ Insert s3.1 s3.2 (Some 2) = Ok (h', sl')
                ∧ iterate h' sl' = Ok (Some <$> l1 ++ 2 :: l2)
                ∧ Len sl' = wrap_int (Len s3.2 + 1))).
Proof.
  assert (reachable s3.1 s3.2) as Hr by reach_s3.
  split; [exact Hr |].
  destruct (Insert_updates_or_adds s3.1 s3.2 2 Hr) as (items & Hit & Hcase).
  exists items. split; [assumption |].
  destruct Hcase as [(l1 & v & l2 & h' & E & Heq & Hins & _ & Hit')
                    | (Hnone & l1 & l2 & h' & sl' & E & Hins & Hit' & Hlen & _)].
  - left. exists l1, v, l2, h'. repeat (split; [assumption |]). assumption.
  - right. split; [assumption |]. exists l1, l2, h', sl'.
    repeat (split; [assumption |]). assumption.
Defined.

Lemma randomLevel_level_witness :
  1 ≤ maxLevel s3.2 < 2 ^ 31
  ∧ 1 ≤ (randomLevel s3.2).1 ≤ maxLevel s3.2
  ∧ filter (λ v, draw_succeeds v = true) (seqZ 0 65536) = seqZ 0 16384.
Proof.
  assert (1 ≤ maxLevel s3.2 < 2 ^ 31) as Hm.
  { assert (maxLevel s3.2 = 32) as -> by (vm_compute; reflexivity). lia. }
  split; [exact Hm |].
  destruct (randomLevel_level s3.2 Hm) as (Hrange & _ & _ & Hcount & _).
  split; assumption.
Defined.

Lemma occupied_lanes_witness :
  reachable s3.1 s3.2
  ∧ 1 ≤ level s3.2 ≤ maxLevel s3.2
  ∧ (∀ i, (1 ≤ i < Z.to_nat (level s3.2))%nat →
          ∃ a, header_forward s3.1 s3.2 i = Ok (Some a) ∧ Some a ≠ header s3.2)
  ∧ (∀ i, (Z.to_nat (level s3.2) ≤ i < Z.to_nat (maxLevel s3.2))%nat →
          header_forward s3.1 s3.2 i = Ok None).
Proof.
  assert (reachable s3.1 s3.2) as Hr by reach_s3.
  split; [exact Hr |].
  destruct (occupied_lanes s3.1 s3.2 Hr) as (Hlevel & Hlow & Hhigh & _).
  split; [assumption |]. split; assumption.
Defined.

Lemma FreeList_newNode_freeNode_witness :
  ∃ out h' f',
    freeNode s4.1 (sl_freelist s4.2) (Some 2%nat) = Ok (out, h', f')
    ∧ (out = true ↔ (length (freelist (sl_freelist s4.2)) < fl_cap (sl_freelist s4.2))%nat)
    ∧ ∃ p pn f'',
        newNode s4.1 (sl_freelist s4.2) 2 = Ok (Some p, <[p := pn]> s4.1, f'')
        ∧ len (forward pn) = Z.to_nat 2.
Proof.
  destruct (s4.1 !! 2%nat) as [nn|] eqn:Hnn; [| vm_compute in Hnn; discriminate].
  destruct (FreeList_newNode_freeNode s4.1 (sl_freelist s4.2) 2%nat nn 2 Hnn)
    as ((out & h' & f' & Hfree & Hout & _) & (p & pn & f'' & Hnew & Hlen & _) & _).
  - change (freelist (sl_freelist s4.2)) with [Some 1%nat].
    constructor; [| constructor]. exists 1%nat. split; [reflexivity |].
    vm_compute. eexists. reflexivity.
  - lia.
  - exists out, h', f'. split; [assumption |]. split; [assumption |].
    exists p, pn, f''. split; assumption.
Defined.

Lemma panics_of_construction_and_mutation_witness :
  reachable s3.1 s3.2
  ∧ Insert s3.1 s3.2 None = Panic (Explicit "nil item being added to SkipList")
  ∧ (∃ h' sl', Insert s3.1 s3.2 (Some 5) = Ok (h', sl'))
  ∧ (∃ r h' sl', Delete s3.1 s3.2 (Some 5) = Ok (r, h', sl')).
Proof.
  assert (reachable s3.1 s3.2) as Hr by reach_s3.
  split; [exact Hr |].
  destruct (panics_of_construction_and_mutation (T := Z)) as (Hnil & _ & _ & Hins & Hdel).
  split; [apply Hnil |]. split; [by apply Hins | by apply Hdel].
Defined.

Lemma invalid_Iterator_panics_witness :
  reachable s3.1 s3.2
  ∧ Valid {| it_x := None |} = false
  ∧ Next s3.1 {| it_x := None |} = Panic NilDereference
  ∧ Value s3.1 {| it_x := None |} = Panic NilDereference.
Proof.
  assert (reachable s3.1 s3.2) as Hr by reach_s3.
  split; [exact Hr |]. split; [reflexivity |].
  destruct (invalid_Iterator_panics s3.1 s3.2 Hr) as (Hpanic & _).
  apply (Hpanic {| it_x := None |}). reflexivity.
Defined.

(** ** Where the code differs *)

(** On the fresh list the level is 1 and lane 0, which is below the level,
    holds no real node. *)
Lemma fresh_list_lane_0_empty :
  reachable s0.1 s0.2
  ∧ (0 < Z.to_nat (level s0.2))%nat
  ∧ ¬ ∃ a, header_forward s0.1 s0.2 0 = Ok (Some a).
Proof.
  split; [reach_s0 |]. split; [vm_compute; lia |].
  intros [a Ha]. vm_compute in Ha. discriminate.
Qed.

(** [Delete] with a nil item on the list that holds 2 panics in [Less]. *)
Lemma Delete_nil_panics :
  reachable s1.1 s1.2 ∧ Delete s1.1 s1.2 None = Panic TypeAssertion.
Proof.
  split; [reach_s1 |]. vm_compute. reflexivity.
Qed.

(** * The laws on lists of [Int] *)

Ltac reach_s5 :=
  apply (reach_insert s4.1 s4.2 (Some 5)); [reach_s4 | vm_compute; reflexivity].
Ltac reach_t0 := apply (reach_new 4 seed4); vm_compute; reflexivity.
Ltac reach_t1 :=
  apply (reach_insert t0.1 t0.2 (Some 3)); [reach_t0 | vm_compute; reflexivity].
Ltac reach_t2 :=
  apply (reach_insert t1.1 t1.2 (Some 1)); [reach_t1 | vm_compute; reflexivity].
Ltac reach_t3 :=
  apply (reach_insert t2.1 t2.2 (Some 2)); [reach_t2 | vm_compute; reflexivity].

Example t3_items : iterate t3.1 t3.2 = Ok [Some 1; Some 2; Some 3].
Proof. vm_compute. reflexivity. Qed.

Example s5_items : iterate s5.1 s5.2 = Ok [Some 1; Some 3; Some 5].
Proof. vm_compute. reflexivity. Qed.

Lemma calls_refine_list_witness :
  reachable s3.1 s3.2
  ∧ iterate s3.1 s3.2 = Ok (Some <$> [1; 2; 3])
  ∧ Search s3.1 s3.2 (Some 2) = Ok (list_Search 2 [1; 2; 3])
  ∧ (∃ h' sl', Insert s3.1 s3.2 (Some 0) = Ok (h', sl')
               ∧ iterate h' sl' = Ok (Some <$> list_Insert 0 [1; 2; 3]))
  ∧ (∃ h' sl', Delete s3.1 s3.2 (Some 2) = Ok ((list_Delete 2 [1; 2; 3]).1, h', sl')
               ∧ iterate h' sl' = Ok (Some <$> (list_Delete 2 [1; 2; 3]).2)).
Proof.
  assert (reachable s3.1 s3.2) as Hr by reach_s3.
  assert (iterate s3.1 s3.2 = Ok (Some <$> [1; 2; 3])) as Hl by (vm_compute; reflexivity).
  split; [exact Hr |]. split; [exact Hl |].
  destruct (calls_refine_list s3.1 s3.2 [1; 2; 3] Hr Hl) as (Hsearch & Hinsert & Hdelete).
  split; [apply Hsearch |]. split; [apply Hinsert | apply Hdelete].
Defined.

Lemma programs_agree_witness :
  reachable s3.1 s3.2 ∧ reachable t3.1 t3.2
  ∧ iterate s3.1 s3.2 = iterate t3.1 t3.2
  ∧ ∃ os h1' sl1' h2' sl2',
      perform_all s3.1 s3.2 [CallDelete 2; CallSearch 3; CallInsert 5; CallSearch 2]
      = Ok (os, h1', sl1')
      ∧ perform_all t3.1 t3.2 [CallDelete 2; CallSearch 3; CallInsert 5; CallSearch 2]
        = Ok (os, h2', sl2')
      ∧ iterate h1' sl1' = iterate h2' sl2'
      ∧ Len sl1' = Len sl2'.
Proof.
  assert (reachable s3.1 s3.2) as Hr1 by reach_s3.
  assert (reachable t3.1 t3.2) as Hr2 by reach_t3.
  assert (iterate s3.1 s3.2 = iterate t3.1 t3.2) as E by (vm_compute; reflexivity).
  split; [exact Hr1 |]. split; [exact Hr2 |]. split; [exact E |].
  exact (programs_agree s3.1 s3.2 t3.1 t3.2
           [CallDelete 2; CallSearch 3; CallInsert 5; CallSearch 2] Hr1 Hr2 E).
Defined.

Lemma Insert_then_Search_witness :
  reachable s2.1 s2.2
  ∧ Insert s2.1 s2.2 (Some 3) = Ok (s3.1, s3.2)
  ∧ Search s3.1 s3.2 (Some 3) = Ok (Some 3)
  ∧ Search s3.1 s3.2 (Some 1) = Search s2.1 s2.2 (Some 1).
Proof.
  assert (reachable s2.1 s2.2) as Hr by reach_s2.
  assert (Insert s2.1 s2.2 (Some 3) = Ok (s3.1, s3.2)) as E by (vm_compute; reflexivity).
  split; [exact Hr |]. split; [exact E |]. split.
  - rewrite (Insert_then_Search s2.1 s2.2 3 s3.1 s3.2 3 Hr E).
    destruct (decide (eqv 3 3)) as [_ | Hn]; [reflexivity |].
    exfalso. apply Hn. split; reflexivity.
  - rewrite (Insert_then_Search s2.1 s2.2 3 s3.1 s3.2 1 Hr E).
    destruct (decide (eqv 1 3)) as [[Hlt _] | _]; [| reflexivity].
    vm_compute in Hlt. discriminate.
Defined.

Lemma Delete_then_Search_witness :
  reachable s3.1 s3.2
  ∧ Delete s3.1 s3.2 (Some 2) = Ok (true, s4.1, s4.2)
  ∧ Search s4.1 s4.2 (Some 2) = Ok None
  ∧ Search s4.1 s4.2 (Some 3) = Search s3.1 s3.2 (Some 3).
Proof.
  assert (reachable s3.1 s3.2) as Hr by reach_s3.
  assert (Delete s3.1 s3.2 (Some 2) = Ok (true, s4.1, s4.2)) as E by (vm_compute; reflexivity).
  split; [exact Hr |]. split; [exact E |]. split.
  - rewrite (Delete_then_Search s3.1 s3.2 2 true s4.1 s4.2 2 Hr E).
    destruct (decide (eqv 2 2)) as [_ | Hn]; [reflexivity |].
    exfalso. apply Hn. split; reflexivity.
  - rewrite (Delete_then_Search s3.1 s3.2 2 true s4.1 s4.2 3 Hr E).
    destruct (decide (eqv 3 2)) as [[_ Hlt] | _]; [| reflexivity].
    vm_compute in Hlt. discriminate.
Defined.

Lemma Insert_then_Delete_witness :
  reachable s3.1 s3.2
  ∧ Search s3.1 s3.2 (Some 5) = Ok None
  ∧ eqv 5 5
  ∧ ∃ h1 sl1 h2 sl2,
      Insert s3.1 s3.2 (Some 5) = Ok (h1, sl1)
      ∧ Delete h1 sl1 (Some 5) = Ok (true, h2, sl2)
      ∧ iterate h2 sl2 = iterate s3.1 s3.2
      ∧ Len sl2 = Len s3.2.
Proof.
  assert (reachable s3.1 s3.2) as Hr by reach_s3.
  assert (Search s3.1 s3.2 (Some 5) = Ok None) as Habsent by (vm_compute; reflexivity).
  assert (eqv 5 5) as Hk by (split; reflexivity).
  split; [exact Hr |]. split; [exact Habsent |]. split; [exact Hk |].
  exact (Insert_then_Delete s3.1 s3.2 5 5 Hr Habsent Hk).
Defined.

Lemma Delete_then_Insert_witness :
  reachable s3.1 s3.2
  ∧ Search s3.1 s3.2 (Some 2) = Ok (Some 2)
  ∧ ∃ h1 sl1 h2 sl2,
      Delete s3.1 s3.2 (Some 2) = Ok (true, h1, sl1)
      ∧ Insert h1 sl1 (Some 2) = Ok (h2, sl2)
      ∧ iterate h2 sl2 = iterate s3.1 s3.2
      ∧ Len sl2 = Len s3.2.
Proof.
  assert (reachable s3.1 s3.2) as Hr by reach_s3.
  assert (Search s3.1 s3.2 (Some 2) = Ok (Some 2)) as Hfound by (vm_compute; reflexivity).
  split; [exact Hr |]. split; [exact Hfound |].
  exact (Delete_then_Insert s3.1 s3.2 2 2 Hr Hfound).
Defined.

Lemma pool_nodes_cleared_witness :
  reachable s4.1 s4.2
  ∧ ∃ fl, freelist (sl_freelist s4.2) = Some <$> fl
          ∧ (length fl ≤ Z.to_nat DefaultFreeListSize)%nat
          ∧ Forall (cleared s4.1) fl.
Proof.
  assert (reachable s4.1 s4.2) as Hr by reach_s4.
  split; [exact Hr |].
  destruct (pool_nodes_cleared s4.1 s4.2 Hr) as (fl & Hfl & _ & Hlen & _ & _ & Hcl).
  exists fl. split; [assumption |]. split; assumption.
Defined.

Lemma Insert_allocates_witness :
  reachable s4.1 s4.2
  ∧ Insert s4.1 s4.2 (Some 5) = Ok (s5.1, s5.2)
  ∧ ((s5.2 = s4.2 ∧ dom s5.1 = dom s4.1)
     ∨ (Len s5.2 = wrap_int (Len s4.2 + 1)
        ∧ ((freelist (sl_freelist s4.2) = [] ∧ freelist (sl_freelist s5.2) = []
            ∧ ∃ x, (x ∉ dom s4.1) ∧ dom s5.1 = {[x]} ∪ dom s4.1)
           ∨ (∃ x, freelist (sl_freelist s4.2) = freelist (sl_freelist s5.2) ++ [Some x]
                   ∧ dom s5.1 = dom s4.1)))).
Proof.
  assert (reachable s4.1 s4.2) as Hr by reach_s4.
  assert (Insert s4.1 s4.2 (Some 5) = Ok (s5.1, s5.2)) as E by (vm_compute; reflexivity).
  split; [exact Hr |]. split; [exact E |].
  exact (Insert_allocates s4.1 s4.2 5 s5.1 s5.2 Hr E).
Defined.

Lemma Delete_releases_witness :
  reachable s3.1 s3.2
  ∧ Delete s3.1 s3.2 (Some 2) = Ok (true, s4.1, s4.2)
  ∧ Len s4.2 = wrap_int (Len s3.2 - 1)
  ∧ dom s4.1 = dom s3.1.
Proof.
  assert (reachable s3.1 s3.2) as Hr by reach_s3.
  assert (Delete s3.1 s3.2 (Some 2) = Ok (true, s4.1, s4.2)) as E by (vm_compute; reflexivity).
  split; [exact Hr |]. split; [exact E |].
  destruct (Delete_releases s3.1 s3.2 2 s4.1 s4.2 Hr E) as (Hlen & Hdom & _).
  split; assumption.
Defined.

Lemma lanes_nested_witness :
  reachable s3.1 s3.2
  ∧ ∃ lanes : nat → list Z,
      iterate s3.1 s3.2 = Ok (Some <$> lanes 0%nat)
      ∧ (∀ i, (i < Z.to_nat (maxLevel s3.2))%nat →
              lane_items s3.1 s3.2 i = Ok (Some <$> lanes i))
      ∧ (∀ i, lanes (S i) `sublist_of` lanes i)
      ∧ (∀ i, (Z.to_nat (level s3.2) ≤ i)%nat → lanes i = []).
Proof.
  assert (reachable s3.1 s3.2) as Hr by reach_s3.
  split; [exact Hr |]. exact (lanes_nested s3.1 s3.2 Hr).
Defined.

Lemma nil_key_on_empty_list_witness :
  reachable s0.1 s0.2
  ∧ iterate s0.1 s0.2 = Ok []
  ∧ Search s0.1 s0.2 None = Ok None
  ∧ Delete s0.1 s0.2 None = Ok (false, s0.1, s0.2)
  ∧ (∀ it0 : Iterator, MoveTo s0.1 s0.2 it0 None = Ok {| it_x := None |})
  ∧ (∀ lo hi, NewRange s0.1 s0.2 lo hi = Ok {| r_begin := None; r_end := None |}).
Proof.
  assert (reachable s0.1 s0.2) as Hr by reach_s0.
  assert (iterate s0.1 s0.2 = Ok []) as Hempty by (vm_compute; reflexivity).
  split; [exact Hr |]. split; [exact Hempty |].
  destruct (nil_key_on_empty_list s0.1 s0.2 Hr Hempty) as (Hs & Hd & Hm & Hn & _).
  split; [assumption |]. split; [assumption |]. split; assumption.
Defined.


Lemma MoveTo_seeks_witness :
  reachable s3.1 s3.2
  ∧ ∃ l (it : Iterator),
      iterate s3.1 s3.2 = Ok (Some <$> l)
      ∧ MoveTo s3.1 s3.2 {| it_x := None |} (Some 2) = Ok it
      ∧ iterate_loop (S (size s3.1)) s3.1 it
        = Ok (Some <$> filter (λ v, Less v 2 = false) l).
Proof.
  assert (reachable s3.1 s3.2) as Hr by reach_s3.
  split; [exact Hr |].
  destruct (MoveTo_seeks s3.1 s3.2 {| it_x := None |} 2 Hr) as (l & it & Hl & Hm & Hloop & _).
  exists l, it. split; [assumption |]. split; assumption.
Defined.

Lemma Delete_under_Iterator_witness :
  reachable s3.1 s3.2
  ∧ MoveTo s3.1 s3.2 {| it_x := None |} (Some 2) = Ok {| it_x := Some 1%nat |}
  ∧ Delete s3.1 s3.2 (Some 2) = Ok (true, s4.1, s4.2)
  ∧ Value s4.1 {| it_x := Some 1%nat |} = Ok None
  ∧ Next s4.1 {| it_x := Some 1%nat |} = Ok {| it_x := None |}.
Proof.
  assert (reachable s3.1 s3.2) as Hr by reach_s3.
  assert (MoveTo s3.1 s3.2 {| it_x := None |} (Some 2) = Ok {| it_x := Some 1%nat |}) as Hm
    by (vm_compute; reflexivity).
  assert (Delete s3.1 s3.2 (Some 2) = Ok (true, s4.1, s4.2)) as E by (vm_compute; reflexivity).
  split; [exact Hr |]. split; [exact Hm |]. split; [exact E |].
  pose proof (Delete_under_Iterator s3.1 s3.2 {| it_x := None |} 2 {| it_x := Some 1%nat |}
                s4.1 s4.2 Hr Hm E) as H.
  destruct (decide (length (freelist (sl_freelist s3.2)) < Z.to_nat DefaultFreeListSize)%nat)
    as [_ | Hn]; [exact H |].
  exfalso. apply Hn. vm_compute. lia.
Defined.

Lemma Insert_twice_witness :
  reachable s2.1 s2.2
  ∧ Insert s2.1 s2.2 (Some 3) = Ok (s3.1, s3.2)
  ∧ Insert s3.1 s3.2 (Some 3) = Ok (s3.1, s3.2).
Proof.
  assert (reachable s2.1 s2.2) as Hr by reach_s2.
  assert (Insert s2.1 s2.2 (Some 3) = Ok (s3.1, s3.2)) as E by (vm_compute; reflexivity).
  split; [exact Hr |]. split; [exact E |].
  exact (Insert_twice s2.1 s2.2 3 s3.1 s3.2 Hr E).
Defined.

Lemma NewRange_of_one_key_witness :
  reachable s3.1 s3.2
  ∧ ∃ r (found : option Z),
      NewRange s3.1 s3.2 (Some 2) (Some 2) = Ok r
      ∧ Search s3.1 s3.2 (Some 2) = Ok found
      ∧ ForEach s3.1 r = Ok (match found with Some v => [Some v] | None => [] end).
Proof.
  assert (reachable s3.1 s3.2) as Hr by reach_s3.
  split; [exact Hr |]. exact (NewRange_of_one_key s3.1 s3.2 2 Hr).
Defined.

(** * The fixed-level variant on lists of [Int] *)

Ltac reach_f0 := apply (Fixed.reach_new f0.1.1 f0.1.2); vm_compute; reflexivity.
Ltac reach_f1 :=
  apply (Fixed.reach_insert f0.1.1 f0.1.2 f0.2 (Some 2) f1.1.1 f1.1.2 f1.2);
    [reach_f0 | vm_compute; reflexivity].
Ltac reach_f2 :=
  apply (Fixed.reach_insert f1.1.1 f1.1.2 f1.2 (Some 1) f2.1.1 f2.1.2 f2.2);
    [reach_f1 | vm_compute; reflexivity].
Ltac reach_f3 :=
  apply (Fixed.reach_insert f2.1.1 f2.1.2 f2.2 (Some 3) f3.1.1 f3.1.2 f3.2);
    [reach_f2 | vm_compute; reflexivity].

Example f3_items : Fixed.iterate f3.1.1 f3.1.2 = Ok [Some 1; Some 2; Some 3].
Proof. vm_compute. reflexivity. Qed.

Example f3_level : Fixed.level f3.1.2 = 3.
Proof. vm_compute. reflexivity. Qed.

Lemma Fixed_iteration_ascending_witness :
  Fixed.reachable f3.1.1 f3.1.2
  ∧ ∃ items, Fixed.iterate f3.1.1 f3.1.2 = Ok (Some <$> items)
             ∧ ascending items
             ∧ Fixed.Len f3.1.2 = wrap_int (Z.of_nat (length items)).
Proof.
  assert (Fixed.reachable f3.1.1 f3.1.2) as Hr by reach_f3.
  split; [exact Hr |]. exact (Fixed_iteration_ascending f3.1.1 f3.1.2 Hr).
Defined.

Lemma Fixed_calls_refine_list_witness :
  Fixed.reachable f3.1.1 f3.1.2
  ∧ Fixed.iterate f3.1.1 f3.1.2 = Ok (Some <$> [1; 2; 3])
  ∧ Fixed.Search f3.1.1 f3.1.2 (Some 2) = Ok (list_Search 2 [1; 2; 3])
  ∧ (∃ h' fsl' r', Fixed.Insert f3.1.1 f3.1.2 f3.2 (Some 0) = Ok (h', fsl', r')
                   ∧ Fixed.iterate h' fsl' = Ok (Some <$> list_Insert 0 [1; 2; 3]))
  ∧ (∃ h' fsl', Fixed.Delete f3.1.1 f3.1.2 (Some 2)
                = Ok ((list_Delete 2 [1; 2; 3]).1, h', fsl')
                ∧ Fixed.iterate h' fsl' = Ok (Some <$> (list_Delete 2 [1; 2; 3]).2)).
Proof.
  assert (Fixed.reachable f3.1.1 f3.1.2) as Hr by reach_f3.
  assert (Fixed.iterate f3.1.1 f3.1.2 = Ok (Some <$> [1; 2; 3])) as Hl
    by (vm_compute; reflexivity).
  split; [exact Hr |]. split; [exact Hl |].
  destruct (Fixed_calls_refine_list f3.1.1 f3.1.2 [1; 2; 3] Hr Hl)
    as (Hsearch & Hinsert & Hdelete).
  split; [apply Hsearch |]. split; [apply Hinsert | apply Hdelete].
Defined.

Lemma variants_agree_witness :
  Fixed.reachable f3.1.1 f3.1.2 ∧ reachable t3.1 t3.2
  ∧ Fixed.iterate f3.1.1 f3.1.2 = iterate t3.1 t3.2
  ∧ Fixed.Search f3.1.1 f3.1.2 (Some 2) = Search t3.1 t3.2 (Some 2)
  ∧ (∃ h1' fsl' r' h2' sl',
        Fixed.Insert f3.1.1 f3.1.2 f3.2 (Some 5) = Ok (h1', fsl', r')
        ∧ Insert t3.1 t3.2 (Some 5) = Ok (h2', sl')
        ∧ Fixed.iterate h1' fsl' = iterate h2' sl')
  ∧ (∃ (found : bool) h1' fsl' h2' sl',
        Fixed.Delete f3.1.1 f3.1.2 (Some 2) = Ok (found, h1', fsl')
        ∧ Delete t3.1 t3.2 (Some 2) = Ok (found, h2', sl')
        ∧ Fixed.iterate h1' fsl' = iterate h2' sl').
Proof.
  assert (Fixed.reachable f3.1.1 f3.1.2) as Hr1 by reach_f3.
  assert (reachable t3.1 t3.2) as Hr2 by reach_t3.
  assert (Fixed.iterate f3.1.1 f3.1.2 = iterate t3.1 t3.2) as E by (vm_compute; reflexivity).
  split; [exact Hr1 |]. split; [exact Hr2 |]. split; [exact E |].
  destruct (variants_agree f3.1.1 f3.1.2 t3.1 t3.2 Hr1 Hr2 E)
    as (Hsearch & Hinsert & Hdelete).
  split; [apply Hsearch |]. split; [apply Hinsert | apply Hdelete].
Defined.

Lemma Fixed_Delete_under_Iterator_witness :
  Fixed.reachable f3.1.1 f3.1.2
  ∧ Fixed.NewIterator f3.1.1 f3.1.2 = Ok {| it_x := Some 2%nat |}
  ∧ Next_times 1 f3.1.1 {| it_x := Some 2%nat |} = Ok {| it_x := Some 1%nat |}
  ∧ Value f3.1.1 {| it_x := Some 1%nat |} = Ok (Some 2)
  ∧ ∃ h' fsl',
      Fixed.Delete f3.1.1 f3.1.2 (Some 2) = Ok (true, h', fsl')
      ∧ Value h' {| it_x := Some 1%nat |} = Ok None
      ∧ Next h' {| it_x := Some 1%nat |} = Ok {| it_x := None |}.
Proof.
  assert (Fixed.reachable f3.1.1 f3.1.2) as Hr by reach_f3.
  assert (Fixed.NewIterator f3.1.1 f3.1.2 = Ok {| it_x := Some 2%nat |}) as Hnew
    by (vm_compute; reflexivity).
  assert (Next_times 1 f3.1.1 {| it_x := Some 2%nat |}
          = Ok {| it_x := Some 1%nat |}) as Hnext by (vm_compute; reflexivity).
  assert (Value f3.1.1 {| it_x := Some 1%nat |} = Ok (Some 2)) as Hvalue
    by (vm_compute; reflexivity).
  split; [exact Hr |]. split; [exact Hnew |]. split; [exact Hnext |]. split; [exact Hvalue |].
  exact (Fixed_Delete_under_Iterator f3.1.1 f3.1.2 _ _ 1 2 Hr Hnew Hnext Hvalue).
Defined.

Lemma variants_Insert_same_witness :
  Insert f2.1.1 (Fixed_canonical f2.1.2 (Fixed_draws f2.2)) (Some 3)
  = Ok (f3.1.1, Fixed_canonical f3.1.2 (Fixed_draws f3.2))
  ∧ ∃ r', Fixed.Insert f2.1.1 f2.1.2 f2.2 (Some 3)
          = Ok (f3.1.1, Fixed_forget (Fixed_canonical f3.1.2 (Fixed_draws f3.2)), r')
          ∧ Fixed_canonical f3.1.2 (Fixed_draws f3.2)
            = Fixed_canonical (Fixed_forget (Fixed_canonical f3.1.2 (Fixed_draws f3.2)))
                (Fixed_draws r')
          ∧ (r' = f2.2 ∨ r' = (Fixed.randomLevel f2.2).2).
Proof.
  assert (Insert f2.1.1 (Fixed_canonical f2.1.2 (Fixed_draws f2.2)) (Some 3)
          = Ok (f3.1.1, Fixed_canonical f3.1.2 (Fixed_draws f3.2))) as E
    by (vm_compute; reflexivity).
  split; [exact E |].
  exact (variants_Insert_same f2.1.1 f2.1.2 f2.2 (Some 3) _ _ E).
Defined.
